(** * mempool: a fixed-segment pool allocator with two-level bitmaps

    Shallow embedding of [src/mempool.h], [src/mempool.cpp] and
    [src/mempool.tpp], followed by the properties of the allocator.

    Integers of the program are values of [Z]; every conversion to a
    narrower unsigned type is written as a [mod], conversions to [int8_t]
    go through [to_int8].  Heap arrays are lists behind a three-state
    pointer ([Null], [Live], [Dangling]); an access outside a live array, a
    shift by the width of the type or more, [__builtin_ctz] of zero and a
    second [delete[]] are undefined behaviour in C++ and make the
    operation return [Undef].  The recursion of [alloc] is bounded by a
    fuel argument; [NoFuel] marks a call that needs more nested calls than
    the fuel allows.  The statistics kept under [MEMPOOL_DEBUG],
    [print_buffer] and [print_stats] are left out. *)

From Stdlib Require Import ZArith Lia Bool.
From stdpp Require Import base list.

Local Open Scope Z_scope.

(** ** Outcomes of an operation *)

Inductive outcome (A : Type) : Type :=
| Ret (a : A)
| Undef
| NoFuel.

Arguments Ret {A} a.
Arguments Undef {A}.
Arguments NoFuel {A}.

Definition bind {A B : Type} (m : outcome A) (k : A -> outcome B) : outcome B :=
  match m with
  | Ret a => k a
  | Undef => Undef
  | NoFuel => NoFuel
  end.

Notation "x <- m ;; k" := (bind m (fun x => k))
  (at level 100, m at next level, right associativity).

(** [for (i = a; i < a + n; ++i) body], on the part of the state the body
    touches. *)
Fixpoint for_loop {S : Type} (n : nat) (i : Z)
    (body : Z -> S -> outcome S) (s : S) : outcome S :=
  match n with
  | O => Ret s
  | S n' => s' <- body i s ;; for_loop n' (i + 1) body s'
  end.

(** ** Machine arithmetic *)

Definition wrap8 (x : Z) : Z := x mod 256.
Definition wrap16 (x : Z) : Z := x mod 65536.
Definition wrap32 (x : Z) : Z := x mod 4294967296.

Definition to_int8 (x : Z) : Z :=
  if wrap8 x <? 128 then wrap8 x else wrap8 x - 256.

Definition ALL_ONES : Z := 4294967295.

(** [~x] on a [uint32_t]. *)
Definition not32 (x : Z) : Z := Z.lxor x ALL_ONES.

(** Arduino's [bitSet(value, bit)] is [value |= (1UL << bit)] and
    [bitClear(value, bit)] is [value &= ~(1UL << bit)]; every call below
    has [bit < 32]. *)
Definition bitSet (value bit : Z) : Z := Z.lor value (Z.shiftl 1 bit).
Definition bitClear (value bit : Z) : Z :=
  Z.land value (not32 (Z.shiftl 1 bit)).

Fixpoint ctz_from (n : nat) (i : Z) (x : Z) : outcome Z :=
  match n with
  | O => Undef
  | S n' => if Z.testbit x i then Ret i else ctz_from n' (i + 1) x
  end.

(** [__builtin_ctz] on a 32-bit argument; the result is undefined at 0. *)
Definition __builtin_ctz (x : Z) : outcome Z := ctz_from 32 0 x.

(** ** Heap blocks *)

Inductive block (A : Type) : Type :=
| Null
| Live (a : A)
| Dangling.

Arguments Null {A}.
Arguments Live {A} a.
Arguments Dangling {A}.

Definition is_null {A : Type} (b : block A) : bool :=
  match b with Null => true | _ => false end.

(** [arr[i]] as an rvalue and [arr[i] = v]. *)
Definition rd {A : Type} (b : block (list A)) (i : Z) : outcome A :=
  match b with
  | Live l =>
      if i <? 0 then Undef
      else match l !! Z.to_nat i with
           | Some v => Ret v
           | None => Undef
           end
  | _ => Undef
  end.

Definition wr {A : Type} (b : block (list A)) (i : Z) (v : A)
    : outcome (block (list A)) :=
  match b with
  | Live l =>
      if (0 <=? i) && (i <? Z.of_nat (length l))
      then Ret (Live (<[Z.to_nat i := v]> l))
      else Undef
  | _ => Undef
  end.

(** [if (p) delete[] p;] *)
Definition delete_if {A : Type} (b : block A) : outcome (block A) :=
  match b with
  | Null => Ret Null
  | Live _ => Ret Dangling
  | Dangling => Undef
  end.

(** What the heap answers to the [new] expressions of one [begin] call:
    which of them, counted from 0 in program order, returns [nullptr], and
    the address of the data arena. *)
Record heap : Type := Heap {
  oom_at : option nat;
  arena_addr : Z
}.

Definition new_fails (h : heap) (k : nat) : bool :=
  match oom_at h with
  | Some j => Nat.eqb j k
  | None => false
  end.

Definition new_array (h : heap) (k : nat) (n : Z) : block (list Z) :=
  if new_fails h k then Null else Live (replicate (Z.to_nat n) 0).

Definition new_arena (h : heap) (k : nat) : block Z :=
  if new_fails h k then Null else Live (arena_addr h).

(** ** Data *)

(** Modelled from the spec: the macros [SEGMENT_STEP] and [SEGMENT_LOG2]
    are used by [mempool.cpp] but defined in none of the source files.  The
    spec's concrete scenario has step 4 (descriptor sizes 1 and 4 give
    cells of 4 and 16 bytes), and [release] divides offsets by 4 with
    [offset >> 2]. *)
Definition SEGMENT_STEP : Z := 4.
Definition SEGMENT_LOG2 : Z := 2.

Module segment.
Record t : Type := mk { count : Z; size : Z }.
End segment.

(** The constructor [segment(uint16_t c, uint16_t s)] stores [s] in a
    [uint8_t] field. *)
Definition mk_segment (c s : Z) : segment.t :=
  {| segment.count := wrap16 c; segment.size := wrap8 s |}.

Definition rd_seg (segs : list segment.t) (i : Z) : outcome segment.t :=
  if i <? 0 then Undef
  else match segs !! Z.to_nat i with
       | Some s => Ret s
       | None => Undef
       end.

Record mempool : Type := Mempool {
  _initialized : bool;
  _buffer : block Z;
  _buffer_size : Z;
  _pool_size : Z;
  _pool_buffer : block (list Z);
  _pool_ptr : block (list Z);
  _segment_ptr : block (list Z);
  _max_segment_size : Z;
  _segment_sizes : block (list Z);
  _cell_count : block (list Z);
  _magic_number : block (list Z);
  _segment_shift : block (list Z);
  _segment_count : Z;
  _segment_lookup : block (list Z);
  _segment_lookup_count : Z
}.

(** The member initialisers of the class. *)
Definition new_mempool : mempool :=
  {| _initialized := false; _buffer := Null; _buffer_size := 0;
     _pool_size := 0; _pool_buffer := Null; _pool_ptr := Null;
     _segment_ptr := Null; _max_segment_size := 0; _segment_sizes := Null;
     _cell_count := Null; _magic_number := Null; _segment_shift := Null;
     _segment_count := 0; _segment_lookup := Null;
     _segment_lookup_count := 0 |}.

(** Assignment to one member. *)
Definition with_initialized (v : bool) (st : mempool) : mempool :=
  match st with
  | Mempool f0 f1 f2 f3 f4 f5 f6 f7 f8 f9 f10 f11 f12 f13 f14 =>
      Mempool v f1 f2 f3 f4 f5 f6 f7 f8 f9 f10 f11 f12 f13 f14
  end.

Definition with_buffer (v : block Z) (st : mempool) : mempool :=
  match st with
  | Mempool f0 f1 f2 f3 f4 f5 f6 f7 f8 f9 f10 f11 f12 f13 f14 =>
      Mempool f0 v f2 f3 f4 f5 f6 f7 f8 f9 f10 f11 f12 f13 f14
  end.

Definition with_buffer_size (v : Z) (st : mempool) : mempool :=
  match st with
  | Mempool f0 f1 f2 f3 f4 f5 f6 f7 f8 f9 f10 f11 f12 f13 f14 =>
      Mempool f0 f1 v f3 f4 f5 f6 f7 f8 f9 f10 f11 f12 f13 f14
  end.

Definition with_pool_size (v : Z) (st : mempool) : mempool :=
  match st with
  | Mempool f0 f1 f2 f3 f4 f5 f6 f7 f8 f9 f10 f11 f12 f13 f14 =>
      Mempool f0 f1 f2 v f4 f5 f6 f7 f8 f9 f10 f11 f12 f13 f14
  end.

Definition with_pool_buffer (v : block (list Z)) (st : mempool) : mempool :=
  match st with
  | Mempool f0 f1 f2 f3 f4 f5 f6 f7 f8 f9 f10 f11 f12 f13 f14 =>
      Mempool f0 f1 f2 f3 v f5 f6 f7 f8 f9 f10 f11 f12 f13 f14
  end.

Definition with_pool_ptr (v : block (list Z)) (st : mempool) : mempool :=
  match st with
  | Mempool f0 f1 f2 f3 f4 f5 f6 f7 f8 f9 f10 f11 f12 f13 f14 =>
      Mempool f0 f1 f2 f3 f4 v f6 f7 f8 f9 f10 f11 f12 f13 f14
  end.

Definition with_segment_ptr (v : block (list Z)) (st : mempool) : mempool :=
  match st with
  | Mempool f0 f1 f2 f3 f4 f5 f6 f7 f8 f9 f10 f11 f12 f13 f14 =>
      Mempool f0 f1 f2 f3 f4 f5 v f7 f8 f9 f10 f11 f12 f13 f14
  end.

Definition with_max_segment_size (v : Z) (st : mempool) : mempool :=
  match st with
  | Mempool f0 f1 f2 f3 f4 f5 f6 f7 f8 f9 f10 f11 f12 f13 f14 =>
      Mempool f0 f1 f2 f3 f4 f5 f6 v f8 f9 f10 f11 f12 f13 f14
  end.

Definition with_segment_sizes (v : block (list Z)) (st : mempool) : mempool :=
  match st with
  | Mempool f0 f1 f2 f3 f4 f5 f6 f7 f8 f9 f10 f11 f12 f13 f14 =>
      Mempool f0 f1 f2 f3 f4 f5 f6 f7 v f9 f10 f11 f12 f13 f14
  end.

Definition with_cell_count (v : block (list Z)) (st : mempool) : mempool :=
  match st with
  | Mempool f0 f1 f2 f3 f4 f5 f6 f7 f8 f9 f10 f11 f12 f13 f14 =>
      Mempool f0 f1 f2 f3 f4 f5 f6 f7 f8 v f10 f11 f12 f13 f14
  end.

Definition with_magic_number (v : block (list Z)) (st : mempool) : mempool :=
  match st with
  | Mempool f0 f1 f2 f3 f4 f5 f6 f7 f8 f9 f10 f11 f12 f13 f14 =>
      Mempool f0 f1 f2 f3 f4 f5 f6 f7 f8 f9 v f11 f12 f13 f14
  end.

Definition with_segment_shift (v : block (list Z)) (st : mempool) : mempool :=
  match st with
  | Mempool f0 f1 f2 f3 f4 f5 f6 f7 f8 f9 f10 f11 f12 f13 f14 =>
      Mempool f0 f1 f2 f3 f4 f5 f6 f7 f8 f9 f10 v f12 f13 f14
  end.

Definition with_segment_count (v : Z) (st : mempool) : mempool :=
  match st with
  | Mempool f0 f1 f2 f3 f4 f5 f6 f7 f8 f9 f10 f11 f12 f13 f14 =>
      Mempool f0 f1 f2 f3 f4 f5 f6 f7 f8 f9 f10 f11 v f13 f14
  end.

Definition with_segment_lookup (v : block (list Z)) (st : mempool) : mempool
    :=
  match st with
  | Mempool f0 f1 f2 f3 f4 f5 f6 f7 f8 f9 f10 f11 f12 f13 f14 =>
      Mempool f0 f1 f2 f3 f4 f5 f6 f7 f8 f9 f10 f11 f12 v f14
  end.

Definition with_segment_lookup_count (v : Z) (st : mempool) : mempool :=
  match st with
  | Mempool f0 f1 f2 f3 f4 f5 f6 f7 f8 f9 f10 f11 f12 f13 f14 =>
      Mempool f0 f1 f2 f3 f4 f5 f6 f7 f8 f9 f10 f11 f12 f13 v
  end.

(** ** Operations *)

(** [mempool::clean]: every array is deleted when its pointer is not null;
    no member is assigned. *)
Definition clean (st : mempool) : outcome mempool :=
  a <- delete_if (_segment_sizes st) ;;
  let st := with_segment_sizes a st in
  a <- delete_if (_cell_count st) ;;
  let st := with_cell_count a st in
  a <- delete_if (_magic_number st) ;;
  let st := with_magic_number a st in
  a <- delete_if (_segment_shift st) ;;
  let st := with_segment_shift a st in
  b <- delete_if (_buffer st) ;;
  let st := with_buffer b st in
  a <- delete_if (_pool_buffer st) ;;
  let st := with_pool_buffer a st in
  a <- delete_if (_segment_lookup st) ;;
  let st := with_segment_lookup a st in
  a <- delete_if (_segment_ptr st) ;;
  let st := with_segment_ptr a st in
  a <- delete_if (_pool_ptr st) ;;
  Ret (with_pool_ptr a st).

(** [clean(); return false;] *)
Definition fail (st : mempool) : outcome (bool * mempool) :=
  st' <- clean st ;; Ret (false, st').

(** The loop of [mempool::_get_next_segment], with its locals [find] and
    [ret]. *)
Fixpoint get_next_loop (n : nat) (i : Z) (arr : list segment.t)
    (current find ret : Z) : outcome Z :=
  match n with
  | O => Ret ret
  | S n' =>
      s <- rd_seg arr i ;;
      if (segment.size s >? current) && (segment.size s <? find)
      then get_next_loop n' (i + 1) arr current (segment.size s) i
      else get_next_loop n' (i + 1) arr current find ret
  end.

Definition _get_next_segment (arr : list segment.t) (count current : Z)
    : outcome Z :=
  get_next_loop (Z.to_nat count) 0 arr current (wrap16 (-1)) 0.

Fixpoint lookup_loop (n : nat) (i : Z) (sizes : block (list Z)) (size : Z)
    : outcome Z :=
  match n with
  | O => Ret (-1)
  | S n' =>
      v <- rd sizes i ;;
      if v >=? size then Ret i else lookup_loop n' (i + 1) sizes size
  end.

Definition _lookup_segment (st : mempool) (size : Z) : outcome Z :=
  lookup_loop (Z.to_nat (_segment_count st)) 0 (_segment_sizes st) size.

(** [c] is the [uint8_t] parameter; [ret << c] is undefined from 32 on. *)
Definition _prepare_mask (c : Z) : outcome Z :=
  if c =? 0 then Ret 0
  else if 32 <=? c then Undef
  else Ret (wrap32 (Z.shiftl ALL_ONES c)).

(** Number of 32-cell groups, [(cells + 31) / 32]. *)
Definition groups (cells : Z) : Z := (cells + 31) / 32.

(** Lines 78-98 of [begin]: the descriptors are placed in the order chosen
    by [_get_next_segment].  The result is [false] after
    [clean(); return false;]. *)
Fixpoint begin_place (n : nat) (i : Z) (segs : list segment.t) (count : Z)
    (currentSize : Z) (st : mempool) : outcome (bool * mempool) :=
  match n with
  | O => Ret (true, st)
  | S n' =>
      s <- rd_seg segs i ;;
      if segment.size s =? 0 then fail st else
      ix <- _get_next_segment segs count currentSize ;;
      sx <- rd_seg segs ix ;;
      a <- wr (_segment_sizes st) i (wrap16 (segment.size sx * SEGMENT_STEP)) ;;
      let st := with_segment_sizes a st in
      sz <- rd (_segment_sizes st) i ;;
      if sz >? 64 then fail st else
      a <- wr (_cell_count st) i (segment.count sx) ;;
      let st := with_cell_count a st in
      cc <- rd (_cell_count st) i ;;
      let st := with_buffer_size (wrap32 (_buffer_size st + sz * cc)) st in
      let st := with_pool_size (wrap16 (_pool_size st + groups cc)) st in
      let st := with_pool_size (wrap16 (_pool_size st + 1)) st in
      begin_place n' (i + 1) segs count (segment.size sx) st
  end.

(** Lines 120-122. *)
Definition begin_lookup_body (i : Z) (st : mempool) : outcome mempool :=
  v <- _lookup_segment st (wrap16 (i * SEGMENT_STEP)) ;;
  a <- wr (_segment_lookup st) (i - 1) v ;;
  Ret (with_segment_lookup a st).

(** Lines 127-130.  A pool pointer is kept as the index of its first word
    in [_pool_buffer]. *)
Definition begin_pointers_body (i : Z) (st : mempool) : outcome mempool :=
  p <- rd (_segment_ptr st) i ;;
  sz <- rd (_segment_sizes st) i ;;
  cc <- rd (_cell_count st) i ;;
  a <- wr (_segment_ptr st) (i + 1) (p + sz * cc) ;;
  let st := with_segment_ptr a st in
  q <- rd (_pool_ptr st) i ;;
  cc <- rd (_cell_count st) i ;;
  a <- wr (_pool_ptr st) (i + 1) (q + groups cc + 1) ;;
  Ret (with_pool_ptr a st).

(** Lines 133-143. *)
Definition begin_magic_body (i : Z) (st : mempool) : outcome mempool :=
  sz <- rd (_segment_sizes st) i ;;
  if negb (Z.land sz (sz - 1) =? 0) then
    a <- wr (_magic_number st) i
           (wrap32 ((65536 + Z.shiftr sz 2 - 1) / Z.shiftr sz 2)) ;;
    let st := with_magic_number a st in
    a <- wr (_segment_shift st) i 16 ;;
    Ret (with_segment_shift a st)
  else
    a <- wr (_magic_number st) i 1 ;;
    let st := with_magic_number a st in
    c <- __builtin_ctz sz ;;
    a <- wr (_segment_shift st) i (wrap8 c) ;;
    Ret (with_segment_shift a st).

(** Lines 146-149. *)
Definition begin_masks_body (i : Z) (st : mempool) : outcome mempool :=
  q <- rd (_pool_ptr st) i ;;
  cc <- rd (_cell_count st) i ;;
  m <- _prepare_mask (wrap8 (groups cc)) ;;
  a <- wr (_pool_buffer st) (q + 0) m ;;
  let st := with_pool_buffer a st in
  q <- rd (_pool_ptr st) i ;;
  cc <- rd (_cell_count st) i ;;
  m <- _prepare_mask (wrap8 (cc mod 32)) ;;
  a <- wr (_pool_buffer st) (q + groups cc) m ;;
  Ret (with_pool_buffer a st).

(** Lines 100-150, after the descriptors are placed. *)
Definition begin_finish (h : heap) (count : Z) (st : mempool)
    : outcome (bool * mempool) :=
  mx <- rd (_segment_sizes st) (count - 1) ;;
  let st := with_max_segment_size mx st in
  let st := with_buffer (new_arena h 6) st in
  if is_null (_buffer st) then fail st else
  let st := with_pool_buffer (new_array h 7 (_pool_size st)) st in
  if is_null (_pool_buffer st) then fail st else
  let st := with_segment_lookup_count (_max_segment_size st / SEGMENT_STEP) st in
  let st := with_segment_lookup (new_array h 8 (_segment_lookup_count st)) st in
  if is_null (_segment_lookup st) then fail st else
  st <- for_loop (Z.to_nat (_segment_lookup_count st)) 1 begin_lookup_body st ;;
  b <- match _buffer st with Live b => Ret b | _ => Undef end ;;
  a <- wr (_segment_ptr st) 0 b ;;
  let st := with_segment_ptr a st in
  a <- wr (_pool_ptr st) 0 0 ;;
  let st := with_pool_ptr a st in
  st <- for_loop (Z.to_nat (count - 1)) 0 begin_pointers_body st ;;
  st <- for_loop (Z.to_nat count) 0 begin_magic_body st ;;
  st <- for_loop (Z.to_nat count) 0 begin_masks_body st ;;
  Ret (true, st).

(** [mempool::begin].  [count] is the [uint8_t] argument. *)
Definition begin (h : heap) (segs : list segment.t) (count : Z)
    (st : mempool) : outcome (bool * mempool) :=
  if _initialized st then Ret (false, st) else
  if count >? 64 then Ret (false, st) else
  let st := with_segment_sizes (new_array h 0 count) st in
  if is_null (_segment_sizes st) then fail st else
  let st := with_cell_count (new_array h 1 count) st in
  if is_null (_cell_count st) then fail st else
  let st := with_magic_number (new_array h 2 count) st in
  if is_null (_magic_number st) then fail st else
  let st := with_segment_shift (new_array h 3 count) st in
  if is_null (_segment_shift st) then fail st else
  let st := with_segment_ptr (new_array h 4 count) st in
  if is_null (_segment_ptr st) then fail st else
  let st := with_pool_ptr (new_array h 5 count) st in
  if is_null (_pool_ptr st) then fail st else
  let st := with_initialized true st in
  let st := with_segment_count count st in
  let st := with_buffer_size 0 st in
  r <- begin_place (Z.to_nat count) 0 segs count 0 st ;;
  if fst r then begin_finish h count (snd r) else Ret r.

Definition nullptr : Z := 0.

(** The index [alloc] reads the lookup table at, line 233. *)
Definition lookup_index (size : Z) : Z :=
  Z.shiftr (size + SEGMENT_STEP - 1) SEGMENT_LOG2 - 1.

(** [mempool::alloc(uint16_t size)].  The nested call of line 245 uses one
    unit of fuel. *)
Fixpoint alloc (fuel : nat) (size : Z) (st : mempool) : outcome (Z * mempool) :=
  match fuel with
  | O => NoFuel
  | S fuel' =>
      if size >? _max_segment_size st then Ret (nullptr, st) else
      v <- rd (_segment_lookup st) (lookup_index size) ;;
      let sg := wrap8 v in
      if sg >=? _segment_count st then Ret (nullptr, st) else
      p <- rd (_segment_ptr st) sg ;;
      q <- rd (_pool_ptr st) sg ;;
      gm <- rd (_pool_buffer st) q ;;
      if gm =? ALL_ONES then
        if sg <? _segment_count st - 1 then
          next <- rd (_segment_sizes st) (sg + 1) ;;
          alloc fuel' next st
        else Ret (nullptr, st)
      else
        c <- __builtin_ctz (not32 gm) ;;
        let pool_index := wrap8 c in
        cc <- rd (_cell_count st) sg ;;
        if pool_index >=? groups cc then Ret (nullptr, st) else
        cm <- rd (_pool_buffer st) (q + (pool_index + 1)) ;;
        c <- __builtin_ctz (not32 cm) ;;
        let cell_index := wrap8 c in
        a <- wr (_pool_buffer st) (q + (pool_index + 1)) (bitSet cm cell_index) ;;
        let st := with_pool_buffer a st in
        cm <- rd (_pool_buffer st) (q + (pool_index + 1)) ;;
        st <- (if cm =? ALL_ONES then
                 gm <- rd (_pool_buffer st) q ;;
                 a <- wr (_pool_buffer st) q (bitSet gm pool_index) ;;
                 Ret (with_pool_buffer a st)
               else Ret st) ;;
        p <- rd (_segment_ptr st) sg ;;
        sz <- rd (_segment_sizes st) sg ;;
        Ret (p + (pool_index * 32 + cell_index) * sz, st)
  end.

(** The binary search of [release], lines 284-292, on the [uint8_t]
    variables [l], [r] and the [int8_t] variable [sg]. *)
Fixpoint release_search (fuel : nat) (ptr : Z) (segment_ptr : block (list Z))
    (l r sg : Z) : outcome Z :=
  if l <=? r then
    match fuel with
    | O => NoFuel
    | S fuel' =>
        let m := wrap8 (Z.shiftr (l + r) 1) in
        v <- rd segment_ptr m ;;
        if ptr <? v
        then release_search fuel' ptr segment_ptr l (wrap8 (m - 1)) sg
        else release_search fuel' ptr segment_ptr (wrap8 (m + 1)) r (to_int8 m)
    end
  else Ret sg.

(** Lines 299-306 of [release]: the cell index recovered from an offset
    into pool [sg], stored in the [uint8_t] variable [cellIndex]. *)
Definition release_cell_index (st : mempool) (sg offset : Z) : outcome Z :=
  sz <- rd (_segment_sizes st) sg ;;
  sz' <- rd (_segment_sizes st) sg ;;
  if negb (Z.land sz (sz' - 1) =? 0) then
    mg <- rd (_magic_number st) sg ;;
    Ret (wrap8 (Z.shiftr (wrap32 (Z.shiftr offset 2 * mg)) 16))
  else
    sh <- rd (_segment_shift st) sg ;;
    Ret (wrap8 (Z.shiftr offset sh)).

(** [mempool::release(uint8_t* ptr)].  The search runs on [uint8_t]
    bounds, so 256 rounds are given to it. *)
Definition release (ptr : Z) (st : mempool) : outcome mempool :=
  if negb (_initialized st) then Ret st else
  if ptr =? nullptr then Ret st else
  b <- match _buffer st with
       | Live b => Ret b
       | Null => Ret nullptr
       | Dangling => Undef
       end ;;
  if (ptr <? b) || (ptr >=? b + _buffer_size st) then Ret st else
  sg <- release_search 256 ptr (_segment_ptr st) 0
          (wrap8 (_segment_count st - 1)) (-1) ;;
  if sg =? -1 then Ret st else
  base <- rd (_segment_ptr st) sg ;;
  let offset := wrap16 (ptr - base) in
  cellIndex <- release_cell_index st sg offset ;;
  let poolIndex := wrap8 (Z.shiftr cellIndex 5) in
  let bitIndex := wrap8 (Z.land cellIndex 31) in
  pp <- rd (_pool_ptr st) sg ;;
  gm <- rd (_pool_buffer st) pp ;;
  a <- wr (_pool_buffer st) pp (bitClear gm poolIndex) ;;
  let st := with_pool_buffer a st in
  cm <- rd (_pool_buffer st) (pp + (poolIndex + 1)) ;;
  a <- wr (_pool_buffer st) (pp + (poolIndex + 1)) (bitClear cm bitIndex) ;;
  Ret (with_pool_buffer a st).

(** The typed forms of [mempool.tpp], for a type of [sizeof_T] bytes. *)
Definition alloc_T (sizeof_T : Z) (fuel : nat) (count : Z) (st : mempool)
    : outcome (Z * mempool) :=
  alloc fuel (wrap16 (sizeof_T * count)) st.

Definition release_T (ptr : Z) (st : mempool) : outcome mempool :=
  if negb (_initialized st) || (ptr =? nullptr) then Ret st
  else release ptr st.


(** ** Runs of consecutive calls *)

(** [n] calls [alloc(size)] in a row; the pointers in call order. *)
Fixpoint alloc_n (n : nat) (fuel : nat) (size : Z) (st : mempool)
    : outcome (list Z * mempool) :=
  match n with
  | O => Ret ([], st)
  | S n' =>
      r <- alloc fuel size st ;;
      r' <- alloc_n n' fuel size (snd r) ;;
      Ret (fst r :: fst r', snd r')
  end.

(** [p = alloc(size); release(p);] *)
Definition alloc_release (fuel : nat) (size : Z) (st : mempool)
    : outcome mempool :=
  r <- alloc fuel size st ;; release (fst r) (snd r).

(** ** Observations on a state *)

(** The group mask of pool [sg], word [g] of its cell masks, and the bit of
    cell [b]. *)
Definition group_mask (st : mempool) (sg : Z) : outcome Z :=
  q <- rd (_pool_ptr st) sg ;; rd (_pool_buffer st) q.

Definition cell_mask (st : mempool) (sg g : Z) : outcome Z :=
  q <- rd (_pool_ptr st) sg ;; rd (_pool_buffer st) (q + (g + 1)).

Definition cell_bit (st : mempool) (sg b : Z) : outcome bool :=
  w <- cell_mask st sg (b / 32) ;; Ret (Z.testbit w (b mod 32)).

(** The AND of the 32 bits of a word. *)
Definition and_bits (w : Z) : bool :=
  forallb (fun i => Z.testbit w (Z.of_nat i)) (seq 0 32).

(** The free cells of pool [sg]: the indices from [i], [n] of them, whose
    cell bit is 0. *)
Fixpoint free_from (st : mempool) (sg : Z) (n : nat) (i : Z)
    : outcome (list Z) :=
  match n with
  | O => Ret []
  | S n' =>
      b <- cell_bit st sg i ;;
      r <- free_from st sg n' (i + 1) ;;
      Ret (if b then r else i :: r)
  end.

Definition free_cells (st : mempool) (sg : Z) : outcome (list Z) :=
  cc <- rd (_cell_count st) sg ;; free_from st sg (Z.to_nat cc) 0.

(** The bookkeeping invariant of pool [sg]: group bit [g] is the AND of
    cell-mask word [g] for every group of the pool, the group bits past
    the last group are 1, and so are the cell bits past the last cell. *)
Definition pool_bitmap_ok (st : mempool) (sg : Z) : Prop :=
  exists cc gm,
    rd (_cell_count st) sg = Ret cc /\
    group_mask st sg = Ret gm /\
    (forall g, 0 <= g < groups cc -> g < 32 ->
       exists w, cell_mask st sg g = Ret w /\ Z.testbit gm g = and_bits w) /\
    (forall g, groups cc <= g < 32 -> Z.testbit gm g = true) /\
    (forall b, cc <= b < 32 * groups cc -> cell_bit st sg b = Ret true).

Definition bitmaps_ok (st : mempool) : Prop :=
  forall sg, 0 <= sg < _segment_count st -> pool_bitmap_ok st sg.

(** The stored sizes increase strictly with the index. *)
Definition strictly_increasing (l : list Z) : Prop :=
  forall (i j : nat) (x y : Z),
    l !! i = Some x -> l !! j = Some y -> (i < j)%nat -> x < y.

Definition sizes_increasing (st : mempool) : Prop :=
  exists szs, _segment_sizes st = Live szs /\ strictly_increasing szs.

(** ** Arguments of [begin] *)

(** The ranges of the two fields of a descriptor. *)
Definition segment_wf (s : segment.t) : Prop :=
  0 <= segment.count s < 65536 /\ 0 <= segment.size s < 256.

(** A descriptor [begin] places without shifting a mask by 32 or more:
    1 to 16 units of 4 bytes, at most 31 groups. *)
Definition segment_ok (s : segment.t) : Prop :=
  1 <= segment.size s <= 16 /\ 0 <= segment.count s <= 992.

(** A descriptor that in addition has a cell, as the contract of [begin]
    asks. *)
Definition segment_valid (s : segment.t) : Prop :=
  1 <= segment.size s <= 16 /\ 1 <= segment.count s <= 992.

(** Every [new] succeeds and the arena is not at the null address. *)
Definition heap_ok (h : heap) : Prop :=
  oom_at h = None /\ 0 < arena_addr h.

(** A pointer to the first byte of a cell of some pool. *)
Definition cell_pointer (st : mempool) (ptr : Z) : Prop :=
  exists sg i base sz cc,
    0 <= sg < _segment_count st /\
    rd (_segment_ptr st) sg = Ret base /\
    rd (_segment_sizes st) sg = Ret sz /\
    rd (_cell_count st) sg = Ret cc /\
    0 <= i < cc /\ ptr = base + i * sz.

(** The states of an allocator in use: [begin] on a fresh object with
    valid arguments, then any calls of [alloc] and of [release] on cell
    pointers. *)
Inductive reachable : mempool -> Prop :=
| reach_begin h segs count st :
    heap_ok h -> 1 <= count <= 64 -> Z.of_nat (length segs) = count ->
    Forall segment_valid segs ->
    begin h segs count new_mempool = Ret (true, st) ->
    reachable st
| reach_alloc fuel size p st st' :
    reachable st -> 0 <= size < 65536 ->
    alloc fuel size st = Ret (p, st') ->
    reachable st'
| reach_release ptr st st' :
    reachable st -> cell_pointer st ptr ->
    release ptr st = Ret st' ->
    reachable st'.

(** ** The layout [begin] builds *)

(** A value of a [uint32_t]. *)
Definition word (x : Z) : Prop := 0 <= x < 4294967296.

Definition sumZ (l : list Z) : Z := foldr Z.add 0 l.

(** A placed pool is a pair of its resolved cell size and its cell count;
    its bytes in the arena and its words in the bitmap buffer. *)
Definition pool_bytes (p : Z * Z) : Z := fst p * snd p.
Definition pool_words (p : Z * Z) : Z := groups (snd p) + 1.

(** Where pool [i] starts in the arena and in the bitmap buffer, and the
    arrays [_segment_ptr] and [_pool_ptr] made of these. *)
Definition seg_off (pools : list (Z * Z)) (i : nat) : Z :=
  sumZ (pool_bytes <$> take i pools).

Definition pool_off (pools : list (Z * Z)) (i : nat) : Z :=
  sumZ (pool_words <$> take i pools).

Definition seg_ptrs (base : Z) (pools : list (Z * Z)) : list Z :=
  (fun i => base + seg_off pools i) <$> seq 0 (length pools).

Definition pool_ptrs (pools : list (Z * Z)) : list Z :=
  (fun i => pool_off pools i) <$> seq 0 (length pools).

(** [_lookup_segment] on a list of sizes, counting from index [i]. *)
Fixpoint first_fit (szs : list Z) (i size : Z) : Z :=
  match szs with
  | [] => -1
  | s :: rest => if s >=? size then i else first_fit rest (i + 1) size
  end.

(** [_segment_sizes[count - 1]], and the table [_segment_lookup]. *)
Definition max_of (szs : list Z) : Z := default 0 (last szs).

Definition lookup_table (szs : list Z) : list Z :=
  (fun j => first_fit szs 0 (SEGMENT_STEP * (Z.of_nat j + 1)))
    <$> seq 0 (Z.to_nat (max_of szs / SEGMENT_STEP)).

(** The entries of [_magic_number] and [_segment_shift] for a cell size. *)
Definition magic_of (sz : Z) : Z :=
  if Z.land sz (sz - 1) =? 0 then 1
  else (65536 + Z.shiftr sz 2 - 1) / Z.shiftr sz 2.

Definition shift_of (sz : Z) : Z :=
  if Z.land sz (sz - 1) =? 0 then Z.log2 sz else 16.

(** The state of an initialized allocator with the given arena address,
    pools and bitmap words. *)
Definition layout_state (base : Z) (pools : list (Z * Z)) (pb : list Z)
    : mempool :=
  {| _initialized := true;
     _buffer := Live base;
     _buffer_size := sumZ (pool_bytes <$> pools);
     _pool_size := sumZ (pool_words <$> pools);
     _pool_buffer := Live pb;
     _pool_ptr := Live (pool_ptrs pools);
     _segment_ptr := Live (seg_ptrs base pools);
     _max_segment_size := max_of (fst <$> pools);
     _segment_sizes := Live (fst <$> pools);
     _cell_count := Live (snd <$> pools);
     _magic_number := Live (magic_of <$> (fst <$> pools));
     _segment_shift := Live (shift_of <$> (fst <$> pools));
     _segment_count := Z.of_nat (length pools);
     _segment_lookup := Live (lookup_table (fst <$> pools));
     _segment_lookup_count := max_of (fst <$> pools) / SEGMENT_STEP |}.

(** The state of [begin] after the placement loop, while its four later
    loops fill the arrays [pb], [pp], [sp], [mg], [sh] and [lk]. *)
Definition fin_state (base bsz psz mx lkc : Z) (pools : list (Z * Z))
    (pb pp sp mg sh lk : list Z) : mempool :=
  Mempool true (Live base) bsz psz (Live pb) (Live pp) (Live sp) mx
    (Live (fst <$> pools)) (Live (snd <$> pools)) (Live mg) (Live sh)
    (Z.of_nat (length pools)) (Live lk) lkc.

(** [_get_next_segment] on the list of descriptors. *)
Fixpoint next_from (arr : list segment.t) (i current find ret : Z) : Z :=
  match arr with
  | [] => ret
  | s :: rest =>
      if (segment.size s >? current) && (segment.size s <? find)
      then next_from rest (i + 1) current (segment.size s) i
      else next_from rest (i + 1) current find ret
  end.

Definition next_index (segs : list segment.t) (current : Z) : Z :=
  next_from segs 0 current (wrap16 (-1)) 0.

(** [segs[i]], for an index inside the array. *)
Definition seg_at (segs : list segment.t) (i : Z) : segment.t :=
  default (segment.mk 0 0) (segs !! Z.to_nat i).

(** The pools the placement loop of [begin] stores in [n] rounds. *)
Fixpoint place (n : nat) (segs : list segment.t) (current : Z)
    : list (Z * Z) :=
  match n with
  | O => []
  | S n' =>
      let sx := seg_at segs (next_index segs current) in
      (wrap16 (segment.size sx * SEGMENT_STEP), segment.count sx)
        :: place n' segs (segment.size sx)
  end.

(** Whether [n] rounds of the loop, from descriptor [i] on, pass both
    checks. *)
Fixpoint place_passes (n : nat) (i : Z) (segs : list segment.t)
    (current : Z) : bool :=
  match n with
  | O => true
  | S n' =>
      let sx := seg_at segs (next_index segs current) in
      negb (segment.size (seg_at segs i) =? 0)
      && negb (wrap16 (segment.size sx * SEGMENT_STEP) >? 64)
      && place_passes n' (i + 1) segs (segment.size sx)
  end.

(** The number of descriptors larger than [c]. *)
Fixpoint above (c : Z) (segs : list segment.t) : Z :=
  match segs with
  | [] => 0
  | s :: rest => (if c <? segment.size s then 1 else 0) + above c rest
  end.

(** The running totals of the placement loop. *)
Fixpoint acc_bytes (b : Z) (pools : list (Z * Z)) : Z :=
  match pools with
  | [] => b
  | p :: rest => acc_bytes (wrap32 (b + fst p * snd p)) rest
  end.

Fixpoint acc_words (w : Z) (pools : list (Z * Z)) : Z :=
  match pools with
  | [] => w
  | p :: rest => acc_words (wrap16 (wrap16 (w + groups (snd p)) + 1)) rest
  end.

(** The bitmap words of a pool of [cc] cells after [begin]. *)
Definition init_mask (c : Z) : Z :=
  if c =? 0 then 0 else wrap32 (Z.shiftl ALL_ONES c).

Definition init_chunk (cc : Z) : list Z :=
  <[Z.to_nat (groups cc) := init_mask (cc mod 32)]>
    (<[0%nat := init_mask (groups cc)]>
       (replicate (Z.to_nat (groups cc + 1)) 0)).

(** ** The bitmap of one pool *)

(** A chunk is the group mask of a pool followed by its cell masks; the
    bit of cell [b]. *)
Definition chunk_used (ch : list Z) (b : Z) : bool :=
  match ch !! S (Z.to_nat (b / 32)) with
  | Some w => Z.testbit w (b mod 32)
  | None => true
  end.

(** Cell-mask word [g] is all ones. *)
Definition chunk_full (ch : list Z) (g : Z) : bool :=
  match ch !! S (Z.to_nat g) with
  | Some w => w =? ALL_ONES
  | None => true
  end.

(** The bookkeeping invariant on the chunk of a pool of [cc] cells. *)
Record chunk_ok (cc : Z) (ch : list Z) : Prop := {
  ck_length : Z.of_nat (length ch) = groups cc + 1;
  ck_word : Forall word ch;
  ck_group : forall g, 0 <= g < 32 ->
    Z.testbit (default 0 (ch !! 0%nat)) g = chunk_full ch g;
  ck_pad : forall b, cc <= b < 32 * groups cc -> chunk_used ch b = true
}.

(** A pool placed from a valid descriptor. *)
Definition pool_valid (p : Z * Z) : Prop :=
  (exists u, 1 <= u <= 16 /\ fst p = 4 * u) /\ 1 <= snd p <= 992.

(** A pool as [begin] accepts it: the cell count may be 0. *)
Definition pool_placed (p : Z * Z) : Prop :=
  (exists u, 1 <= u <= 16 /\ fst p = 4 * u) /\ 0 <= snd p <= 992.

(** An array whose first [k] of [n] elements are written. *)
Definition filled (f : nat -> Z) (k n : nat) : list Z :=
  (f <$> seq 0 k) ++ replicate (n - k) 0.

(** The position of chunk [i] in the concatenation of the chunks. *)
Definition chunk_at (chunks : list (list Z)) (i : nat) : nat :=
  length (concat (take i chunks)).

(** What [alloc] and [release] do to the chunk of a pool: cell [b0] of
    group [g0] is taken, cell [j] is given back. *)
Definition chunk_take (ch : list Z) (g0 b0 : Z) : list Z :=
  let w' := bitSet (default 0 (ch !! S (Z.to_nat g0))) b0 in
  let ch1 := <[S (Z.to_nat g0) := w']> ch in
  if w' =? ALL_ONES
  then <[0%nat := bitSet (default 0 (ch !! 0%nat)) g0]> ch1
  else ch1.

Definition chunk_give (ch : list Z) (j : Z) : list Z :=
  let ch1 := <[0%nat := bitClear (default 0 (ch !! 0%nat)) (j / 32)]> ch in
  <[S (Z.to_nat (j / 32)) :=
      bitClear (default 0 (ch1 !! S (Z.to_nat (j / 32)))) (j mod 32)]> ch1.

(** Every cell of the pool is in use. *)
Definition chunk_exhausted (cc : Z) (ch : list Z) : Prop :=
  forall b, 0 <= b < cc -> chunk_used ch b = true.

(** The side conditions of [Inv], on the parts of a layout. *)
Definition layout_ok (base : Z) (pools : list (Z * Z))
    (chunks : list (list Z)) : Prop :=
  0 < base /\
  (1 <= length pools <= 64)%nat /\
  Forall pool_valid pools /\
  Forall2 (fun p ch => chunk_ok (snd p) ch) pools chunks.

(** The invariant of a state in use. *)
Definition Inv (st : mempool) : Prop :=
  exists base pools chunks,
    st = layout_state base pools (concat chunks) /\
    layout_ok base pools chunks.

(** The segment index [alloc] reads from the lookup table for [size]. *)
Definition resolve (szs : list Z) (size : Z) : Z :=
  first_fit szs 0 (SEGMENT_STEP * (lookup_index size + 1)).

(** The cell index [release] recovers from an offset into a pool of cell
    size [sz], before the conversion to [uint8_t]. *)
Definition recover (sz offset : Z) : Z :=
  if negb (Z.land sz (sz - 1) =? 0)
  then Z.shiftr (wrap32 (Z.shiftr offset 2 * magic_of sz)) 16
  else Z.shiftr offset (shift_of sz).

(** The cells in use are exactly the first [k]. *)
Definition used_below (cc k : Z) (ch : list Z) : Prop :=
  forall b, 0 <= b < cc -> chunk_used ch b = (b <? k).

(** The addresses of [n] consecutive cells of size [sz], from cell [k]. *)
Fixpoint cell_addrs (base sz k : Z) (n : nat) : list Z :=
  match n with
  | O => []
  | S n' => (base + k * sz) :: cell_addrs base sz (k + 1) n'
  end.

(** The integers [a], [a + 1], ..., [n] of them. *)
Definition range (a : Z) (n : nat) : list Z := (fun k => a + Z.of_nat k) <$> seq 0 n.

(** ** The concrete scenario of the specification *)

(** Segments [{count 4, size 1}] and [{count 2, size 4}]: four cells of 4
    bytes and two cells of 16 bytes, with the arena at address 1000. *)
Definition scenario_heap : heap := Heap None 1000.

Definition scenario_segs : list segment.t := [mk_segment 4 1; mk_segment 2 4].

Definition scenario_state : mempool :=
  layout_state 1000 [(4, 4); (16, 2)] (concat [init_chunk 4; init_chunk 2]).

(** The scenario after four calls [alloc(4)]: the pool of 4-byte cells is
    exhausted. *)
Definition scenario_full : mempool :=
  layout_state 1000 [(4, 4); (16, 2)]
    [ALL_ONES; ALL_ONES; 4294967294; 4294967292].

(** ** Initialized allocators *)

(** The length of an array that is allocated. *)
Definition block_len {A : Type} (b : block (list A)) : option nat :=
  match b with
  | Live l => Some (length l)
  | _ => None
  end.

(** The members that [begin] computes from the descriptor sizes alone,
    and the length of the array of segment pointers. *)
Definition shape (st : mempool)
    : block (list Z) * Z * Z * block (list Z) * Z * option nat :=
  (_segment_sizes st, _segment_count st, _max_segment_size st,
   _segment_lookup st, _segment_lookup_count st,
   block_len (_segment_ptr st)).

(** A stored cell size: 1 to 16 units of 4 bytes. *)
Definition cell_size (s : Z) : Prop := exists u, 1 <= u <= 16 /\ s = 4 * u.

(** The shape of an initialized allocator: the stored sizes [szs], their
    number, the last of them, the lookup table built from them, and one
    segment pointer for each. *)
Definition Sized (st : mempool) : Prop :=
  exists szs,
    szs <> [] /\ (length szs <= 64)%nat /\ Forall cell_size szs /\
    shape st
    = (Live szs, Z.of_nat (length szs), max_of szs,
       Live (lookup_table szs), max_of szs / SEGMENT_STEP,
       Some (length szs)).

(** The states of an initialized allocator: a [begin] that returned true
    on a fresh object, for any descriptors, then any calls of [alloc] and
    [release] that returned. *)
Inductive initialized : mempool -> Prop :=
| init_begin h segs count st :
    heap_ok h -> Z.of_nat (length segs) = count -> Forall segment_wf segs ->
    begin h segs count new_mempool = Ret (true, st) ->
    initialized st
| init_alloc fuel size p st st' :
    initialized st -> alloc fuel size st = Ret (p, st') -> initialized st'
| init_release ptr st st' :
    initialized st -> release ptr st = Ret st' -> initialized st'.

(** ** The destructor and the printing functions *)

(** [mempool::~mempool()] calls [clean()]. *)
Definition destroy (st : mempool) : outcome mempool := clean st.

(** What a printing function sends to [Serial]: [Serial.print(v, f)] for
    a number [v] in format [f], [Serial.print(' ')] and
    [Serial.println()]. *)
Inductive token : Type :=
| PrintNum (v f : Z)
| PrintSpace
| PrintLn.

(** The body of the loops of [print_pool] and [print_segment_lookup]. *)
Definition print_body (arr : block (list Z)) (f : Z) (i : Z)
    (out : list token) : outcome (list token) :=
  v <- rd arr i ;; Ret (out ++ [PrintNum v f; PrintSpace]).

(** [mempool::print_pool(uint8_t f)]; [serial] is the value of
    [(bool)Serial]. *)
Definition print_pool (serial : bool) (f : Z) (st : mempool)
    : outcome (list token) :=
  if negb serial then Ret [] else
  out <- for_loop (Z.to_nat (_pool_size st)) 0
           (print_body (_pool_buffer st) f) [] ;;
  Ret (out ++ [PrintLn]).

(** [mempool::print_segment_lookup(uint8_t f)]. *)
Definition print_segment_lookup (serial : bool) (f : Z) (st : mempool)
    : outcome (list token) :=
  if negb serial then Ret [] else
  out <- for_loop (Z.to_nat (_segment_lookup_count st)) 0
           (print_body (_segment_lookup st) f) [] ;;
  Ret (out ++ [PrintLn]).

(** ** Cells of an allocator *)

(** Cell [i] of segment [sg] has size [sz] and starts at [ptr]. *)
Definition cell_at (st : mempool) (sg i sz ptr : Z) : Prop :=
  0 <= sg < _segment_count st /\
  exists base cc,
    rd (_segment_ptr st) sg = Ret base /\
    rd (_segment_sizes st) sg = Ret sz /\
    rd (_cell_count st) sg = Ret cc /\
    0 <= i < cc /\ ptr = base + i * sz.

(** No pool has more than 256 cells. *)
Definition small_pools (st : mempool) : Prop :=
  forall sg cc, rd (_cell_count st) sg = Ret cc -> cc <= 256.

(** What is printed for an array with the elements [l]. *)
Definition printed (l : list Z) (f : Z) : list token :=
  concat ((fun v => [PrintNum v f; PrintSpace]) <$> l) ++ [PrintLn].

(** * Lemmas on the embedding *)

(** ** Bits of 32-bit words *)

Lemma ALL_ONES_ones : ALL_ONES = Z.ones 32.
Proof. reflexivity. Qed.

Lemma testbit_ALL_ONES i : 0 <= i -> Z.testbit ALL_ONES i = (i <? 32).
Proof.
  intros Hi. rewrite ALL_ONES_ones, Z.testbit_ones by lia.
  destruct (Z.leb_spec 0 i); [reflexivity | lia].
Qed.

Lemma word_high x i : word x -> 32 <= i -> Z.testbit x i = false.
Proof.
  intros [H0 H1] Hi.
  rewrite <- (Z.mod_small x (2 ^ 32)) by (change (2 ^ 32) with 4294967296; lia).
  apply Z.mod_pow2_bits_high. lia.
Qed.

Lemma word_of_bits x :
  0 <= x -> (forall i, 32 <= i -> Z.testbit x i = false) -> word x.
Proof.
  intros H0 Hhi.
  assert (E : x mod 2 ^ 32 = x).
  { apply Z.bits_inj'. intros i Hi. rewrite Z.testbit_mod_pow2 by lia.
    destruct (Z.ltb_spec i 32); simpl; [reflexivity |].
    symmetry. apply Hhi. lia. }
  unfold word. rewrite <- E. change 4294967296 with (2 ^ 32).
  apply Z.mod_pos_bound. lia.
Qed.

Lemma word_ALL_ONES : word ALL_ONES.
Proof. unfold word, ALL_ONES. lia. Qed.

Lemma word_eq_ones x :
  word x -> (forall i, 0 <= i < 32 -> Z.testbit x i = true) -> x = ALL_ONES.
Proof.
  intros Hw Hb. apply Z.bits_inj'. intros i Hi.
  rewrite testbit_ALL_ONES by lia.
  destruct (Z.ltb_spec i 32).
  - apply Hb. lia.
  - apply word_high; [assumption | lia].
Qed.

Lemma testbit_not32 x i :
  0 <= i < 32 -> Z.testbit (not32 x) i = negb (Z.testbit x i).
Proof.
  intros Hi. unfold not32. rewrite Z.lxor_spec, testbit_ALL_ONES by lia.
  destruct (Z.ltb_spec i 32); [| lia]. apply xorb_true_r.
Qed.

Lemma word_not32 x : word x -> word (not32 x).
Proof.
  intros Hw. apply word_of_bits.
  - unfold not32. apply Z.lxor_nonneg. unfold word, ALL_ONES in *. lia.
  - intros i Hi. unfold not32. rewrite Z.lxor_spec, testbit_ALL_ONES by lia.
    rewrite (word_high x i Hw Hi). destruct (Z.ltb_spec i 32); [lia | reflexivity].
Qed.

Lemma testbit_bitSet v b i :
  0 <= b -> 0 <= i -> Z.testbit (bitSet v b) i = (i =? b) || Z.testbit v i.
Proof.
  intros Hb Hi. unfold bitSet. rewrite Z.lor_spec, Z.shiftl_spec by lia.
  destruct (Z.eqb_spec i b) as [-> | Hne].
  - rewrite Z.sub_diag. simpl. apply orb_true_r.
  - simpl. destruct (Z.ltb_spec i b).
    + rewrite (Z.testbit_neg_r 1) by lia. apply orb_false_r.
    + replace (Z.testbit 1 (i - b)) with false; [apply orb_false_r |].
      symmetry. apply (Z.bits_above_log2 1); simpl; lia.
Qed.

Lemma word_bitSet v b : word v -> 0 <= b < 32 -> word (bitSet v b).
Proof.
  intros Hw Hb. apply word_of_bits.
  - unfold bitSet. apply Z.lor_nonneg. split; [unfold word in Hw; lia |].
    apply Z.shiftl_nonneg. lia.
  - intros i Hi. rewrite testbit_bitSet by lia.
    rewrite (word_high v i Hw Hi). destruct (Z.eqb_spec i b); [lia | reflexivity].
Qed.

Lemma testbit_bitClear v b i :
  0 <= b < 32 -> 0 <= i < 32 ->
  Z.testbit (bitClear v b) i = Z.testbit v i && negb (i =? b).
Proof.
  intros Hb Hi. unfold bitClear. rewrite Z.land_spec, testbit_not32 by lia.
  rewrite Z.shiftl_spec by lia. f_equal.
  destruct (Z.eqb_spec i b) as [-> | Hne].
  - rewrite Z.sub_diag. reflexivity.
  - simpl. destruct (Z.ltb_spec i b).
    + rewrite (Z.testbit_neg_r 1) by lia. reflexivity.
    + replace (Z.testbit 1 (i - b)) with false; [reflexivity |].
      symmetry. apply (Z.bits_above_log2 1); simpl; lia.
Qed.

Lemma word_bitClear v b : word v -> word (bitClear v b).
Proof.
  intros Hw. apply word_of_bits.
  - unfold bitClear. apply Z.land_nonneg. left. unfold word in Hw. lia.
  - intros i Hi. unfold bitClear. rewrite Z.land_spec, (word_high v i Hw Hi).
    reflexivity.
Qed.

Lemma ctz_from_spec n : forall i x,
  0 <= i ->
  match ctz_from n i x with
  | Ret j => i <= j < i + Z.of_nat n /\ Z.testbit x j = true /\
             (forall k, i <= k < j -> Z.testbit x k = false)
  | Undef => forall k, i <= k < i + Z.of_nat n -> Z.testbit x k = false
  | NoFuel => False
  end.
Proof.
  induction n as [| n IH]; intros i x Hi; simpl.
  - intros k Hk. lia.
  - destruct (Z.testbit x i) eqn:E.
    + split; [lia |]. split; [assumption |]. intros k Hk. lia.
    + specialize (IH (i + 1) x ltac:(lia)).
      destruct (ctz_from n (i + 1) x) as [j | |].
      * destruct IH as (Hj & Hb & Hlow). split; [lia |]. split; [assumption |].
        intros k Hk. destruct (Z.eq_dec k i) as [-> | Hne]; [assumption |].
        apply Hlow. lia.
      * intros k Hk. destruct (Z.eq_dec k i) as [-> | Hne]; [assumption |].
        apply IH. lia.
      * assumption.
Qed.

(** The lowest clear bit of a word that is not all ones. *)
Lemma ctz_not32 x :
  word x -> x <> ALL_ONES ->
  exists j, __builtin_ctz (not32 x) = Ret j /\ 0 <= j < 32 /\
            Z.testbit x j = false /\
            (forall k, 0 <= k < j -> Z.testbit x k = true).
Proof.
  intros Hw Hne. unfold __builtin_ctz.
  pose proof (ctz_from_spec 32 0 (not32 x) ltac:(lia)) as H.
  destruct (ctz_from 32 0 (not32 x)) as [j | |].
  - destruct H as (Hj & Hb & Hlow). exists j. split; [reflexivity |].
    split; [lia |]. split.
    + rewrite testbit_not32 in Hb by lia. destruct (Z.testbit x j); [discriminate | reflexivity].
    + intros k Hk. specialize (Hlow k ltac:(lia)).
      rewrite testbit_not32 in Hlow by lia.
      destruct (Z.testbit x k); [reflexivity | discriminate].
  - exfalso. apply Hne. apply word_eq_ones; [assumption |].
    intros i Hi. specialize (H i ltac:(lia)). rewrite testbit_not32 in H by lia.
    destruct (Z.testbit x i); [reflexivity | discriminate].
  - contradiction.
Qed.

Lemma prepare_mask_spec c :
  0 <= c < 32 ->
  exists m, _prepare_mask c = Ret m /\ word m /\
            (forall i, 0 <= i < 32 -> Z.testbit m i = (c <=? i) && negb (c =? 0)).
Proof.
  intros Hc. unfold _prepare_mask.
  destruct (Z.eqb_spec c 0) as [-> | Hne].
  - exists 0. split; [reflexivity |]. split; [unfold word; lia |].
    intros i Hi. rewrite Z.bits_0. rewrite andb_false_r. reflexivity.
  - destruct (Z.leb_spec 32 c); [lia |].
    eexists. split; [reflexivity |]. split.
    + unfold word, wrap32. apply Z.mod_pos_bound. lia.
    + intros i Hi. unfold wrap32. change 4294967296 with (2 ^ 32).
      rewrite Z.mod_pow2_bits_low by lia. rewrite Z.shiftl_spec by lia.
      rewrite andb_true_r.
      destruct (Z.leb_spec c i).
      * rewrite testbit_ALL_ONES by lia. destruct (Z.ltb_spec (i - c) 32); [reflexivity | lia].
      * apply Z.testbit_neg_r. lia.
Qed.

(** ** Arrays *)

Lemma rd_Live {A : Type} (l : list A) (i : nat) (v : A) :
  l !! i = Some v -> rd (Live l) (Z.of_nat i) = Ret v.
Proof.
  intros H. unfold rd. destruct (Z.ltb_spec (Z.of_nat i) 0); [lia |].
  rewrite Nat2Z.id, H. reflexivity.
Qed.

Lemma rd_Live_Z {A : Type} (l : list A) (i : Z) (v : A) :
  0 <= i -> l !! Z.to_nat i = Some v -> rd (Live l) i = Ret v.
Proof.
  intros Hi H. rewrite <- (Z2Nat.id i Hi). apply rd_Live. assumption.
Qed.

Lemma wr_Live {A : Type} (l : list A) (i : nat) (v : A) :
  (i < length l)%nat -> wr (Live l) (Z.of_nat i) v = Ret (Live (<[i := v]> l)).
Proof.
  intros H. unfold wr.
  destruct (Z.leb_spec 0 (Z.of_nat i)); [| lia].
  destruct (Z.ltb_spec (Z.of_nat i) (Z.of_nat (length l))); [| lia].
  simpl. rewrite Nat2Z.id. reflexivity.
Qed.

Lemma wr_Live_Z {A : Type} (l : list A) (i : Z) (v : A) :
  0 <= i < Z.of_nat (length l) ->
  wr (Live l) i v = Ret (Live (<[Z.to_nat i := v]> l)).
Proof.
  intros Hi. rewrite <- (Z2Nat.id i) at 1 by lia. apply wr_Live. lia.
Qed.

Lemma rd_middle {A : Type} (pre : list A) x suf i :
  Z.of_nat (length pre) = i -> rd (Live (pre ++ x :: suf)) i = Ret x.
Proof.
  intros <-. apply rd_Live. apply list_lookup_middle. reflexivity.
Qed.

Lemma wr_middle {A : Type} (pre : list A) x suf i v :
  Z.of_nat (length pre) = i ->
  wr (Live (pre ++ x :: suf)) i v = Ret (Live (pre ++ v :: suf)).
Proof.
  intros <-. rewrite wr_Live by (rewrite length_app; simpl; lia).
  rewrite <- (Nat.add_0_r (length pre)), insert_app_r. reflexivity.
Qed.

(** ** Sums and offsets *)

Lemma sumZ_nil : sumZ [] = 0.
Proof. reflexivity. Qed.

Lemma sumZ_cons x l : sumZ (x :: l) = x + sumZ l.
Proof. reflexivity. Qed.

Lemma sumZ_app l1 l2 : sumZ (l1 ++ l2) = sumZ l1 + sumZ l2.
Proof. induction l1 as [| x l1 IH]; simpl; [reflexivity | rewrite IH; lia]. Qed.

Lemma sumZ_nonneg l : Forall (fun x => 0 <= x) l -> 0 <= sumZ l.
Proof. induction 1; simpl; lia. Qed.

Lemma seg_off_S pools i p :
  pools !! i = Some p -> seg_off pools (S i) = seg_off pools i + pool_bytes p.
Proof.
  intros H. unfold seg_off. rewrite (take_S_r _ _ _ H), fmap_app, sumZ_app.
  simpl. lia.
Qed.

Lemma pool_off_S pools i p :
  pools !! i = Some p -> pool_off pools (S i) = pool_off pools i + pool_words p.
Proof.
  intros H. unfold pool_off. rewrite (take_S_r _ _ _ H), fmap_app, sumZ_app.
  simpl. lia.
Qed.

Lemma seg_off_all pools : seg_off pools (length pools) = sumZ (pool_bytes <$> pools).
Proof. unfold seg_off. rewrite firstn_all. reflexivity. Qed.

Lemma pool_off_all pools : pool_off pools (length pools) = sumZ (pool_words <$> pools).
Proof. unfold pool_off. rewrite firstn_all. reflexivity. Qed.

Lemma lookup_seg_ptrs base pools i :
  (i < length pools)%nat ->
  seg_ptrs base pools !! i = Some (base + seg_off pools i).
Proof.
  intros H. unfold seg_ptrs. rewrite list_lookup_fmap.
  rewrite (proj2 (lookup_seq 0 (length pools) i i)); [reflexivity |].
  split; [reflexivity | assumption].
Qed.

Lemma lookup_pool_ptrs pools i :
  (i < length pools)%nat -> pool_ptrs pools !! i = Some (pool_off pools i).
Proof.
  intros H. unfold pool_ptrs. rewrite list_lookup_fmap.
  rewrite (proj2 (lookup_seq 0 (length pools) i i)); [reflexivity |].
  split; [reflexivity | assumption].
Qed.

Lemma length_seg_ptrs base pools : length (seg_ptrs base pools) = length pools.
Proof. unfold seg_ptrs. rewrite length_fmap, length_seq. reflexivity. Qed.

Lemma length_pool_ptrs pools : length (pool_ptrs pools) = length pools.
Proof. unfold pool_ptrs. rewrite length_fmap, length_seq. reflexivity. Qed.

(** ** Chunks inside the bitmap buffer *)

Lemma concat_split (chunks : list (list Z)) i ch :
  chunks !! i = Some ch ->
  concat chunks = concat (take i chunks) ++ ch ++ concat (drop (S i) chunks).
Proof.
  intros H. rewrite <- (take_drop_middle _ _ _ H) at 1.
  rewrite concat_app. reflexivity.
Qed.

Lemma lookup_concat_chunk (chunks : list (list Z)) i ch k :
  chunks !! i = Some ch -> (k < length ch)%nat ->
  concat chunks !! (chunk_at chunks i + k)%nat = ch !! k.
Proof.
  intros H Hk. rewrite (concat_split _ _ _ H). unfold chunk_at.
  rewrite lookup_app_r by lia.
  replace (length (concat (take i chunks)) + k - length (concat (take i chunks)))%nat
    with k by lia.
  apply lookup_app_l. assumption.
Qed.

Lemma insert_concat_chunk (chunks : list (list Z)) i ch k v :
  chunks !! i = Some ch -> (k < length ch)%nat ->
  <[(chunk_at chunks i + k)%nat := v]> (concat chunks)
  = concat (<[i := <[k := v]> ch]> chunks).
Proof.
  intros H Hk.
  assert (Hi : (i < length chunks)%nat) by (eapply lookup_lt_Some; eassumption).
  rewrite (concat_split _ _ _ H) at 1. unfold chunk_at.
  rewrite insert_app_r, insert_app_l by assumption.
  assert (H' : <[i := <[k := v]> ch]> chunks !! i = Some (<[k := v]> ch))
    by (apply list_lookup_insert_eq; assumption).
  rewrite (concat_split _ _ _ H').
  rewrite take_insert_ge by lia. rewrite drop_insert_lt by lia. reflexivity.
Qed.

Lemma chunk_at_insert (chunks : list (list Z)) i j ch ch' :
  chunks !! i = Some ch -> length ch' = length ch ->
  chunk_at (<[i := ch']> chunks) j = chunk_at chunks j.
Proof.
  intros H Hlen. unfold chunk_at.
  destruct (Nat.le_gt_cases j i) as [Hle | Hgt].
  - rewrite take_insert_ge by assumption. reflexivity.
  - assert (Hi : (i < length chunks)%nat) by (eapply lookup_lt_Some; eassumption).
    rewrite <- (take_drop_middle _ _ _ H) at 2.
    rewrite <- (take_drop_middle (<[i := ch']> chunks) i ch')
      by (apply list_lookup_insert_eq; assumption).
    rewrite take_insert_ge by lia. rewrite drop_insert_lt by lia.
    rewrite !take_app, !concat_app, !length_app.
    f_equal.
    destruct (j - length (take i chunks))%nat as [| m] eqn:E.
    + reflexivity.
    + simpl. rewrite !length_app, Hlen. reflexivity.
Qed.

Lemma chunk_at_pool_off pools (chunks : list (list Z)) i :
  Forall2 (fun p ch => Z.of_nat (length ch) = pool_words p) pools chunks ->
  Z.of_nat (chunk_at chunks i) = pool_off pools i.
Proof.
  intros H. revert i. induction H as [| p ch pools chunks Hp H IH]; intros i.
  - unfold chunk_at, pool_off. rewrite !take_nil. reflexivity.
  - destruct i as [| i].
    + reflexivity.
    + unfold chunk_at, pool_off in *. rewrite !firstn_cons, fmap_cons.
      simpl concat. simpl sumZ. rewrite length_app.
      specialize (IH i). lia.
Qed.

Ltac st_red :=
  cbv beta iota zeta delta
    [with_initialized with_buffer with_buffer_size with_pool_size
     with_pool_buffer with_pool_ptr with_segment_ptr with_max_segment_size
     with_segment_sizes with_cell_count with_magic_number
     with_segment_shift with_segment_count with_segment_lookup
     with_segment_lookup_count
     _initialized _buffer _buffer_size _pool_size _pool_buffer _pool_ptr
     _segment_ptr _max_segment_size _segment_sizes _cell_count
     _magic_number _segment_shift _segment_count _segment_lookup
     _segment_lookup_count];
  cbn [bind fst snd is_null negb].

(** ** Loops *)

Lemma for_loop_ind {St : Type} (I : nat -> St -> Prop) (n : nat) (a : Z)
    (body : Z -> St -> outcome St) (s : St) :
  I 0%nat s ->
  (forall k s, (k < n)%nat -> I k s ->
     exists s', body (a + Z.of_nat k) s = Ret s' /\ I (S k) s') ->
  exists s', for_loop n a body s = Ret s' /\ I n s'.
Proof.
  revert I a s. induction n as [| n IH]; intros I a s H0 Hstep.
  - exists s. split; [reflexivity | assumption].
  - destruct (Hstep 0%nat s ltac:(lia) H0) as (s1 & E1 & I1).
    rewrite Z.add_0_r in E1. simpl. rewrite E1. simpl.
    apply (IH (fun k => I (S k)) (a + 1) s1 I1).
    intros k s2 Hk Hs2.
    destruct (Hstep (S k) s2 ltac:(lia) Hs2) as (s3 & E3 & I3).
    exists s3. split; [| assumption].
    rewrite <- E3. f_equal. lia.
Qed.

Lemma rd_seg_at segs i :
  0 <= i < Z.of_nat (length segs) -> rd_seg segs i = Ret (seg_at segs i).
Proof.
  intros Hi. unfold rd_seg, seg_at.
  destruct (Z.ltb_spec i 0); [lia |].
  destruct (lookup_lt_is_Some_2 segs (Z.to_nat i) ltac:(lia)) as [s Hs].
  rewrite Hs. reflexivity.
Qed.

Lemma seg_at_app_r pre s suf :
  seg_at (pre ++ s :: suf) (Z.of_nat (length pre)) = s.
Proof.
  unfold seg_at. rewrite Nat2Z.id, list_lookup_middle by reflexivity. reflexivity.
Qed.

Lemma get_next_loop_pure suf : forall pre current find ret,
  get_next_loop (length suf) (Z.of_nat (length pre)) (pre ++ suf) current find ret
  = Ret (next_from suf (Z.of_nat (length pre)) current find ret).
Proof.
  induction suf as [| s suf IH]; intros pre current find ret.
  - reflexivity.
  - cbn [length get_next_loop next_from].
    rewrite rd_seg_at by (rewrite length_app; simpl; lia).
    cbn [bind]. rewrite seg_at_app_r.
    replace (Z.of_nat (length pre) + 1) with (Z.of_nat (length (pre ++ [s])))
      by (rewrite length_app; simpl; lia).
    replace (pre ++ s :: suf) with ((pre ++ [s]) ++ suf)
      by (rewrite <- app_assoc; reflexivity).
    destruct ((segment.size s >? current) && (segment.size s <? find)); apply IH.
Qed.

Lemma get_next_segment_pure segs count current :
  Z.of_nat (length segs) = count ->
  _get_next_segment segs count current = Ret (next_index segs current).
Proof.
  intros <-. unfold _get_next_segment, next_index. rewrite Nat2Z.id.
  apply (get_next_loop_pure segs []).
Qed.

Lemma next_from_range arr : forall i current find ret hi,
  0 <= i -> 0 <= ret < hi -> i + Z.of_nat (length arr) <= hi ->
  0 <= next_from arr i current find ret < hi.
Proof.
  induction arr as [| s arr IH]; intros i current find ret hi Hi Hret Hhi; simpl.
  - assumption.
  - simpl in Hhi.
    destruct ((segment.size s >? current) && (segment.size s <? find));
      apply IH; lia.
Qed.

Lemma next_index_range segs current :
  segs <> [] -> 0 <= next_index segs current < Z.of_nat (length segs).
Proof.
  intros Hne. unfold next_index. apply next_from_range; [lia | | lia].
  destruct segs; [contradiction | simpl; lia].
Qed.

Lemma lookup_loop_pure suf : forall pre size,
  lookup_loop (length suf) (Z.of_nat (length pre)) (Live (pre ++ suf)) size
  = Ret (first_fit suf (Z.of_nat (length pre)) size).
Proof.
  induction suf as [| s suf IH]; intros pre size.
  - reflexivity.
  - cbn [length lookup_loop first_fit].
    rewrite (rd_Live _ _ s) by (apply list_lookup_middle; reflexivity).
    cbn [bind]. destruct (s >=? size); [reflexivity |].
    replace (Z.of_nat (length pre) + 1) with (Z.of_nat (length (pre ++ [s])))
      by (rewrite length_app; simpl; lia).
    replace (pre ++ s :: suf) with ((pre ++ [s]) ++ suf)
      by (rewrite <- app_assoc; reflexivity).
    apply IH.
Qed.

(** ** The placement loop *)

Lemma begin_place_spec segs count n : forall i current pre_s suf_s pre_c suf_c
    bs ps pp sp mx mg sh lkc,
  Z.of_nat (length segs) = count ->
  Z.of_nat (length pre_s) = i -> length suf_s = n ->
  Z.of_nat (length pre_c) = i -> length suf_c = n ->
  i + Z.of_nat n = count ->
  let st := Mempool true Null bs ps Null (Live pp) (Live sp) mx
              (Live (pre_s ++ suf_s)) (Live (pre_c ++ suf_c))
              (Live mg) (Live sh) count Null lkc in
  let pl := place n segs current in
  (place_passes n i segs current = true ->
   begin_place n i segs count current st
   = Ret (true, Mempool true Null (acc_bytes bs pl) (acc_words ps pl) Null
                  (Live pp) (Live sp) mx
                  (Live (pre_s ++ (fst <$> pl))) (Live (pre_c ++ (snd <$> pl)))
                  (Live mg) (Live sh) count Null lkc)) /\
  (place_passes n i segs current = false ->
   exists st', begin_place n i segs count current st = Ret (false, st') /\
               _initialized st' = true).
Proof.
  induction n as [| n IH];
    intros i current pre_s suf_s pre_c suf_c bs ps pp sp mx mg sh lkc
      Hlen Hps Hss Hpc Hsc Hin st pl.
  - destruct suf_s; [| discriminate]. destruct suf_c; [| discriminate].
    subst st pl. simpl. split; [intros _; reflexivity | discriminate].
  - destruct suf_s as [| s0 suf_s]; [discriminate |].
    destruct suf_c as [| c0 suf_c]; [discriminate |].
    assert (Hne : segs <> []) by (intros ->; simpl in *; lia).
    pose proof (next_index_range segs current Hne) as Hix.
    subst st pl. cbn [begin_place place place_passes].
    rewrite (rd_seg_at segs i) by lia. cbn [bind].
    destruct (segment.size (seg_at segs i) =? 0) eqn:E0.
    { cbn [negb andb]. split; [discriminate |]. intros _.
      eexists. split; [reflexivity | reflexivity]. }
    rewrite (get_next_segment_pure _ _ _ Hlen). cbn [bind].
    rewrite (rd_seg_at segs _) by lia. cbn [bind].
    set (sx := seg_at segs (next_index segs current)).
    st_red.
    rewrite (wr_middle pre_s) by assumption. st_red.
    rewrite (rd_middle pre_s) by assumption. st_red.
    destruct (wrap16 (segment.size sx * SEGMENT_STEP) >? 64) eqn:E1.
    { cbn [negb andb]. split; [discriminate |]. intros _.
      eexists. split; [reflexivity | reflexivity]. }
    cbn [negb andb].
    rewrite (wr_middle pre_c) by assumption. st_red.
    rewrite (rd_middle pre_c) by assumption. st_red.
    replace (pre_s ++ wrap16 (segment.size sx * SEGMENT_STEP) :: suf_s)
      with ((pre_s ++ [wrap16 (segment.size sx * SEGMENT_STEP)]) ++ suf_s)
      by (rewrite <- app_assoc; reflexivity).
    replace (pre_c ++ segment.count sx :: suf_c)
      with ((pre_c ++ [segment.count sx]) ++ suf_c)
      by (rewrite <- app_assoc; reflexivity).
    simpl in Hss, Hsc.
    specialize (IH (i + 1) (segment.size sx)
                  (pre_s ++ [wrap16 (segment.size sx * SEGMENT_STEP)]) suf_s
                  (pre_c ++ [segment.count sx]) suf_c
                  (wrap32 (bs + wrap16 (segment.size sx * SEGMENT_STEP) * segment.count sx))
                  (wrap16 (wrap16 (ps + groups (segment.count sx)) + 1))
                  pp sp mx mg sh lkc Hlen).
    destruct IH as [IHt IHf];
      try (rewrite ?length_app; simpl; lia).
    split.
    + intros Hp. rewrite (IHt Hp). cbn [acc_bytes acc_words fst snd].
      rewrite !fmap_cons, <- !app_assoc. reflexivity.
    + intros Hp. apply IHf. assumption.
Qed.

(** ** Arrays filled from the left *)

Lemma filled_0 f n : filled f 0 n = replicate n 0.
Proof. unfold filled. simpl. rewrite Nat.sub_0_r. reflexivity. Qed.

Lemma filled_all f n : filled f n n = f <$> seq 0 n.
Proof. unfold filled. rewrite Nat.sub_diag. simpl. apply app_nil_r. Qed.

Lemma length_filled f k n : (k <= n)%nat -> length (filled f k n) = n.
Proof.
  intros H. unfold filled.
  rewrite length_app, length_fmap, length_seq, length_replicate. lia.
Qed.

Lemma filled_S f k n :
  (k < n)%nat ->
  filled f k n = (f <$> seq 0 k) ++ 0 :: replicate (n - S k) 0 /\
  filled f (S k) n = (f <$> seq 0 k) ++ f k :: replicate (n - S k) 0.
Proof.
  intros H. unfold filled. split.
  - replace (n - k)%nat with (S (n - S k)) by lia. reflexivity.
  - rewrite seq_S, fmap_app, <- app_assoc. reflexivity.
Qed.

Lemma wr_filled f k n i :
  (k < n)%nat -> Z.of_nat k = i ->
  wr (Live (filled f k n)) i (f k) = Ret (Live (filled f (S k) n)).
Proof.
  intros H Hi. destruct (filled_S f k n H) as [-> ->].
  apply wr_middle. rewrite length_fmap, length_seq. assumption.
Qed.

Lemma rd_filled f k n j i :
  (j < k)%nat -> Z.of_nat j = i -> rd (Live (filled f k n)) i = Ret (f j).
Proof.
  intros H <-. apply rd_Live. unfold filled.
  rewrite lookup_app_l by (rewrite length_fmap, length_seq; assumption).
  rewrite list_lookup_fmap.
  rewrite (proj2 (lookup_seq 0 k j j)); [reflexivity | split; [reflexivity | assumption]].
Qed.

Lemma insert_0_replicate (n : nat) (v : Z) (f : nat -> Z) :
  (0 < n)%nat -> f 0%nat = v -> <[0%nat := v]> (replicate n 0) = filled f 1 n.
Proof.
  intros H <-. destruct n as [| n]; [lia |]. unfold filled. simpl.
  rewrite Nat.sub_0_r. reflexivity.
Qed.

Lemma filled_all_lookup (g : Z -> Z) (l : list Z) :
  filled (fun j => g (default 0 (l !! j))) (length l) (length l) = g <$> l.
Proof.
  rewrite filled_all. apply list_eq. intros i.
  rewrite !list_lookup_fmap.
  destruct (l !! i) as [x |] eqn:E.
  - rewrite (proj2 (lookup_seq 0 (length l) i i)).
    + simpl. rewrite E. reflexivity.
    + split; [reflexivity | eapply lookup_lt_Some; eassumption].
  - destruct (seq 0 (length l) !! i) as [j |] eqn:Ej; [| reflexivity].
    apply lookup_seq in Ej. apply lookup_ge_None in E. lia.
Qed.

Lemma wr_app_mid (A B C : list Z) (q j : Z) (v : Z) :
  Z.of_nat (length A) = q -> 0 <= j < Z.of_nat (length B) ->
  wr (Live (A ++ B ++ C)) (q + j) v = Ret (Live (A ++ <[Z.to_nat j := v]> B ++ C)).
Proof.
  intros Hq Hj. rewrite wr_Live_Z by (rewrite !length_app; lia).
  replace (Z.to_nat (q + j)) with (length A + Z.to_nat j)%nat by lia.
  rewrite insert_app_r, insert_app_l by lia. reflexivity.
Qed.

(** ** Sizes and divisors *)

Lemma size_cases (sz : Z) :
  (exists u, 1 <= u <= 16 /\ sz = 4 * u) ->
  sz = 4 \/ sz = 8 \/ sz = 12 \/ sz = 16 \/ sz = 20 \/ sz = 24 \/ sz = 28 \/
  sz = 32 \/ sz = 36 \/ sz = 40 \/ sz = 44 \/ sz = 48 \/ sz = 52 \/ sz = 56 \/
  sz = 60 \/ sz = 64.
Proof. intros (u & Hu & ->). lia. Qed.

Ltac size_cases H :=
  apply size_cases in H;
  repeat (destruct H as [H | H]; [subst |]); [.. | subst].

Lemma begin_magic_values sz :
  (exists u, 1 <= u <= 16 /\ sz = 4 * u) ->
  (if negb (Z.land sz (sz - 1) =? 0)
   then wrap32 ((65536 + Z.shiftr sz 2 - 1) / Z.shiftr sz 2) = magic_of sz
        /\ shift_of sz = 16
   else magic_of sz = 1 /\ __builtin_ctz sz = Ret (shift_of sz)
        /\ wrap8 (shift_of sz) = shift_of sz).
Proof.
  intros H. size_cases H; vm_compute; repeat split; reflexivity.
Qed.

(** ** The loops after the placement *)

Lemma wrap8_small x : 0 <= x < 256 -> wrap8 x = x.
Proof. intros H. apply Z.mod_small. assumption. Qed.

Lemma wrap16_small x : 0 <= x < 65536 -> wrap16 x = x.
Proof. intros H. apply Z.mod_small. assumption. Qed.

Lemma wrap32_small x : 0 <= x < 4294967296 -> wrap32 x = x.
Proof. intros H. apply Z.mod_small. assumption. Qed.

Lemma groups_range cc : 0 <= cc <= 992 -> 0 <= groups cc <= 31.
Proof. intros H. unfold groups. Z.div_mod_to_equations. lia. Qed.

Lemma pool_words_pos p : pool_placed p -> 1 <= pool_words p <= 32.
Proof.
  intros [_ Hc]. unfold pool_words. pose proof (groups_range _ Hc). lia.
Qed.

Lemma pool_off_mono pools j k :
  Forall pool_placed pools -> (j <= k)%nat -> pool_off pools j <= pool_off pools k.
Proof.
  intros Hp Hjk. induction Hjk as [| k Hjk IH]; [lia |].
  destruct (pools !! k) as [p |] eqn:E.
  - rewrite (pool_off_S _ _ _ E).
    pose proof (pool_words_pos p (proj1 (Forall_lookup _ _) Hp _ _ E)). lia.
  - unfold pool_off in *. apply lookup_ge_None in E.
    rewrite (take_ge pools (S k)) by lia.
    rewrite (take_ge pools k) in IH by lia. exact IH.
Qed.

Lemma length_init_chunk cc :
  0 <= cc <= 992 -> Z.of_nat (length (init_chunk cc)) = groups cc + 1.
Proof.
  intros H. pose proof (groups_range _ H). unfold init_chunk.
  rewrite !length_insert, length_replicate. lia.
Qed.

Lemma prepare_mask_init c :
  0 <= c < 32 -> _prepare_mask c = Ret (init_mask c).
Proof.
  intros H. unfold _prepare_mask, init_mask.
  destruct (c =? 0); [reflexivity |].
  destruct (Z.leb_spec 32 c); [lia | reflexivity].
Qed.

Lemma length_init_chunks pools k :
  Forall pool_placed pools ->
  Z.of_nat (length (concat (init_chunk <$> take k (snd <$> pools))))
  = pool_off pools k.
Proof.
  intros H. revert k. induction H as [| p pools' Hp Hps IH]; intros k.
  - rewrite fmap_nil, take_nil. unfold pool_off. rewrite take_nil. reflexivity.
  - destruct k as [| k]; [reflexivity |].
    rewrite fmap_cons, firstn_cons, fmap_cons. simpl concat.
    rewrite length_app. unfold pool_off. rewrite firstn_cons, fmap_cons.
    simpl sumZ. fold (pool_off pools' k).
    destruct Hp as [_ Hc]. pose proof (length_init_chunk _ Hc).
    specialize (IH k). unfold pool_words. lia.
Qed.

Section Finish.
Variables (base bsz psz mx lkc : Z) (pools : list (Z * Z)).
Hypothesis Hpools : Forall pool_placed pools.
Let szs := fst <$> pools.
Let ccs := snd <$> pools.
Let n := length pools.

Local Abbreviation fin := (fin_state base bsz psz mx lkc pools).

Lemma lookup_segment_fin pb pp sp mg sh lk size :
  _lookup_segment (fin pb pp sp mg sh lk) size = Ret (first_fit szs 0 size).
Proof.
  unfold _lookup_segment, fin_state. fold szs ccs n. st_red. rewrite Nat2Z.id.
  replace n with (length szs) by (unfold szs, n; apply length_fmap).
  apply (lookup_loop_pure szs []).
Qed.

Lemma begin_lookup_loop pb pp sp mg sh :
  0 <= lkc -> lkc * SEGMENT_STEP < 65536 ->
  for_loop (Z.to_nat lkc) 1 begin_lookup_body
    (fin pb pp sp mg sh (replicate (Z.to_nat lkc) 0))
  = Ret (fin pb pp sp mg sh
           ((fun j => first_fit szs 0 (SEGMENT_STEP * (Z.of_nat j + 1)))
              <$> seq 0 (Z.to_nat lkc))).
Proof.
  intros H0 Hhi.
  set (f := fun j : nat => first_fit szs 0 (SEGMENT_STEP * (Z.of_nat j + 1))).
  destruct (for_loop_ind
              (fun k st => st = fin pb pp sp mg sh (filled f k (Z.to_nat lkc)))
              (Z.to_nat lkc) 1 begin_lookup_body
              (fin pb pp sp mg sh (replicate (Z.to_nat lkc) 0)))
    as (s' & E & ->).
  - rewrite filled_0. reflexivity.
  - intros k s Hk ->. unfold begin_lookup_body.
    rewrite lookup_segment_fin. st_red.
    replace (wrap16 ((1 + Z.of_nat k) * SEGMENT_STEP))
      with (SEGMENT_STEP * (Z.of_nat k + 1)).
    2:{ unfold wrap16, SEGMENT_STEP in *. rewrite Z.mod_small by lia. lia. }
    unfold fin_state at 1. fold szs ccs n. st_red.
    change (first_fit szs 0 (SEGMENT_STEP * (Z.of_nat k + 1))) with (f k).
    rewrite wr_filled by lia. st_red.
    eexists. split; reflexivity.
  - rewrite E, filled_all. reflexivity.
Qed.

Lemma lookup_szs k p : pools !! k = Some p -> szs !! k = Some (fst p).
Proof. intros H. unfold szs. rewrite list_lookup_fmap, H. reflexivity. Qed.

Lemma lookup_ccs k p : pools !! k = Some p -> ccs !! k = Some (snd p).
Proof. intros H. unfold ccs. rewrite list_lookup_fmap, H. reflexivity. Qed.

Lemma begin_pointers_loop pb mg sh lk :
  (1 <= n)%nat ->
  for_loop (Z.to_nat (Z.of_nat n - 1)) 0 begin_pointers_body
    (fin pb (<[0%nat := 0]> (replicate n 0))
       (<[0%nat := base]> (replicate n 0)) mg sh lk)
  = Ret (fin pb (pool_ptrs pools) (seg_ptrs base pools) mg sh lk).
Proof.
  intros Hn.
  set (fs := fun i : nat => base + seg_off pools i).
  set (fp := fun i : nat => pool_off pools i).
  destruct (for_loop_ind
              (fun k st => st = fin pb (filled fp (S k) n)
                                  (filled fs (S k) n) mg sh lk)
              (Z.to_nat (Z.of_nat n - 1)) 0 begin_pointers_body
              (fin pb (<[0%nat := 0]> (replicate n 0))
                 (<[0%nat := base]> (replicate n 0)) mg sh lk))
    as (s' & E & ->).
  - rewrite (insert_0_replicate n 0 fp), (insert_0_replicate n base fs);
      try lia; try reflexivity.
    unfold fs, seg_off. simpl. lia.
  - intros k s Hk ->.
    destruct (lookup_lt_is_Some_2 pools k ltac:(fold n; lia)) as [p Hp].
    unfold begin_pointers_body, fin_state. fold szs ccs n. st_red.
    rewrite (rd_filled fs (S k) n k) by lia. st_red.
    rewrite (rd_Live_Z szs _ (fst p)) by (try lia; rewrite Z.add_0_l, Nat2Z.id; apply lookup_szs; assumption).
    st_red.
    rewrite (rd_Live_Z ccs _ (snd p)) by (try lia; rewrite Z.add_0_l, Nat2Z.id; apply lookup_ccs; assumption).
    st_red.
    replace (fs k + fst p * snd p) with (fs (S k))
      by (unfold fs; rewrite (seg_off_S _ _ _ Hp); unfold pool_bytes; lia).
    rewrite (wr_filled fs (S k) n) by lia. st_red.
    rewrite (rd_filled fp (S k) n k) by lia. st_red.
    replace (fp k + groups (snd p) + 1) with (fp (S k))
      by (unfold fp; rewrite (pool_off_S _ _ _ Hp); unfold pool_words; lia).
    rewrite (wr_filled fp (S k) n) by lia. st_red.
    eexists. split; reflexivity.
  - rewrite E. replace (S (Z.to_nat (Z.of_nat n - 1))) with n by lia.
    rewrite !filled_all. reflexivity.
Qed.

Lemma begin_magic_loop pb pp sp lk :
  for_loop (Z.to_nat (Z.of_nat n)) 0 begin_magic_body
    (fin pb pp sp (replicate n 0) (replicate n 0) lk)
  = Ret (fin pb pp sp (magic_of <$> szs) (shift_of <$> szs) lk).
Proof.
  set (fm := fun j : nat => magic_of (default 0 (szs !! j))).
  set (fh := fun j : nat => shift_of (default 0 (szs !! j))).
  destruct (for_loop_ind
              (fun k st => st = fin pb pp sp (filled fm k n) (filled fh k n) lk)
              (Z.to_nat (Z.of_nat n)) 0 begin_magic_body
              (fin pb pp sp (replicate n 0) (replicate n 0) lk))
    as (s' & E & ->).
  - rewrite !filled_0. reflexivity.
  - intros k s Hk ->.
    destruct (lookup_lt_is_Some_2 pools k ltac:(fold n; lia)) as [p Hp].
    pose proof (proj1 (Forall_lookup _ _) Hpools _ _ Hp) as [Hsz _].
    pose proof (begin_magic_values _ Hsz) as Hv.
    unfold begin_magic_body, fin_state. fold szs ccs n. st_red.
    rewrite (rd_Live_Z szs _ (fst p)) by (try lia; rewrite Z.add_0_l, Nat2Z.id; apply lookup_szs; assumption).
    st_red.
    assert (Em : fm k = magic_of (fst p)) by (unfold fm; rewrite (lookup_szs _ _ Hp); reflexivity).
    assert (Eh : fh k = shift_of (fst p)) by (unfold fh; rewrite (lookup_szs _ _ Hp); reflexivity).
    destruct (negb (Z.land (fst p) (fst p - 1) =? 0)).
    + destruct Hv as [Hv1 Hv2]. rewrite Hv1, <- Em.
      rewrite (wr_filled fm k n) by lia. st_red.
      rewrite <- Hv2, <- Eh. rewrite (wr_filled fh k n) by lia. st_red.
      eexists. split; reflexivity.
    + destruct Hv as (Hv1 & Hv2 & Hv3). rewrite <- Hv1, <- Em.
      rewrite (wr_filled fm k n) by lia. st_red.
      rewrite Hv2. st_red. rewrite Hv3, <- Eh.
      rewrite (wr_filled fh k n) by lia. st_red.
      eexists. split; reflexivity.
  - rewrite E, Nat2Z.id.
    replace n with (length szs) by (unfold szs, n; apply length_fmap).
    unfold fm, fh. rewrite !filled_all_lookup. reflexivity.
Qed.

Lemma begin_masks_loop sp mg sh lk :
  psz = sumZ (pool_words <$> pools) ->
  for_loop (Z.to_nat (Z.of_nat n)) 0 begin_masks_body
    (fin (replicate (Z.to_nat psz) 0) (pool_ptrs pools) sp mg sh lk)
  = Ret (fin (concat (init_chunk <$> ccs)) (pool_ptrs pools) sp mg sh lk).
Proof.
  intros Hpsz.
  destruct (for_loop_ind
              (fun k st => st = fin
                 (concat (init_chunk <$> take k ccs)
                  ++ replicate (Z.to_nat (psz - pool_off pools k)) 0)
                 (pool_ptrs pools) sp mg sh lk)
              (Z.to_nat (Z.of_nat n)) 0 begin_masks_body
              (fin (replicate (Z.to_nat psz) 0) (pool_ptrs pools) sp mg sh lk))
    as (s' & E & ->).
  - simpl. unfold pool_off. simpl. rewrite Z.sub_0_r. reflexivity.
  - intros k s Hk ->.
    destruct (lookup_lt_is_Some_2 pools k ltac:(fold n; lia)) as [p Hp].
    pose proof (proj1 (Forall_lookup _ _) Hpools _ _ Hp) as Hpl.
    pose proof Hpl as [_ Hcc].
    pose proof (groups_range _ Hcc) as Hg.
    pose proof (pool_words_pos _ Hpl) as Hw.
    pose proof (pool_off_S _ _ _ Hp) as HS.
    pose proof (pool_off_mono pools (S k) n Hpools ltac:(lia)) as Hle.
    unfold n in Hle. rewrite pool_off_all, <- Hpsz in Hle.
    assert (HlenA : Z.of_nat (length (concat (init_chunk <$> take k ccs)))
                    = pool_off pools k).
    { apply length_init_chunks. assumption. }
    set (A := concat (init_chunk <$> take k ccs)) in *.
    set (R := Z.to_nat (psz - pool_off pools (S k))).
    replace (replicate (Z.to_nat (psz - pool_off pools k)) 0)
      with (replicate (Z.to_nat (groups (snd p) + 1)) 0 ++ replicate R 0).
    2:{ rewrite <- replicate_add. f_equal. unfold R, pool_words in *. lia. }
    unfold begin_masks_body, fin_state. fold szs ccs n. st_red.
    rewrite (rd_Live_Z (pool_ptrs pools) _ (pool_off pools k))
      by (try lia; rewrite Z.add_0_l, Nat2Z.id; apply lookup_pool_ptrs; fold n; lia).
    st_red.
    rewrite (rd_Live_Z ccs _ (snd p)) by (try lia; rewrite Z.add_0_l, Nat2Z.id; apply lookup_ccs; assumption).
    st_red.
    rewrite (wrap8_small (groups (snd p))) by lia.
    rewrite prepare_mask_init by lia. st_red.
    rewrite wr_app_mid by (try assumption; rewrite length_replicate; lia).
    st_red.
    rewrite (wrap8_small (snd p mod 32))
      by (pose proof (Z.mod_pos_bound (snd p) 32); lia).
    rewrite prepare_mask_init by (apply Z.mod_pos_bound; lia). st_red.
    rewrite wr_app_mid
      by (try assumption; rewrite length_insert, length_replicate; lia).
    st_red. eexists. split; [reflexivity |].
    rewrite (take_S_r ccs k (snd p)) by (apply lookup_ccs; assumption).
    rewrite fmap_app, concat_app. simpl. rewrite app_nil_r, <- app_assoc.
    reflexivity.
  - rewrite E, Nat2Z.id. unfold n.
    replace (take (length pools) ccs) with ccs
      by (symmetry; apply take_ge; unfold ccs; rewrite length_fmap; lia).
    rewrite pool_off_all, <- Hpsz, Z.sub_diag. simpl. rewrite app_nil_r.
    reflexivity.
Qed.
End Finish.

(** ** What the placement stores *)

Lemma seg_at_elem segs i :
  0 <= i < Z.of_nat (length segs) -> seg_at segs i ∈ segs.
Proof.
  intros Hi. unfold seg_at.
  destruct (lookup_lt_is_Some_2 segs (Z.to_nat i) ltac:(lia)) as [s Hs].
  rewrite Hs. simpl. eapply list_elem_of_lookup_2. eassumption.
Qed.

Lemma next_seg_elem segs current :
  segs <> [] -> seg_at segs (next_index segs current) ∈ segs.
Proof. intros H. apply seg_at_elem, next_index_range. assumption. Qed.

Lemma length_place n segs current : length (place n segs current) = n.
Proof.
  revert current. induction n as [| n IH]; intros current; simpl;
    [reflexivity | rewrite IH; reflexivity].
Qed.

Lemma place_elem n segs current p :
  segs <> [] -> p ∈ place n segs current ->
  exists s, s ∈ segs /\
    p = (wrap16 (segment.size s * SEGMENT_STEP), segment.count s).
Proof.
  intros Hne. revert current. induction n as [| n IH]; intros current Hp; simpl in Hp.
  - inversion Hp.
  - apply elem_of_cons in Hp as [-> | Hp].
    + eexists. split; [apply next_seg_elem; assumption | reflexivity].
    + eapply IH. eassumption.
Qed.

Lemma place_placed n segs current :
  segs <> [] -> Forall segment_ok segs ->
  Forall pool_placed (place n segs current).
Proof.
  intros Hne Hok. apply Forall_forall. intros p Hp.
  destruct (place_elem _ _ _ _ Hne Hp) as (s & Hs & ->).
  pose proof (proj1 (Forall_forall _ _) Hok s Hs) as [Hsz Hcc].
  split; [| simpl; lia].
  exists (segment.size s). split; [assumption |]. simpl.
  unfold SEGMENT_STEP. rewrite wrap16_small by lia. lia.
Qed.

Lemma place_valid n segs current :
  segs <> [] -> Forall segment_valid segs ->
  Forall pool_valid (place n segs current).
Proof.
  intros Hne Hok. apply Forall_forall. intros p Hp.
  destruct (place_elem _ _ _ _ Hne Hp) as (s & Hs & ->).
  pose proof (proj1 (Forall_forall _ _) Hok s Hs) as [Hsz Hcc].
  split; [| simpl; lia].
  exists (segment.size s). split; [assumption |]. simpl.
  unfold SEGMENT_STEP. rewrite wrap16_small by lia. lia.
Qed.

Lemma place_passes_ok n : forall i segs current,
  Forall segment_ok segs -> 0 <= i ->
  i + Z.of_nat n <= Z.of_nat (length segs) ->
  place_passes n i segs current = true.
Proof.
  induction n as [| n IH]; intros i segs current Hok Hi Hn; simpl; [reflexivity |].
  assert (Hne : segs <> []) by (intros ->; simpl in *; lia).
  pose proof (proj1 (Forall_forall _ _) Hok _ (seg_at_elem segs i ltac:(lia))) as [H1 _].
  pose proof (proj1 (Forall_forall _ _) Hok _ (next_seg_elem segs current Hne)) as [H2 _].
  rewrite IH by (try assumption; lia).
  destruct (Z.eqb_spec (segment.size (seg_at segs i)) 0); [lia |].
  unfold SEGMENT_STEP. rewrite wrap16_small by lia.
  destruct (Z.gtb_spec (segment.size (seg_at segs (next_index segs current)) * 4) 64); [lia |].
  reflexivity.
Qed.

Lemma pool_bytes_range p : pool_placed p -> 0 <= pool_bytes p <= 63488.
Proof. intros [(u & Hu & Hf) Hc]. unfold pool_bytes. rewrite Hf. nia. Qed.

Lemma acc_bytes_sum pools : forall b,
  Forall pool_placed pools -> 0 <= b ->
  b + 63488 * Z.of_nat (length pools) < 4294967296 ->
  acc_bytes b pools = b + sumZ (pool_bytes <$> pools).
Proof.
  induction pools as [| p pools IH]; intros b Hp Hb Hlt;
    cbn [acc_bytes]; rewrite ?fmap_cons, ?fmap_nil, ?sumZ_cons, ?sumZ_nil.
  - lia.
  - inversion Hp as [| ? ? Hp1 Hp2]; subst.
    pose proof (pool_bytes_range _ Hp1) as Hr. unfold pool_bytes in Hr.
    simpl length in Hlt. rewrite Nat2Z.inj_succ in Hlt.
    rewrite wrap32_small by lia. rewrite IH by (try assumption; lia).
    change (pool_bytes p) with (fst p * snd p). lia.
Qed.

Lemma acc_words_sum pools : forall w,
  Forall pool_placed pools -> 0 <= w ->
  w + 32 * Z.of_nat (length pools) < 65536 ->
  acc_words w pools = w + sumZ (pool_words <$> pools).
Proof.
  induction pools as [| p pools IH]; intros w Hp Hw Hlt;
    cbn [acc_words]; rewrite ?fmap_cons, ?fmap_nil, ?sumZ_cons, ?sumZ_nil.
  - lia.
  - inversion Hp as [| ? ? Hp1 Hp2]; subst.
    pose proof (pool_words_pos _ Hp1) as Hr. unfold pool_words in Hr.
    simpl length in Hlt. rewrite Nat2Z.inj_succ in Hlt.
    rewrite (wrap16_small (w + _)) by lia. rewrite wrap16_small by lia.
    rewrite IH by (try assumption; lia).
    change (pool_words p) with (groups (snd p) + 1). lia.
Qed.

Lemma max_of_lookup (szs : list Z) :
  szs <> [] ->
  szs !! Z.to_nat (Z.of_nat (length szs) - 1) = Some (max_of szs).
Proof.
  intros Hne. unfold max_of. rewrite last_lookup.
  replace (Z.to_nat (Z.of_nat (length szs) - 1)) with (Init.Nat.pred (length szs)) by lia.
  destruct (lookup_lt_is_Some_2 szs (Init.Nat.pred (length szs))) as [x Hx].
  - destruct szs; [contradiction | simpl; lia].
  - rewrite Hx. reflexivity.
Qed.

Lemma max_of_placed pools :
  pools <> [] -> Forall pool_placed pools ->
  exists u, 1 <= u <= 16 /\ max_of (fst <$> pools) = 4 * u.
Proof.
  intros Hne Hp.
  assert (Hne' : fst <$> pools <> []) by (destruct pools; [contradiction | discriminate]).
  pose proof (max_of_lookup _ Hne') as H.
  rewrite list_lookup_fmap in H.
  destruct (pools !! _) as [p |] eqn:E; [| discriminate].
  simpl in H. injection H as <-.
  exact (proj1 (proj1 (Forall_lookup _ _) Hp _ _ E)).
Qed.

Lemma new_array_ok h k n :
  oom_at h = None -> new_array h k n = Live (replicate (Z.to_nat n) 0).
Proof. intros H. unfold new_array, new_fails. rewrite H. reflexivity. Qed.

Lemma new_arena_ok h k : oom_at h = None -> new_arena h k = Live (arena_addr h).
Proof. intros H. unfold new_arena, new_fails. rewrite H. reflexivity. Qed.

(** ** [begin] on arguments it accepts *)

Lemma begin_finish_spec h pools :
  heap_ok h -> (1 <= length pools <= 64)%nat -> Forall pool_placed pools ->
  begin_finish h (Z.of_nat (length pools))
    (Mempool true Null (sumZ (pool_bytes <$> pools))
       (sumZ (pool_words <$> pools)) Null
       (Live (replicate (length pools) 0)) (Live (replicate (length pools) 0)) 0
       (Live (fst <$> pools)) (Live (snd <$> pools))
       (Live (replicate (length pools) 0)) (Live (replicate (length pools) 0))
       (Z.of_nat (length pools)) Null 0)
  = Ret (true, layout_state (arena_addr h) pools
                 (concat (init_chunk <$> (snd <$> pools)))).
Proof.
  intros [Hoom Hbase] Hn Hp.
  assert (Hne : pools <> []) by (intros ->; simpl in Hn; lia).
  assert (Hne' : fst <$> pools <> []) by (destruct pools; [contradiction | discriminate]).
  destruct (max_of_placed pools Hne Hp) as (u & Hu & Hmx).
  unfold begin_finish. st_red.
  rewrite (rd_Live_Z _ _ (max_of (fst <$> pools)))
    by (try lia; rewrite <- (length_fmap fst pools); apply max_of_lookup; assumption).
  st_red. rewrite new_arena_ok by assumption. st_red.
  rewrite new_array_ok by assumption. st_red.
  rewrite new_array_ok by assumption. st_red.
  pose proof (begin_lookup_loop (arena_addr h) (sumZ (pool_bytes <$> pools))
                (sumZ (pool_words <$> pools)) (max_of (fst <$> pools))
                (max_of (fst <$> pools) / SEGMENT_STEP) pools
                (replicate (Z.to_nat (sumZ (pool_words <$> pools))) 0)
                (replicate (length pools) 0) (replicate (length pools) 0)
                (replicate (length pools) 0) (replicate (length pools) 0)) as L1.
  unfold fin_state in L1. rewrite L1; clear L1.
  2:{ rewrite Hmx. unfold SEGMENT_STEP. Z.div_mod_to_equations. lia. }
  2:{ rewrite Hmx. unfold SEGMENT_STEP. Z.div_mod_to_equations. lia. }
  st_red.
  rewrite wr_Live_Z by (rewrite length_replicate; lia). st_red.
  rewrite wr_Live_Z by (rewrite length_replicate; lia). st_red.
  change (Z.to_nat 0) with 0%nat.
  pose proof (begin_pointers_loop (arena_addr h) (sumZ (pool_bytes <$> pools))
                (sumZ (pool_words <$> pools)) (max_of (fst <$> pools))
                (max_of (fst <$> pools) / SEGMENT_STEP) pools) as L2.
  unfold fin_state in L2. rewrite L2 by lia; clear L2. st_red.
  pose proof (begin_magic_loop (arena_addr h) (sumZ (pool_bytes <$> pools))
                (sumZ (pool_words <$> pools)) (max_of (fst <$> pools))
                (max_of (fst <$> pools) / SEGMENT_STEP) pools Hp) as L3.
  unfold fin_state in L3. rewrite L3; clear L3. st_red.
  pose proof (begin_masks_loop (arena_addr h) (sumZ (pool_bytes <$> pools))
                (sumZ (pool_words <$> pools)) (max_of (fst <$> pools))
                (max_of (fst <$> pools) / SEGMENT_STEP) pools Hp) as L4.
  unfold fin_state in L4. rewrite L4 by reflexivity; clear L4. st_red.
  reflexivity.
Qed.

Theorem begin_spec h segs count :
  heap_ok h -> 1 <= count <= 64 -> Z.of_nat (length segs) = count ->
  Forall segment_ok segs ->
  begin h segs count new_mempool
  = Ret (true, layout_state (arena_addr h) (place (Z.to_nat count) segs 0)
                 (concat (init_chunk <$> (snd <$> place (Z.to_nat count) segs 0)))).
Proof.
  intros Hh Hc Hlen Hok.
  assert (Hne : segs <> []) by (intros ->; simpl in *; lia).
  pose proof Hh as [Hoom Hbase].
  set (n := Z.to_nat count).
  pose proof (place_placed n segs 0 Hne Hok) as Hpl.
  pose proof (length_place n segs 0) as Hln.
  unfold begin, new_mempool. st_red.
  destruct (Z.gtb_spec count 64); [lia |].
  rewrite !new_array_ok by assumption. st_red.
  fold n.
  destruct (begin_place_spec segs count n 0 0 [] (replicate n 0) [] (replicate n 0)
              0 0 (replicate n 0) (replicate n 0) 0 (replicate n 0)
              (replicate n 0) 0) as [Ht _];
    try (rewrite ?length_replicate; simpl; lia).
  rewrite app_nil_l in Ht.
  rewrite Ht by (apply place_passes_ok; [assumption | lia | lia]).
  st_red. rewrite !app_nil_l.
  rewrite acc_bytes_sum by (try assumption; lia).
  rewrite acc_words_sum by (try assumption; lia).
  rewrite !Z.add_0_l.
  replace count with (Z.of_nat (length (place n segs 0))) by lia.
  replace (replicate n 0) with (replicate (length (place n segs 0)) 0)
    by (rewrite Hln; reflexivity).
  apply begin_finish_spec; [assumption | lia | assumption].
Qed.

(** ** Bits of the initial masks *)

Lemma init_mask_spec c :
  0 <= c < 32 ->
  word (init_mask c) /\
  (forall i, 0 <= i < 32 ->
     Z.testbit (init_mask c) i = (c <=? i) && negb (c =? 0)).
Proof.
  intros Hc. destruct (prepare_mask_spec c Hc) as (m & E & Hw & Hb).
  rewrite prepare_mask_init in E by assumption. injection E as <-.
  split; assumption.
Qed.

Lemma testbit_neq_ones w i :
  0 <= i < 32 -> Z.testbit w i = false -> (w =? ALL_ONES) = false.
Proof.
  intros Hi Hb. destruct (Z.eqb_spec w ALL_ONES) as [-> |]; [| reflexivity].
  rewrite testbit_ALL_ONES in Hb by lia.
  destruct (Z.ltb_spec i 32); [discriminate | lia].
Qed.

Lemma div32_unique b g r : 0 <= r < 32 -> b = g * 32 + r -> b / 32 = g /\ b mod 32 = r.
Proof. intros Hr ->. Z.div_mod_to_equations. lia. Qed.

(** ** The chunk of a pool after [begin] *)

Lemma init_chunk_lookup cc k :
  1 <= cc <= 992 -> (k <= Z.to_nat (groups cc))%nat ->
  init_chunk cc !! k =
    Some (if decide (k = Z.to_nat (groups cc)) then init_mask (cc mod 32)
          else if decide (k = 0%nat) then init_mask (groups cc) else 0).
Proof.
  intros Hcc Hk. pose proof (groups_range cc ltac:(lia)) as Hg.
  assert (1 <= groups cc) by (unfold groups; Z.div_mod_to_equations; lia).
  unfold init_chunk.
  rewrite list_lookup_insert, length_insert, length_replicate.
  destruct (decide (Z.to_nat (groups cc) = k /\ (Z.to_nat (groups cc) < Z.to_nat (groups cc + 1))%nat))
    as [[<- _] | Hn].
  - rewrite decide_True by reflexivity. reflexivity.
  - rewrite decide_False by lia.
    rewrite list_lookup_insert, length_replicate.
    destruct (decide (0%nat = k /\ (0 < Z.to_nat (groups cc + 1))%nat)) as [[<- _] | Hn'].
    + rewrite decide_True by reflexivity. reflexivity.
    + rewrite decide_False by lia.
      apply lookup_replicate. split; [reflexivity | lia].
Qed.

Lemma init_chunk_ok cc : 1 <= cc <= 992 -> chunk_ok cc (init_chunk cc).
Proof.
  intros Hcc. pose proof (groups_range cc ltac:(lia)) as Hg.
  assert (Hg1 : 1 <= groups cc) by (unfold groups; Z.div_mod_to_equations; lia).
  assert (Hm : 0 <= cc mod 32 < 32) by (apply Z.mod_pos_bound; lia).
  destruct (init_mask_spec (groups cc) ltac:(lia)) as [Hwg Hbg].
  destruct (init_mask_spec (cc mod 32) Hm) as [Hwl Hbl].
  constructor.
  - apply length_init_chunk. lia.
  - unfold init_chunk. apply Forall_insert; [apply Forall_insert |]; try assumption.
    apply Forall_replicate. unfold word. lia.
  - intros g Hgr. rewrite init_chunk_lookup by lia.
    rewrite decide_False by lia. rewrite decide_True by reflexivity. simpl.
    rewrite Hbg by lia. unfold chunk_full.
    destruct (Z.leb_spec (groups cc) g) as [Hle | Hlt].
    + destruct (Z.eqb_spec (groups cc) 0); [lia |]. simpl.
      rewrite (proj2 (lookup_ge_None _ _)); [reflexivity |].
      pose proof (length_init_chunk cc ltac:(lia)). lia.
    + simpl. rewrite init_chunk_lookup by lia.
      rewrite (decide_False (P := S (Z.to_nat g) = 0%nat)) by lia.
      destruct (decide (S (Z.to_nat g) = Z.to_nat (groups cc))).
      * symmetry. apply (testbit_neq_ones _ 0); [lia |].
        rewrite Hbl by lia.
        destruct (Z.eqb_spec (cc mod 32) 0) as [-> | Hne]; [reflexivity |].
        destruct (Z.leb_spec (cc mod 32) 0); [lia | reflexivity].
      * reflexivity.
  - intros b Hb. unfold chunk_used.
    assert (Hq : b / 32 = groups cc - 1)
      by (unfold groups in *; Z.div_mod_to_equations; lia).
    rewrite Hq, init_chunk_lookup by lia.
    rewrite decide_True by lia.
    assert (Hbm : 0 <= b mod 32 < 32) by (apply Z.mod_pos_bound; lia).
    rewrite Hbl by lia.
    assert (cc mod 32 <> 0 /\ cc mod 32 <= b mod 32)
      by (unfold groups in *; Z.div_mod_to_equations; lia).
    destruct (Z.eqb_spec (cc mod 32) 0); [lia |].
    destruct (Z.leb_spec (cc mod 32) (b mod 32)); [reflexivity | lia].
Qed.

(** ** Cell bits under updates of a chunk *)

Lemma chunk_used_insert_0 ch v b :
  chunk_used (<[0%nat := v]> ch) b = chunk_used ch b.
Proof. unfold chunk_used. rewrite list_lookup_insert_ne by lia. reflexivity. Qed.

Lemma chunk_full_insert_0 ch v g :
  chunk_full (<[0%nat := v]> ch) g = chunk_full ch g.
Proof. unfold chunk_full. rewrite list_lookup_insert_ne by lia. reflexivity. Qed.

Lemma chunk_used_insert_S ch (k : nat) v b :
  (S k < length ch)%nat -> 0 <= b ->
  chunk_used (<[S k := v]> ch) b =
    if decide (b / 32 = Z.of_nat k) then Z.testbit v (b mod 32)
    else chunk_used ch b.
Proof.
  intros Hk Hb. unfold chunk_used.
  assert (0 <= b / 32) by (apply Z.div_pos; lia).
  destruct (decide (b / 32 = Z.of_nat k)) as [E | E].
  - rewrite E, Nat2Z.id, list_lookup_insert_eq by assumption. reflexivity.
  - rewrite list_lookup_insert_ne by lia. reflexivity.
Qed.

Lemma chunk_full_insert_S ch (k : nat) v g :
  (S k < length ch)%nat -> 0 <= g ->
  chunk_full (<[S k := v]> ch) g =
    if decide (g = Z.of_nat k) then v =? ALL_ONES else chunk_full ch g.
Proof.
  intros Hk Hg. unfold chunk_full.
  destruct (decide (g = Z.of_nat k)) as [E | E].
  - rewrite E, Nat2Z.id, list_lookup_insert_eq by assumption. reflexivity.
  - rewrite list_lookup_insert_ne by lia. reflexivity.
Qed.

Lemma chunk_ok_word cc ch k w : chunk_ok cc ch -> ch !! k = Some w -> word w.
Proof. intros H E. exact (proj1 (Forall_lookup _ _) (ck_word _ _ H) _ _ E). Qed.

Lemma chunk_ok_head cc ch :
  chunk_ok cc ch -> 0 <= cc <= 992 -> exists gm, ch !! 0%nat = Some gm /\ word gm.
Proof.
  intros H Hcc. pose proof (groups_range _ Hcc).
  destruct (lookup_lt_is_Some_2 ch 0) as [gm E].
  - pose proof (ck_length _ _ H). lia.
  - exists gm. split; [assumption | eapply chunk_ok_word; eassumption].
Qed.

Lemma chunk_ok_cell cc ch g :
  chunk_ok cc ch -> 0 <= cc <= 992 -> 0 <= g < groups cc ->
  exists w, ch !! S (Z.to_nat g) = Some w /\ word w.
Proof.
  intros H Hcc Hg.
  destruct (lookup_lt_is_Some_2 ch (S (Z.to_nat g))) as [w E].
  - pose proof (ck_length _ _ H). lia.
  - exists w. split; [assumption | eapply chunk_ok_word; eassumption].
Qed.

(** ** An exhausted pool *)

Lemma chunk_exhausted_iff cc ch gm :
  chunk_ok cc ch -> 0 <= cc <= 992 -> ch !! 0%nat = Some gm ->
  gm = ALL_ONES <-> chunk_exhausted cc ch.
Proof.
  intros H Hcc Egm. pose proof (groups_range _ Hcc) as Hgr.
  pose proof (ck_group _ _ H) as Hgrp. rewrite Egm in Hgrp. simpl in Hgrp.
  split.
  - intros -> b Hb.
    assert (Hq : 0 <= b / 32 < groups cc)
      by (unfold groups in *; Z.div_mod_to_equations; lia).
    destruct (chunk_ok_cell _ _ _ H Hcc Hq) as (w & Ew & Hw).
    specialize (Hgrp (b / 32) ltac:(lia)).
    rewrite testbit_ALL_ONES in Hgrp by lia.
    unfold chunk_full in Hgrp. unfold chunk_used. rewrite Ew in *.
    destruct (Z.ltb_spec (b / 32) 32); [| lia].
    symmetry in Hgrp. apply Z.eqb_eq in Hgrp. subst w.
    rewrite testbit_ALL_ONES by (apply Z.mod_pos_bound; lia).
    destruct (Z.ltb_spec (b mod 32) 32); [reflexivity |].
    pose proof (Z.mod_pos_bound b 32). lia.
  - intros Hex. destruct (chunk_ok_head _ _ H Hcc) as (gm' & E' & Hw).
    rewrite Egm in E'. injection E' as <-.
    apply word_eq_ones; [assumption |]. intros g Hg.
    rewrite Hgrp by assumption. unfold chunk_full.
    destruct (ch !! S (Z.to_nat g)) as [w |] eqn:Ew; [| reflexivity].
    apply Z.eqb_eq.
    assert (Hlt : g < groups cc).
    { pose proof (lookup_lt_Some _ _ _ Ew). pose proof (ck_length _ _ H). lia. }
    apply word_eq_ones; [eapply chunk_ok_word; eassumption |].
    intros i Hi.
    destruct (div32_unique (g * 32 + i) g i Hi eq_refl) as [Eq Er].
    destruct (Z.lt_ge_cases (g * 32 + i) cc) as [Hin | Hout].
    + specialize (Hex (g * 32 + i) ltac:(lia)). unfold chunk_used in Hex.
      rewrite Eq, Er, Ew in Hex. assumption.
    + pose proof (ck_pad _ _ H (g * 32 + i) ltac:(lia)) as Hp.
      unfold chunk_used in Hp. rewrite Eq, Er, Ew in Hp. assumption.
Qed.

(** ** Taking the lowest free cell *)

Lemma chunk_take_spec cc ch gm :
  chunk_ok cc ch -> 0 <= cc <= 992 -> ch !! 0%nat = Some gm -> gm <> ALL_ONES ->
  exists g0 w b0,
    __builtin_ctz (not32 gm) = Ret g0 /\ 0 <= g0 < groups cc /\
    ch !! S (Z.to_nat g0) = Some w /\
    __builtin_ctz (not32 w) = Ret b0 /\ 0 <= b0 < 32 /\
    0 <= g0 * 32 + b0 < cc /\
    chunk_used ch (g0 * 32 + b0) = false /\
    (forall b, 0 <= b < g0 * 32 + b0 -> chunk_used ch b = true) /\
    chunk_ok cc (chunk_take ch g0 b0) /\
    chunk_used (chunk_take ch g0 b0) (g0 * 32 + b0) = true /\
    (forall b, 0 <= b -> b <> g0 * 32 + b0 ->
       chunk_used (chunk_take ch g0 b0) b = chunk_used ch b).
Proof.
  intros H Hcc Egm Hne. pose proof (groups_range _ Hcc) as Hgr.
  pose proof (ck_group _ _ H) as Hgrp. rewrite Egm in Hgrp. simpl in Hgrp.
  pose proof (ck_length _ _ H) as Hlen.
  assert (Hwgm : word gm) by (eapply chunk_ok_word; eassumption).
  destruct (ctz_not32 gm Hwgm Hne) as (g0 & Eg0 & Hg0 & Hbit & Hlow).
  pose proof (Hgrp g0 Hg0) as Hf. rewrite Hbit in Hf. unfold chunk_full in Hf.
  destruct (ch !! S (Z.to_nat g0)) as [w |] eqn:Ew; [| discriminate].
  symmetry in Hf. apply Z.eqb_neq in Hf.
  assert (Hg0lt : g0 < groups cc) by (pose proof (lookup_lt_Some _ _ _ Ew); lia).
  assert (Hww : word w) by (eapply chunk_ok_word; eassumption).
  destruct (ctz_not32 w Hww Hf) as (b0 & Eb0 & Hb0 & Hbit0 & Hlow0).
  destruct (div32_unique (g0 * 32 + b0) g0 b0 Hb0 eq_refl) as [Eq Er].
  assert (Hfree : chunk_used ch (g0 * 32 + b0) = false)
    by (unfold chunk_used; rewrite Eq, Er, Ew; assumption).
  assert (Hm : 0 <= g0 * 32 + b0 < cc).
  { split; [lia |]. destruct (Z.lt_ge_cases (g0 * 32 + b0) cc) as [| Hout]; [assumption |].
    pose proof (ck_pad _ _ H (g0 * 32 + b0) ltac:(lia)) as Hp. congruence. }
  assert (HSk : (S (Z.to_nat g0) < length ch)%nat) by (eapply lookup_lt_Some; eassumption).
  assert (Hused : forall b, 0 <= b -> chunk_used (chunk_take ch g0 b0) b =
            if decide (b / 32 = g0) then (b mod 32 =? b0) || chunk_used ch b
            else chunk_used ch b).
  { intros b Hb. unfold chunk_take. rewrite Ew. simpl.
    assert (Hbm : 0 <= b mod 32 < 32) by (apply Z.mod_pos_bound; lia).
    destruct (bitSet w b0 =? ALL_ONES); rewrite ?chunk_used_insert_0;
      rewrite chunk_used_insert_S by (try assumption; lia);
      rewrite Z2Nat.id by lia;
      (destruct (decide (b / 32 = g0)) as [E | E]; [| reflexivity]);
      rewrite testbit_bitSet by lia; unfold chunk_used;
      rewrite E, Ew; reflexivity. }
  exists g0, w, b0.
  split; [assumption |]. split; [lia |]. split; [assumption |].
  split; [assumption |]. split; [assumption |]. split; [assumption |].
  split; [assumption |]. split.
  { intros b Hb.
    assert (Hbm : 0 <= b mod 32 < 32) by (apply Z.mod_pos_bound; lia).
    assert (Hbq : 0 <= b / 32 <= g0) by (Z.div_mod_to_equations; lia).
    destruct (Z.eq_dec (b / 32) g0) as [E | E].
    - unfold chunk_used. rewrite E, Ew. apply Hlow0.
      Z.div_mod_to_equations. lia.
    - pose proof (Hgrp (b / 32) ltac:(lia)) as Hfull.
      rewrite Hlow in Hfull by lia. unfold chunk_full in Hfull. unfold chunk_used.
      destruct (ch !! S (Z.to_nat (b / 32))) as [w1 |]; [| reflexivity].
      symmetry in Hfull. apply Z.eqb_eq in Hfull. subst w1.
      rewrite testbit_ALL_ONES by lia.
      destruct (Z.ltb_spec (b mod 32) 32); [reflexivity | lia]. }
  split.
  { constructor.
    - unfold chunk_take. rewrite Ew. simpl.
      destruct (bitSet w b0 =? ALL_ONES); rewrite ?length_insert; assumption.
    - unfold chunk_take. rewrite Ew, Egm. simpl.
      destruct (bitSet w b0 =? ALL_ONES);
        repeat apply Forall_insert; try apply (ck_word _ _ H);
        apply word_bitSet; (assumption || lia).
    - intros g Hg. unfold chunk_take. rewrite Ew, Egm. simpl.
      destruct (bitSet w b0 =? ALL_ONES) eqn:Efull.
      + rewrite list_lookup_insert_eq by (rewrite length_insert; lia). simpl.
        rewrite chunk_full_insert_0, chunk_full_insert_S by (try assumption; lia).
        rewrite Z2Nat.id by lia. rewrite testbit_bitSet by lia.
        destruct (decide (g = g0)) as [-> | Hng].
        * rewrite Z.eqb_refl, Efull. reflexivity.
        * destruct (Z.eqb_spec g g0); [contradiction |]. simpl. apply Hgrp. assumption.
      + rewrite list_lookup_insert_ne by lia. rewrite Egm. simpl.
        rewrite chunk_full_insert_S by (try assumption; lia).
        rewrite Z2Nat.id by lia.
        destruct (decide (g = g0)) as [-> | Hng].
        * rewrite Efull. assumption.
        * apply Hgrp. assumption.
    - intros b Hb. rewrite Hused by lia.
      pose proof (ck_pad _ _ H b Hb) as Hp. rewrite Hp.
      destruct (decide (b / 32 = g0)); [apply orb_true_r | reflexivity]. }
  split.
  { rewrite Hused by lia. rewrite decide_True by assumption.
    rewrite Er, Z.eqb_refl. reflexivity. }
  intros b Hb Hnm. rewrite Hused by assumption.
  destruct (decide (b / 32 = g0)) as [E | E]; [| reflexivity].
  destruct (Z.eqb_spec (b mod 32) b0) as [E' | E']; [| reflexivity].
  exfalso. apply Hnm. Z.div_mod_to_equations. lia.
Qed.

(** ** Giving a cell back *)

Lemma chunk_give_eq ch j gm w :
  ch !! 0%nat = Some gm -> ch !! S (Z.to_nat (j / 32)) = Some w ->
  chunk_give ch j =
    <[S (Z.to_nat (j / 32)) := bitClear w (j mod 32)]>
      (<[0%nat := bitClear gm (j / 32)]> ch).
Proof.
  intros Egm Ew. unfold chunk_give. rewrite Egm. simpl.
  rewrite list_lookup_insert_ne by lia. rewrite Ew. reflexivity.
Qed.

Lemma chunk_take_eq ch g0 b0 gm w :
  ch !! 0%nat = Some gm -> ch !! S (Z.to_nat g0) = Some w ->
  chunk_take ch g0 b0 =
    if bitSet w b0 =? ALL_ONES
    then <[0%nat := bitSet gm g0]> (<[S (Z.to_nat g0) := bitSet w b0]> ch)
    else <[S (Z.to_nat g0) := bitSet w b0]> ch.
Proof. intros Egm Ew. unfold chunk_take. rewrite Ew, Egm. reflexivity. Qed.

Lemma chunk_give_spec cc ch j :
  chunk_ok cc ch -> 0 <= cc <= 992 -> 0 <= j < cc ->
  chunk_ok cc (chunk_give ch j) /\
  chunk_used (chunk_give ch j) j = false /\
  (forall b, 0 <= b -> b <> j ->
     chunk_used (chunk_give ch j) b = chunk_used ch b).
Proof.
  intros H Hcc Hj. pose proof (groups_range _ Hcc) as Hgr.
  pose proof (ck_group _ _ H) as Hgrp.
  pose proof (ck_length _ _ H) as Hlen.
  destruct (chunk_ok_head _ _ H Hcc) as (gm & Egm & Hwgm).
  rewrite Egm in Hgrp. simpl in Hgrp.
  assert (Hq : 0 <= j / 32 < groups cc)
    by (unfold groups in *; Z.div_mod_to_equations; lia).
  assert (Hr : 0 <= j mod 32 < 32) by (apply Z.mod_pos_bound; lia).
  destruct (chunk_ok_cell _ _ _ H Hcc Hq) as (w & Ew & Hww).
  assert (HSk : (S (Z.to_nat (j / 32)) < length ch)%nat) by (eapply lookup_lt_Some; eassumption).
  assert (Egive : chunk_give ch j =
            <[S (Z.to_nat (j / 32)) := bitClear w (j mod 32)]>
              (<[0%nat := bitClear gm (j / 32)]> ch)).
  { unfold chunk_give. rewrite Egm. simpl.
    rewrite list_lookup_insert_ne by lia. rewrite Ew. reflexivity. }
  assert (Hused : forall b, 0 <= b -> chunk_used (chunk_give ch j) b =
            if decide (b / 32 = j / 32)
            then chunk_used ch b && negb (b mod 32 =? j mod 32)
            else chunk_used ch b).
  { intros b Hb. rewrite Egive.
    assert (Hbm : 0 <= b mod 32 < 32) by (apply Z.mod_pos_bound; lia).
    rewrite chunk_used_insert_S by (rewrite ?length_insert; try assumption; lia).
    rewrite Z2Nat.id by lia. rewrite chunk_used_insert_0.
    destruct (decide (b / 32 = j / 32)) as [E | E]; [| reflexivity].
    rewrite testbit_bitClear by lia. unfold chunk_used. rewrite E, Ew. reflexivity. }
  split; [| split].
  - constructor.
    + rewrite Egive, !length_insert. assumption.
    + rewrite Egive. repeat apply Forall_insert; try apply (ck_word _ _ H);
        apply word_bitClear; assumption.
    + intros g Hg. rewrite Egive.
      rewrite list_lookup_insert_ne by lia.
      rewrite list_lookup_insert_eq by lia. simpl.
      rewrite chunk_full_insert_S by (rewrite ?length_insert; try assumption; lia).
      rewrite Z2Nat.id by lia. rewrite chunk_full_insert_0.
      rewrite testbit_bitClear by lia.
      destruct (decide (g = j / 32)) as [-> | Hng].
      * rewrite Z.eqb_refl, andb_false_r. symmetry.
        apply (testbit_neq_ones _ (j mod 32)); [assumption |].
        rewrite testbit_bitClear by lia. rewrite Z.eqb_refl. apply andb_false_r.
      * destruct (Z.eqb_spec g (j / 32)); [contradiction |]. simpl.
        rewrite andb_true_r. apply Hgrp. assumption.
    + intros b Hb. rewrite Hused by lia.
      pose proof (ck_pad _ _ H b Hb) as Hp. rewrite Hp.
      destruct (decide (b / 32 = j / 32)) as [E | E]; [| reflexivity].
      destruct (Z.eqb_spec (b mod 32) (j mod 32)) as [E' | E']; [| reflexivity].
      exfalso. Z.div_mod_to_equations. lia.
  - rewrite Hused by lia. rewrite decide_True by reflexivity.
    rewrite Z.eqb_refl. apply andb_false_r.
  - intros b Hb Hnj. rewrite Hused by assumption.
    destruct (decide (b / 32 = j / 32)) as [E | E]; [| reflexivity].
    destruct (Z.eqb_spec (b mod 32) (j mod 32)) as [E' | E']; [| apply andb_true_r].
    exfalso. apply Hnj. Z.div_mod_to_equations. lia.
Qed.

(** ** Reading a layout *)

Lemma chunks_fit pools chunks :
  Forall2 (fun p ch => chunk_ok (snd p) ch) pools chunks ->
  Forall2 (fun p (ch : list Z) => Z.of_nat (length ch) = pool_words p) pools chunks.
Proof.
  intros H. eapply Forall2_impl; [exact H |].
  intros p ch Hok. exact (ck_length _ _ Hok).
Qed.

Lemma rd_chunk pools chunks sg (ch : list Z) k w :
  Forall2 (fun p (ch : list Z) => Z.of_nat (length ch) = pool_words p) pools chunks ->
  chunks !! sg = Some ch -> 0 <= k -> ch !! Z.to_nat k = Some w ->
  rd (Live (concat chunks)) (pool_off pools sg + k) = Ret w.
Proof.
  intros Hfit Hch Hk Hw.
  pose proof (chunk_at_pool_off pools chunks sg Hfit) as Hoff.
  pose proof (lookup_lt_Some _ _ _ Hw) as Hlt.
  apply rd_Live_Z; [lia |].
  replace (Z.to_nat (pool_off pools sg + k)) with (chunk_at chunks sg + Z.to_nat k)%nat by lia.
  rewrite (lookup_concat_chunk _ _ _ _ Hch Hlt). assumption.
Qed.

Lemma wr_chunk pools chunks sg (ch : list Z) k v :
  Forall2 (fun p (ch : list Z) => Z.of_nat (length ch) = pool_words p) pools chunks ->
  chunks !! sg = Some ch -> 0 <= k < Z.of_nat (length ch) ->
  wr (Live (concat chunks)) (pool_off pools sg + k) v
  = Ret (Live (concat (<[sg := <[Z.to_nat k := v]> ch]> chunks))).
Proof.
  intros Hfit Hch Hk.
  pose proof (chunk_at_pool_off pools chunks sg Hfit) as Hoff.
  assert (Hlt : (Z.to_nat k < length ch)%nat) by lia.
  assert (Hin : (chunk_at chunks sg + Z.to_nat k < length (concat chunks))%nat).
  { apply lookup_lt_is_Some. rewrite (lookup_concat_chunk _ _ _ _ Hch Hlt).
    apply lookup_lt_is_Some. assumption. }
  rewrite wr_Live_Z by lia.
  replace (Z.to_nat (pool_off pools sg + k)) with (chunk_at chunks sg + Z.to_nat k)%nat by lia.
  rewrite (insert_concat_chunk _ _ _ _ _ Hch Hlt). reflexivity.
Qed.

Lemma chunks_fit_insert pools chunks sg (ch ch' : list Z) :
  Forall2 (fun p (ch : list Z) => Z.of_nat (length ch) = pool_words p) pools chunks ->
  chunks !! sg = Some ch -> length ch' = length ch ->
  Forall2 (fun p (ch : list Z) => Z.of_nat (length ch) = pool_words p) pools
    (<[sg := ch']> chunks).
Proof.
  intros Hfit Hch Hlen.
  destruct (Forall2_lookup_r _ _ _ _ _ Hfit Hch) as (p & Hp & Hpc).
  rewrite <- (list_insert_id pools sg p Hp).
  apply Forall2_insert; [assumption | lia].
Qed.

Lemma rd_fmap {A : Type} (f : A -> Z) (l : list A) (i : nat) x j :
  l !! i = Some x -> Z.of_nat i = j -> rd (Live (f <$> l)) j = Ret (f x).
Proof.
  intros H <-. apply rd_Live. rewrite list_lookup_fmap, H. reflexivity.
Qed.

Lemma rd_seg_ptrs base pools (i : nat) j :
  (i < length pools)%nat -> Z.of_nat i = j ->
  rd (Live (seg_ptrs base pools)) j = Ret (base + seg_off pools i).
Proof. intros H <-. apply rd_Live, lookup_seg_ptrs. assumption. Qed.

Lemma rd_pool_ptrs pools (i : nat) j :
  (i < length pools)%nat -> Z.of_nat i = j ->
  rd (Live (pool_ptrs pools)) j = Ret (pool_off pools i).
Proof. intros H <-. apply rd_Live, lookup_pool_ptrs. assumption. Qed.

(** ** Resolving a size *)

Lemma first_fit_found szs : forall i size,
  (exists s, s ∈ szs /\ size <= s) ->
  exists (k : nat) s,
    first_fit szs i size = i + Z.of_nat k /\ szs !! k = Some s /\ size <= s /\
    (forall (j : nat) s', (j < k)%nat -> szs !! j = Some s' -> s' < size).
Proof.
  induction szs as [| x szs IH]; intros i size (s & Hin & Hle).
  - inversion Hin.
  - simpl. destruct (Z.geb_spec x size) as [Hge | Hlt].
    + exists 0%nat, x. split; [lia |]. split; [reflexivity |]. split; [lia |].
      intros j s' Hj. lia.
    + apply elem_of_cons in Hin as [-> | Hin]; [lia |].
      destruct (IH (i + 1) size (ex_intro _ s (conj Hin Hle))) as (k & s1 & E & Hk & Hs1 & Hlow).
      exists (S k), s1. split; [lia |]. split; [assumption |]. split; [assumption |].
      intros [| j] s' Hj Hs'.
      * simpl in Hs'. injection Hs' as <-. assumption.
      * simpl in Hs'. eapply Hlow; [| eassumption]. lia.
Qed.

Lemma first_fit_none szs : forall i size,
  (forall s, s ∈ szs -> s < size) -> first_fit szs i size = -1.
Proof.
  induction szs as [| x szs IH]; intros i size H; simpl; [reflexivity |].
  pose proof (H x ltac:(left)) as Hx.
  destruct (Z.geb_spec x size); [lia |].
  apply IH. intros s Hs. apply H. right. assumption.
Qed.

Lemma max_of_elem (szs : list Z) : szs <> [] -> max_of szs ∈ szs.
Proof.
  intros Hne. eapply list_elem_of_lookup_2. apply max_of_lookup. assumption.
Qed.

Lemma lookup_lookup_table szs (j : nat) :
  (j < Z.to_nat (max_of szs / SEGMENT_STEP))%nat ->
  lookup_table szs !! j
  = Some (first_fit szs 0 (SEGMENT_STEP * (Z.of_nat j + 1))).
Proof.
  intros H. unfold lookup_table. rewrite list_lookup_fmap.
  rewrite (proj2 (lookup_seq 0 _ j j)); [reflexivity | split; [reflexivity | assumption]].
Qed.

Lemma length_lookup_table szs :
  length (lookup_table szs) = Z.to_nat (max_of szs / SEGMENT_STEP).
Proof. unfold lookup_table. rewrite length_fmap, length_seq. reflexivity. Qed.

(** The index [alloc] computes is inside the table exactly for sizes from
    1 to the largest cell size. *)
Lemma lookup_index_range mx u size :
  mx = 4 * u -> 1 <= size <= mx ->
  0 <= lookup_index size < mx / SEGMENT_STEP.
Proof.
  intros -> Hs. unfold lookup_index, SEGMENT_STEP, SEGMENT_LOG2.
  rewrite Z.shiftr_div_pow2 by lia. change (2 ^ 2) with 4.
  Z.div_mod_to_equations. lia.
Qed.

Lemma rd_lookup_table pools size :
  pools <> [] -> Forall pool_placed pools ->
  1 <= size <= max_of (fst <$> pools) ->
  rd (Live (lookup_table (fst <$> pools))) (lookup_index size)
  = Ret (resolve (fst <$> pools) size).
Proof.
  intros Hne Hp Hs. destruct (max_of_placed pools Hne Hp) as (u & Hu & Hmx).
  pose proof (lookup_index_range _ u size Hmx Hs) as Hi.
  apply rd_Live_Z; [lia |].
  rewrite lookup_lookup_table by lia. unfold resolve.
  rewrite Z2Nat.id by lia. reflexivity.
Qed.

Lemma pool_valid_placed p : pool_valid p -> pool_placed p.
Proof. intros [H1 H2]. split; [assumption | lia]. Qed.

Lemma resolve_spec pools size :
  pools <> [] -> Forall pool_placed pools ->
  1 <= size <= max_of (fst <$> pools) ->
  exists (sg : nat) p,
    resolve (fst <$> pools) size = Z.of_nat sg /\ pools !! sg = Some p /\
    size <= fst p /\
    (forall (j : nat) p', (j < sg)%nat -> pools !! j = Some p' -> fst p' < size).
Proof.
  intros Hne Hp Hs. destruct (max_of_placed pools Hne Hp) as (u & Hu & Hmx).
  assert (Hne' : fst <$> pools <> []) by (destruct pools; [contradiction | discriminate]).
  set (rs := SEGMENT_STEP * (lookup_index size + 1)).
  assert (Hrs : size <= rs < size + 4 /\ rs <= max_of (fst <$> pools)).
  { unfold rs, lookup_index, SEGMENT_STEP, SEGMENT_LOG2. rewrite Hmx in *.
    rewrite Z.shiftr_div_pow2 by lia. change (2 ^ 2) with 4.
    Z.div_mod_to_equations. lia. }
  destruct (first_fit_found (fst <$> pools) 0 rs) as (k & s & E & Hk & Hle & Hlow).
  { exists (max_of (fst <$> pools)). split; [apply max_of_elem; assumption | lia]. }
  rewrite list_lookup_fmap in Hk.
  destruct (pools !! k) as [p |] eqn:Ep; [| discriminate].
  simpl in Hk. injection Hk as <-.
  exists k, p. split; [unfold resolve; fold rs; lia |]. split; [assumption |].
  split; [lia |].
  intros j p' Hj Hp'.
  specialize (Hlow j (fst p') Hj). rewrite list_lookup_fmap, Hp' in Hlow.
  specialize (Hlow eq_refl).
  destruct (proj1 (proj1 (Forall_lookup _ _) Hp _ _ Hp')) as (u' & Hu' & Hf).
  unfold rs, lookup_index, SEGMENT_STEP, SEGMENT_LOG2 in *.
  rewrite Z.shiftr_div_pow2 in * by lia. change (2 ^ 2) with 4 in *.
  Z.div_mod_to_equations. lia.
Qed.

Lemma rd_chunk_head pools chunks sg (ch : list Z) gm :
  Forall2 (fun p (ch : list Z) => Z.of_nat (length ch) = pool_words p) pools chunks ->
  chunks !! sg = Some ch -> ch !! 0%nat = Some gm ->
  rd (Live (concat chunks)) (pool_off pools sg) = Ret gm.
Proof.
  intros Hfit Hch Hgm. rewrite <- (Z.add_0_r (pool_off pools sg)).
  apply (rd_chunk pools chunks sg ch 0 gm Hfit Hch); [lia | exact Hgm].
Qed.

Lemma wr_chunk_head pools chunks sg (ch : list Z) v :
  Forall2 (fun p (ch : list Z) => Z.of_nat (length ch) = pool_words p) pools chunks ->
  chunks !! sg = Some ch -> (0 < length ch)%nat ->
  wr (Live (concat chunks)) (pool_off pools sg) v
  = Ret (Live (concat (<[sg := <[0%nat := v]> ch]> chunks))).
Proof.
  intros Hfit Hch Hlen. rewrite <- (Z.add_0_r (pool_off pools sg)).
  rewrite (wr_chunk _ _ _ ch) by (try assumption; lia). reflexivity.
Qed.

(** ** Members of a layout *)

Section Layout.
Variables (base : Z) (pools : list (Z * Z)) (pb : list Z).

Lemma layout_initialized : _initialized (layout_state base pools pb) = true.
Proof. reflexivity. Qed.
Lemma layout_buffer : _buffer (layout_state base pools pb) = Live base.
Proof. reflexivity. Qed.
Lemma layout_buffer_size :
  _buffer_size (layout_state base pools pb) = sumZ (pool_bytes <$> pools).
Proof. reflexivity. Qed.
Lemma layout_pool_buffer : _pool_buffer (layout_state base pools pb) = Live pb.
Proof. reflexivity. Qed.
Lemma layout_pool_ptr :
  _pool_ptr (layout_state base pools pb) = Live (pool_ptrs pools).
Proof. reflexivity. Qed.
Lemma layout_segment_ptr :
  _segment_ptr (layout_state base pools pb) = Live (seg_ptrs base pools).
Proof. reflexivity. Qed.
Lemma layout_max_segment_size :
  _max_segment_size (layout_state base pools pb) = max_of (fst <$> pools).
Proof. reflexivity. Qed.
Lemma layout_segment_sizes :
  _segment_sizes (layout_state base pools pb) = Live (fst <$> pools).
Proof. reflexivity. Qed.
Lemma layout_cell_count :
  _cell_count (layout_state base pools pb) = Live (snd <$> pools).
Proof. reflexivity. Qed.
Lemma layout_magic_number :
  _magic_number (layout_state base pools pb)
  = Live (magic_of <$> (fst <$> pools)).
Proof. reflexivity. Qed.
Lemma layout_segment_shift :
  _segment_shift (layout_state base pools pb)
  = Live (shift_of <$> (fst <$> pools)).
Proof. reflexivity. Qed.
Lemma layout_segment_count :
  _segment_count (layout_state base pools pb) = Z.of_nat (length pools).
Proof. reflexivity. Qed.
Lemma layout_segment_lookup :
  _segment_lookup (layout_state base pools pb)
  = Live (lookup_table (fst <$> pools)).
Proof. reflexivity. Qed.
Lemma layout_with_pool_buffer pb' :
  with_pool_buffer (Live pb') (layout_state base pools pb)
  = layout_state base pools pb'.
Proof. reflexivity. Qed.
End Layout.

Ltac lay :=
  rewrite ?layout_with_pool_buffer, ?layout_initialized, ?layout_buffer,
    ?layout_buffer_size, ?layout_pool_buffer, ?layout_pool_ptr,
    ?layout_segment_ptr, ?layout_max_segment_size, ?layout_segment_sizes,
    ?layout_cell_count, ?layout_magic_number, ?layout_segment_shift,
    ?layout_segment_count, ?layout_segment_lookup.

(** ** One call of [alloc] on a layout *)

Lemma alloc_cases base pools chunks fuel size :
  layout_ok base pools chunks ->
  1 <= size <= max_of (fst <$> pools) ->
  exists (sg : nat) p ch,
    resolve (fst <$> pools) size = Z.of_nat sg /\
    pools !! sg = Some p /\ chunks !! sg = Some ch /\
    size <= fst p /\
    (forall (j : nat) p', (j < sg)%nat -> pools !! j = Some p' -> fst p' < size) /\
    ((chunk_exhausted (snd p) ch /\
      exists p', pools !! S sg = Some p' /\
        alloc (S fuel) size (layout_state base pools (concat chunks))
        = alloc fuel (fst p') (layout_state base pools (concat chunks)))
     \/ (chunk_exhausted (snd p) ch /\ S sg = length pools /\
         alloc (S fuel) size (layout_state base pools (concat chunks))
         = Ret (nullptr, layout_state base pools (concat chunks)))
     \/ (exists g0 b0,
           0 <= g0 * 32 + b0 < snd p /\
           chunk_used ch (g0 * 32 + b0) = false /\
           (forall b, 0 <= b < g0 * 32 + b0 -> chunk_used ch b = true) /\
           chunk_ok (snd p) (chunk_take ch g0 b0) /\
           chunk_used (chunk_take ch g0 b0) (g0 * 32 + b0) = true /\
           (forall b, 0 <= b -> b <> g0 * 32 + b0 ->
              chunk_used (chunk_take ch g0 b0) b = chunk_used ch b) /\
           alloc (S fuel) size (layout_state base pools (concat chunks))
           = Ret (base + seg_off pools sg + (g0 * 32 + b0) * fst p,
                  layout_state base pools
                    (concat (<[sg := chunk_take ch g0 b0]> chunks))))).
Proof.
  intros (Hbase & Hn & Hval & Hck) Hs.
  assert (Hne : pools <> []) by (intros ->; simpl in Hn; lia).
  assert (Hpl : Forall pool_placed pools)
    by (eapply Forall_impl; [exact Hval | exact pool_valid_placed]).
  destruct (resolve_spec pools size Hne Hpl Hs) as (sg & p & E & Hp & Hle & Hlow).
  destruct (Forall2_lookup_l _ _ _ _ _ Hck Hp) as (ch & Hch & Hok).
  pose proof (chunks_fit _ _ Hck) as Hfit.
  pose proof (proj1 (Forall_lookup _ _) Hval _ _ Hp) as [Hsz Hcc].
  assert (Hcc' : 0 <= snd p <= 992) by lia.
  destruct (chunk_ok_head _ _ Hok Hcc') as (gm & Egm & Hwgm).
  pose proof (lookup_lt_Some _ _ _ Hp) as Hsg.
  exists sg, p, ch.
  split; [assumption |]. split; [assumption |]. split; [assumption |].
  split; [assumption |]. split; [assumption |].
  assert (Hpre : forall (K : outcome (Z * mempool)),
    (let st := layout_state base pools (concat chunks) in
     if gm =? ALL_ONES then
        if Z.of_nat sg <? Z.of_nat (length pools) - 1 then
          next <- rd (_segment_sizes st) (Z.of_nat sg + 1) ;; alloc fuel next st
        else Ret (nullptr, st)
      else
        c <- __builtin_ctz (not32 gm) ;;
        let pool_index := wrap8 c in
        cc <- rd (_cell_count st) (Z.of_nat sg) ;;
        if pool_index >=? groups cc then Ret (nullptr, st) else
        cm <- rd (_pool_buffer st) (pool_off pools sg + (pool_index + 1)) ;;
        c <- __builtin_ctz (not32 cm) ;;
        let cell_index := wrap8 c in
        a <- wr (_pool_buffer st) (pool_off pools sg + (pool_index + 1)) (bitSet cm cell_index) ;;
        let st := with_pool_buffer a st in
        cm <- rd (_pool_buffer st) (pool_off pools sg + (pool_index + 1)) ;;
        st <- (if cm =? ALL_ONES then
                 gm <- rd (_pool_buffer st) (pool_off pools sg) ;;
                 a <- wr (_pool_buffer st) (pool_off pools sg) (bitSet gm pool_index) ;;
                 Ret (with_pool_buffer a st)
               else Ret st) ;;
        p <- rd (_segment_ptr st) (Z.of_nat sg) ;;
        sz <- rd (_segment_sizes st) (Z.of_nat sg) ;;
        Ret (p + (pool_index * 32 + cell_index) * sz, st)) = K ->
    alloc (S fuel) size (layout_state base pools (concat chunks)) = K).
  { intros K <-. cbn [alloc]. cbv zeta. lay.
    destruct (Z.gtb_spec size (max_of (fst <$> pools))); [lia |].
    rewrite rd_lookup_table by assumption. cbn [bind]. rewrite E.
    rewrite wrap8_small by lia.
    destruct (Z.geb_spec (Z.of_nat sg) (Z.of_nat (length pools))); [lia |].
    rewrite (rd_seg_ptrs _ _ sg) by (assumption || reflexivity). cbn [bind].
    rewrite (rd_pool_ptrs _ sg) by (assumption || reflexivity). cbn [bind].
    rewrite (rd_chunk_head _ _ _ _ _ Hfit Hch Egm). cbn [bind].
    reflexivity. }
  destruct (Z.eqb_spec gm ALL_ONES) as [Hfull | Hfree].
  - pose proof (proj1 (chunk_exhausted_iff _ _ _ Hok Hcc' Egm) Hfull) as Hex.
    destruct (Z.ltb_spec (Z.of_nat sg) (Z.of_nat (length pools) - 1)) as [Hlt | Hge].
    + left. split; [assumption |].
      destruct (lookup_lt_is_Some_2 pools (S sg) ltac:(lia)) as [p' Hp'].
      exists p'. split; [assumption |].
      apply Hpre. cbv zeta. lay.
      rewrite (rd_fmap fst pools (S sg) p') by (assumption || lia). reflexivity.
    + right. left. split; [assumption |]. split; [lia |].
      apply Hpre. reflexivity.
  - right. right.
    destruct (chunk_take_spec _ _ _ Hok Hcc' Egm Hfree)
      as (g0 & w & b0 & Eg0 & Hg0 & Ew & Eb0 & Hb0 & Hm & Hfr & Hlowc & Hok' & Hset & Hoth).
    exists g0, b0.
    split; [assumption |]. split; [assumption |]. split; [assumption |].
    split; [assumption |]. split; [assumption |]. split; [assumption |].
    apply Hpre. cbv zeta. rewrite Eg0. cbn [bind].
    pose proof (groups_range _ Hcc') as Hgr.
    rewrite wrap8_small by lia. lay.
    rewrite (rd_fmap snd pools sg p) by (assumption || lia). cbn [bind].
    destruct (Z.geb_spec g0 (groups (snd p))); [lia |].
    assert (HS : Z.to_nat (g0 + 1) = S (Z.to_nat g0)) by lia.
    rewrite (rd_chunk _ _ _ _ _ w Hfit Hch) by (try lia; rewrite HS; assumption).
    cbn [bind]. rewrite Eb0. cbn [bind]. rewrite wrap8_small by lia.
    pose proof (lookup_lt_Some _ _ _ Ew) as HlenS.
    rewrite (wr_chunk _ _ _ ch) by (try assumption; lia).
    cbn [bind]. rewrite HS. lay.
    set (ch1 := <[S (Z.to_nat g0) := bitSet w b0]> ch).
    assert (Hch1 : <[sg := ch1]> chunks !! sg = Some ch1)
      by (apply list_lookup_insert_eq; eapply lookup_lt_Some; eassumption).
    assert (Hfit1 : Forall2 (fun p (ch : list Z) => Z.of_nat (length ch) = pool_words p)
                      pools (<[sg := ch1]> chunks)).
    { eapply chunks_fit_insert; try eassumption. unfold ch1. apply length_insert. }
    rewrite (rd_chunk _ _ _ _ _ (bitSet w b0) Hfit1 Hch1)
      by (try lia; rewrite HS; unfold ch1; apply list_lookup_insert_eq; assumption).
    cbn [bind].
    assert (Etake : chunk_take ch g0 b0 =
              if bitSet w b0 =? ALL_ONES then <[0%nat := bitSet gm g0]> ch1 else ch1).
    { unfold chunk_take. rewrite Ew, Egm. reflexivity. }
    destruct (bitSet w b0 =? ALL_ONES).
    + assert (Egm1 : ch1 !! 0%nat = Some gm)
        by (unfold ch1; rewrite list_lookup_insert_ne by lia; assumption).
      rewrite (rd_chunk_head _ _ _ _ _ Hfit1 Hch1 Egm1). cbn [bind].
      rewrite (wr_chunk_head _ _ _ ch1 _ Hfit1 Hch1)
        by (unfold ch1; rewrite length_insert; lia).
      cbn [bind]. lay. rewrite list_insert_insert_eq.
      rewrite (rd_seg_ptrs _ _ sg) by (assumption || reflexivity). cbn [bind].
      rewrite (rd_fmap fst pools sg p) by (assumption || lia). cbn [bind].
      rewrite Etake. reflexivity.
    + cbn [bind]. lay.
      rewrite (rd_seg_ptrs _ _ sg) by (assumption || reflexivity). cbn [bind].
      rewrite (rd_fmap fst pools sg p) by (assumption || lia). cbn [bind].
      rewrite Etake. reflexivity.
Qed.

(** ** Recovering the cell index *)

Lemma recover_exact sz i :
  (exists u, 1 <= u <= 16 /\ sz = 4 * u) -> 0 <= i < 1024 ->
  recover sz (i * sz) = i.
Proof.
  intros H Hi. unfold recover.
  size_cases H;
    match goal with
    | |- context [negb (Z.land ?s (?s - 1) =? 0)] =>
        let c := eval vm_compute in (negb (Z.land s (s - 1) =? 0)) in
        change (negb (Z.land s (s - 1) =? 0)) with c;
        let m := eval vm_compute in (magic_of s) in
        change (magic_of s) with m;
        let h := eval vm_compute in (shift_of s) in
        change (shift_of s) with h
    end;
    cbv iota; unfold wrap32; rewrite !Z.shiftr_div_pow2 by lia;
    change (2 ^ 2) with 4; change (2 ^ 3) with 8; change (2 ^ 4) with 16;
    change (2 ^ 5) with 32; change (2 ^ 6) with 64; change (2 ^ 16) with 65536;
    Z.div_mod_to_equations; lia.
Qed.

(** ** Pool bases *)

Lemma pool_bytes_pos p : pool_valid p -> 4 <= pool_bytes p <= 63488.
Proof. intros [(u & Hu & Hf) Hc]. unfold pool_bytes. rewrite Hf. nia. Qed.

Lemma seg_off_mono pools j k :
  Forall pool_valid pools -> (j <= k)%nat -> seg_off pools j <= seg_off pools k.
Proof.
  intros Hp Hjk. induction Hjk as [| k Hjk IH]; [lia |].
  destruct (pools !! k) as [p |] eqn:E.
  - rewrite (seg_off_S _ _ _ E).
    pose proof (pool_bytes_pos p (proj1 (Forall_lookup _ _) Hp _ _ E)). lia.
  - unfold seg_off in *. apply lookup_ge_None in E.
    rewrite (take_ge pools (S k)) by lia.
    rewrite (take_ge pools k) in IH by lia. exact IH.
Qed.

(** ** The binary search of [release] *)

Lemma release_search_spec base pools ptr (t : nat) p :
  Forall pool_valid pools -> (length pools <= 64)%nat ->
  pools !! t = Some p ->
  base + seg_off pools t <= ptr < base + seg_off pools t + pool_bytes p ->
  forall fuel l r,
    0 <= l <= Z.of_nat t + 1 -> Z.of_nat t <= r < Z.of_nat (length pools) ->
    r - l + 1 <= Z.of_nat fuel ->
    release_search fuel ptr (Live (seg_ptrs base pools)) l r (l - 1)
    = Ret (Z.of_nat t).
Proof.
  intros Hp Hn Ht Hptr.
  pose proof (seg_off_S _ _ _ Ht) as HS.
  induction fuel as [| fuel IH]; intros l r Hl Hr Hf.
  - cbn [release_search]. destruct (Z.leb_spec l r); [lia |]. f_equal. lia.
  - cbn [release_search]. destruct (Z.leb_spec l r) as [Hlr | Hlr]; [| f_equal; lia].
    assert (Hm : l <= Z.shiftr (l + r) 1 <= r).
    { rewrite Z.shiftr_div_pow2 by lia. change (2 ^ 1) with 2.
      Z.div_mod_to_equations. lia. }
    set (m := Z.shiftr (l + r) 1) in *.
    rewrite (wrap8_small m) by lia.
    rewrite (rd_seg_ptrs _ _ (Z.to_nat m)) by lia. cbn [bind].
    destruct (Z.ltb_spec ptr (base + seg_off pools (Z.to_nat m))) as [Hlt | Hge].
    + assert (Z.of_nat t < m).
      { destruct (Z.lt_ge_cases (Z.of_nat t) m) as [| Hmt]; [assumption |].
        pose proof (seg_off_mono pools (Z.to_nat m) t Hp ltac:(lia)). lia. }
      rewrite wrap8_small by lia. apply IH; lia.
    + assert (m <= Z.of_nat t).
      { destruct (Z.le_gt_cases m (Z.of_nat t)) as [| Hmt]; [assumption |].
        pose proof (seg_off_mono pools (S t) (Z.to_nat m) Hp ltac:(lia)). lia. }
      rewrite wrap8_small by lia.
      replace (to_int8 m) with (m + 1 - 1).
      2:{ unfold to_int8. rewrite wrap8_small by lia.
          destruct (Z.ltb_spec m 128); lia. }
      apply IH; lia.
Qed.

Lemma rd_fmap2 {A : Type} (f : A -> Z) (g : Z -> Z) (l : list A) (i : nat) x j :
  l !! i = Some x -> Z.of_nat i = j ->
  rd (Live (g <$> (f <$> l))) j = Ret (g (f x)).
Proof.
  intros H <-. apply rd_Live. rewrite !list_lookup_fmap, H. reflexivity.
Qed.

Lemma seg_off_0 pools : seg_off pools 0 = 0.
Proof. reflexivity. Qed.

Lemma cell_offset_range pools sg p i :
  Forall pool_valid pools -> pools !! sg = Some p -> 0 <= i < snd p ->
  0 <= i * fst p < pool_bytes p /\ i * fst p < 65536 /\
  0 <= seg_off pools sg /\
  seg_off pools sg + pool_bytes p <= sumZ (pool_bytes <$> pools).
Proof.
  intros Hval Hp Hi.
  pose proof (proj1 (Forall_lookup _ _) Hval _ _ Hp) as [(u & Hu & Hf) Hc].
  pose proof (seg_off_mono pools 0 sg Hval ltac:(lia)) as H0.
  pose proof (seg_off_mono pools (S sg) (length pools) Hval
                ltac:(pose proof (lookup_lt_Some _ _ _ Hp); lia)) as H1.
  rewrite seg_off_all, (seg_off_S _ _ _ Hp) in H1. rewrite seg_off_0 in H0.
  unfold pool_bytes in *. rewrite Hf in *. repeat split; try nia; lia.
Qed.

(** ** [release] of a cell pointer on a layout *)

Lemma release_cell base pools chunks sg p ch i :
  layout_ok base pools chunks ->
  pools !! sg = Some p -> chunks !! sg = Some ch -> 0 <= i < snd p ->
  release (base + seg_off pools sg + i * fst p)
    (layout_state base pools (concat chunks))
  = Ret (layout_state base pools
           (concat (<[sg := chunk_give ch (wrap8 i)]> chunks))).
Proof.
  intros (Hbase & Hn & Hval & Hck) Hp Hch Hi.
  pose proof (chunks_fit _ _ Hck) as Hfit.
  pose proof (Forall2_lookup_lr _ _ _ _ _ _ Hck Hp Hch) as Hok.
  pose proof (proj1 (Forall_lookup _ _) Hval _ _ Hp) as [Hsz Hcc].
  assert (Hcc' : 0 <= snd p <= 992) by lia.
  pose proof (groups_range _ Hcc') as Hgr.
  pose proof (lookup_lt_Some _ _ _ Hp) as Hsg.
  destruct (cell_offset_range _ _ _ _ Hval Hp Hi) as (Ho1 & Ho2 & Ho3 & Ho4).
  destruct (chunk_ok_head _ _ Hok Hcc') as (gm & Egm & Hwgm).
  set (j := wrap8 i).
  assert (Hj : 0 <= j < 256 /\ j <= i)
    by (unfold j, wrap8; Z.div_mod_to_equations; lia).
  assert (Hq : 0 <= j / 32 < groups (snd p))
    by (unfold groups in *; Z.div_mod_to_equations; lia).
  assert (Hr : 0 <= j mod 32 < 32) by (apply Z.mod_pos_bound; lia).
  destruct (chunk_ok_cell _ _ _ Hok Hcc' Hq) as (w & Ew & Hww).
  unfold release. cbv zeta. lay. cbn [negb].
  unfold nullptr.
  destruct (Z.eqb_spec (base + seg_off pools sg + i * fst p) 0); [lia |].
  cbn [bind].
  destruct (Z.ltb_spec (base + seg_off pools sg + i * fst p) base); [lia |].
  destruct (Z.geb_spec (base + seg_off pools sg + i * fst p)
              (base + sumZ (pool_bytes <$> pools))); [lia |].
  cbn [orb].
  rewrite wrap8_small by lia.
  change (-1) with (0 - 1) at 1.
  rewrite (release_search_spec base pools _ sg p Hval) by (try assumption; lia).
  cbn [bind].
  destruct (Z.eqb_spec (Z.of_nat sg) (-1)); [lia |].
  rewrite (rd_seg_ptrs _ _ sg) by (assumption || reflexivity). cbn [bind].
  replace (base + seg_off pools sg + i * fst p - (base + seg_off pools sg))
    with (i * fst p) by lia.
  rewrite wrap16_small by lia.
  assert (Ecell : release_cell_index (layout_state base pools (concat chunks))
                    (Z.of_nat sg) (i * fst p) = Ret j).
  { pose proof (recover_exact (fst p) i Hsz ltac:(lia)) as Hrec.
    unfold recover in Hrec. unfold j, release_cell_index. lay.
    rewrite (rd_fmap fst pools sg p) by (assumption || lia). cbn [bind].
    destruct (negb (Z.land (fst p) (fst p - 1) =? 0)).
    - rewrite (rd_fmap2 fst magic_of pools sg p) by (assumption || lia).
      cbn [bind]. rewrite Hrec. reflexivity.
    - rewrite (rd_fmap2 fst shift_of pools sg p) by (assumption || lia).
      cbn [bind]. rewrite Hrec. reflexivity. }
  rewrite Ecell. cbn [bind].
  rewrite Z.shiftr_div_pow2 by lia. change (2 ^ 5) with 32.
  change 31 with (Z.ones 5). rewrite Z.land_ones by lia. change (2 ^ 5) with 32.
  rewrite (wrap8_small (j / 32)) by lia.
  rewrite (wrap8_small (j mod 32)) by lia.
  rewrite (rd_pool_ptrs _ sg) by (assumption || reflexivity). cbn [bind].
  rewrite (rd_chunk_head _ _ _ _ _ Hfit Hch Egm). cbn [bind].
  rewrite (wr_chunk_head _ _ _ ch _ Hfit Hch)
    by (pose proof (lookup_lt_Some _ _ _ Egm); lia).
  cbn [bind]. lay.
  set (ch1 := <[0%nat := bitClear gm (j / 32)]> ch).
  assert (Hch1 : <[sg := ch1]> chunks !! sg = Some ch1)
    by (apply list_lookup_insert_eq; eapply lookup_lt_Some; eassumption).
  assert (Hfit1 : Forall2 (fun p (ch : list Z) => Z.of_nat (length ch) = pool_words p)
                    pools (<[sg := ch1]> chunks)).
  { eapply chunks_fit_insert; try eassumption. unfold ch1. apply length_insert. }
  assert (HS : Z.to_nat (j / 32 + 1) = S (Z.to_nat (j / 32))) by lia.
  assert (Ew1 : ch1 !! S (Z.to_nat (j / 32)) = Some w)
    by (unfold ch1; rewrite list_lookup_insert_ne by lia; assumption).
  rewrite (rd_chunk _ _ _ _ _ w Hfit1 Hch1) by (try lia; rewrite HS; assumption).
  cbn [bind].
  rewrite (wr_chunk _ _ _ ch1 _ _ Hfit1 Hch1)
    by (pose proof (lookup_lt_Some _ _ _ Ew1); lia).
  cbn [bind]. lay. rewrite HS, list_insert_insert_eq.
  rewrite (chunk_give_eq ch j gm w Egm Ew). reflexivity.
Qed.

(** The index [release] recovers for cell [i] is [i] cut to 8 bits. *)
Lemma release_cell_index_layout base pools pb (sg : nat) p i :
  Forall pool_valid pools -> pools !! sg = Some p -> 0 <= i < snd p ->
  release_cell_index (layout_state base pools pb) (Z.of_nat sg) (i * fst p)
  = Ret (wrap8 i).
Proof.
  intros Hval Hp Hi.
  pose proof (proj1 (Forall_lookup _ _) Hval _ _ Hp) as [Hsz Hcc].
  pose proof (lookup_lt_Some _ _ _ Hp) as Hsg.
  pose proof (recover_exact (fst p) i Hsz ltac:(lia)) as Hrec.
  unfold recover in Hrec. unfold release_cell_index. lay.
  rewrite (rd_fmap fst pools sg p) by (assumption || lia). cbn [bind].
  destruct (negb (Z.land (fst p) (fst p - 1) =? 0)).
  - rewrite (rd_fmap2 fst magic_of pools sg p) by (assumption || lia).
    cbn [bind]. rewrite Hrec. reflexivity.
  - rewrite (rd_fmap2 fst shift_of pools sg p) by (assumption || lia).
    cbn [bind]. rewrite Hrec. reflexivity.
Qed.

Lemma release_cell_index_exact base pools pb (sg : nat) p i :
  Forall pool_valid pools -> pools !! sg = Some p -> 0 <= i < snd p ->
  i < 256 ->
  release_cell_index (layout_state base pools pb) (Z.of_nat sg) (i * fst p)
  = Ret i.
Proof.
  intros Hval Hp Hi Hlt.
  rewrite (release_cell_index_layout _ _ _ _ p) by assumption.
  rewrite wrap8_small by lia. reflexivity.
Qed.

(** ** The invariant along a run *)

Lemma segment_valid_ok s : segment_valid s -> segment_ok s.
Proof. intros [H1 H2]. split; [assumption | lia]. Qed.

Lemma init_chunks_ok pools :
  Forall pool_valid pools ->
  Forall2 (fun p ch => chunk_ok (snd p) ch) pools (init_chunk <$> (snd <$> pools)).
Proof.
  induction 1 as [| p pools Hp _ IH]; [constructor |].
  rewrite !fmap_cons. constructor; [| exact IH].
  apply init_chunk_ok. exact (proj2 Hp).
Qed.

Lemma Inv_begin h segs count st :
  heap_ok h -> 1 <= count <= 64 -> Z.of_nat (length segs) = count ->
  Forall segment_valid segs ->
  begin h segs count new_mempool = Ret (true, st) -> Inv st.
Proof.
  intros Hh Hc Hlen Hval Hb.
  assert (Hne : segs <> []) by (intros ->; simpl in *; lia).
  rewrite begin_spec in Hb;
    [| assumption | assumption | assumption
     | eapply Forall_impl; [exact Hval | exact segment_valid_ok]].
  injection Hb as <-.
  pose proof (place_valid (Z.to_nat count) segs 0 Hne Hval) as Hpv.
  eexists _, _, _. split; [reflexivity |].
  split; [exact (proj2 Hh) |]. split; [rewrite length_place; lia |].
  split; [assumption |]. apply init_chunks_ok. assumption.
Qed.

Lemma max_of_nonneg pools :
  Forall pool_valid pools -> 0 <= max_of (fst <$> pools).
Proof.
  intros Hp. destruct pools as [| p pools]; [unfold max_of; simpl; lia |].
  destruct (max_of_placed (p :: pools)) as (u & Hu & ->); [discriminate | | lia].
  eapply Forall_impl; [exact Hp | exact pool_valid_placed].
Qed.

Lemma alloc_oversize base pools pb fuel size :
  max_of (fst <$> pools) < size ->
  alloc (S fuel) size (layout_state base pools pb)
  = Ret (nullptr, layout_state base pools pb).
Proof.
  intros H. cbn [alloc]. lay.
  destruct (Z.gtb_spec size (max_of (fst <$> pools))); [reflexivity | lia].
Qed.

Lemma alloc_zero base pools pb fuel :
  0 <= max_of (fst <$> pools) ->
  alloc (S fuel) 0 (layout_state base pools pb) = Undef.
Proof.
  intros H. cbn [alloc]. lay.
  destruct (Z.gtb_spec 0 (max_of (fst <$> pools))); [lia | reflexivity].
Qed.

Lemma layout_ok_insert base pools chunks sg p ch ch' :
  layout_ok base pools chunks ->
  pools !! sg = Some p -> chunks !! sg = Some ch -> chunk_ok (snd p) ch' ->
  layout_ok base pools (<[sg := ch']> chunks).
Proof.
  intros (Hb & Hn & Hv & Hck) Hp Hch Hok.
  split; [assumption |]. split; [assumption |]. split; [assumption |].
  rewrite <- (list_insert_id pools sg p Hp).
  apply Forall2_insert; assumption.
Qed.

Lemma Inv_alloc fuel : forall size p st st',
  Inv st -> 0 <= size ->
  alloc fuel size st = Ret (p, st') -> Inv st'.
Proof.
  induction fuel as [| fuel IH]; intros size p st st' HI Hs Ha; [discriminate |].
  pose proof HI as (base & pools & chunks & -> & Hlay).
  pose proof Hlay as (Hb & Hn & Hv & Hck).
  pose proof (max_of_nonneg pools Hv) as Hmx.
  destruct (Z.lt_ge_cases (max_of (fst <$> pools)) size) as [Hbig | Hfit].
  { rewrite alloc_oversize in Ha by assumption. injection Ha as _ <-. assumption. }
  destruct (Z.eq_dec size 0) as [-> | Hnz].
  { rewrite alloc_zero in Ha by assumption. discriminate. }
  destruct (alloc_cases base pools chunks fuel size Hlay ltac:(lia))
    as (sg & q & ch & _ & Hq & Hch & _ & _ & Hcase).
  destruct Hcase as [(_ & p' & Hp' & E) | [(_ & _ & E) | (g0 & b0 & _ & _ & _ & Hok & _ & _ & E)]];
    rewrite E in Ha.
  - eapply IH; [exact HI | | exact Ha].
    destruct (proj1 (proj1 (Forall_lookup _ _) Hv _ _ Hp')) as (u & Hu & ->). lia.
  - injection Ha as _ <-. assumption.
  - injection Ha as _ <-. eexists _, _, _. split; [reflexivity |].
    eapply layout_ok_insert; eassumption.
Qed.

Lemma rd_Live_inv {A : Type} (l : list A) (i : Z) (v : A) :
  rd (Live l) i = Ret v -> 0 <= i /\ l !! Z.to_nat i = Some v.
Proof.
  unfold rd. destruct (Z.ltb_spec i 0); [discriminate |].
  destruct (l !! Z.to_nat i); [| discriminate].
  intros [= ->]. split; [assumption | reflexivity].
Qed.

(** A cell pointer of a layout names a pool and a cell of it. *)
Lemma cell_pointer_layout base pools pb ptr :
  cell_pointer (layout_state base pools pb) ptr ->
  exists (sg : nat) p i,
    pools !! sg = Some p /\ 0 <= i < snd p /\
    ptr = base + seg_off pools sg + i * fst p.
Proof.
  intros (sg & i & b & sz & cc & Hsg & Hb & Hsz & Hcc & Hi & ->).
  revert Hsg Hb Hsz Hcc. lay. intros Hsg Hb Hsz Hcc.
  destruct (lookup_lt_is_Some_2 pools (Z.to_nat sg) ltac:(lia)) as [p Hp].
  rewrite (rd_seg_ptrs _ _ (Z.to_nat sg)) in Hb by lia.
  rewrite (rd_fmap fst pools (Z.to_nat sg) p) in Hsz by (assumption || lia).
  rewrite (rd_fmap snd pools (Z.to_nat sg) p) in Hcc by (assumption || lia).
  injection Hb as <-. injection Hsz as <-. injection Hcc as <-.
  exists (Z.to_nat sg), p, i. split; [assumption |]. split; [assumption | reflexivity].
Qed.

Lemma Inv_release ptr st st' :
  Inv st -> cell_pointer st ptr -> release ptr st = Ret st' -> Inv st'.
Proof.
  intros (base & pools & chunks & -> & Hlay) Hptr Hr.
  destruct (cell_pointer_layout _ _ _ _ Hptr) as (sg & p & i & Hp & Hi & ->).
  pose proof Hlay as (Hb & Hn & Hv & Hck).
  destruct (Forall2_lookup_l _ _ _ _ _ Hck Hp) as (ch & Hch & Hok).
  rewrite (release_cell _ _ _ _ _ _ _ Hlay Hp Hch Hi) in Hr. injection Hr as <-.
  eexists _, _, _. split; [reflexivity |].
  eapply layout_ok_insert; try eassumption.
  pose proof (proj2 (proj1 (Forall_lookup _ _) Hv _ _ Hp)) as Hcc.
  apply chunk_give_spec; [assumption | lia |].
  unfold wrap8. Z.div_mod_to_equations. lia.
Qed.

Lemma reachable_Inv st : reachable st -> Inv st.
Proof.
  induction 1 as [h segs count st Hh Hc Hl Hv Hb
                 | fuel size p st st' _ IH Hs Ha
                 | ptr st st' _ IH Hp Hr].
  - eapply Inv_begin; eassumption.
  - eapply Inv_alloc; [exact IH | | exact Ha]. lia.
  - eapply Inv_release; eassumption.
Qed.

(** ** From chunks to the words of the state *)

Lemma and_bits_spec w : word w -> and_bits w = (w =? ALL_ONES).
Proof.
  intros Hw. destruct (Z.eqb_spec w ALL_ONES) as [-> | Hne]; [reflexivity |].
  destruct (ctz_not32 w Hw Hne) as (j & _ & Hj & Hbit & _).
  apply not_true_is_false. intros Hall. unfold and_bits in Hall.
  rewrite forallb_forall in Hall.
  specialize (Hall (Z.to_nat j)). rewrite Z2Nat.id in Hall by lia.
  rewrite Hall in Hbit; [discriminate |].
  apply in_seq. lia.
Qed.

Lemma Inv_bitmaps_ok st : Inv st -> bitmaps_ok st.
Proof.
  intros (base & pools & chunks & -> & Hlay) sg Hsg.
  pose proof Hlay as (Hb & Hn & Hv & Hck).
  revert Hsg. lay. intros Hsg.
  pose proof (chunks_fit _ _ Hck) as Hfit.
  destruct (lookup_lt_is_Some_2 pools (Z.to_nat sg) ltac:(lia)) as [p Hp].
  destruct (Forall2_lookup_l _ _ _ _ _ Hck Hp) as (ch & Hch & Hok).
  pose proof (proj2 (proj1 (Forall_lookup _ _) Hv _ _ Hp)) as Hcc.
  assert (Hcc' : 0 <= snd p <= 992) by lia.
  pose proof (groups_range _ Hcc') as Hgr.
  destruct (chunk_ok_head _ _ Hok Hcc') as (gm & Egm & Hwgm).
  pose proof (ck_group _ _ Hok) as Hgrp. rewrite Egm in Hgrp. simpl in Hgrp.
  pose proof (ck_length _ _ Hok) as Hlen.
  assert (Hcell : forall g w, 0 <= g -> ch !! S (Z.to_nat g) = Some w ->
            cell_mask (layout_state base pools (concat chunks)) sg g = Ret w).
  { intros g w Hg Ew. unfold cell_mask. lay.
    rewrite (rd_pool_ptrs _ (Z.to_nat sg)) by lia. cbn [bind].
    apply (rd_chunk _ _ _ ch); try assumption; [lia |].
    replace (Z.to_nat (g + 1)) with (S (Z.to_nat g)) by lia. assumption. }
  exists (snd p), gm. split; [| split; [| split; [| split]]].
  - lay. apply (rd_fmap snd pools (Z.to_nat sg) p); [assumption | lia].
  - unfold group_mask. lay.
    rewrite (rd_pool_ptrs _ (Z.to_nat sg)) by lia. cbn [bind].
    eapply rd_chunk_head; eassumption.
  - intros g Hg Hg32.
    destruct (chunk_ok_cell _ _ _ Hok Hcc' Hg) as (w & Ew & Hww).
    exists w. split; [apply Hcell; [lia | assumption] |].
    rewrite Hgrp by lia. unfold chunk_full. rewrite Ew.
    symmetry. apply and_bits_spec. assumption.
  - intros g Hg. rewrite Hgrp by lia. unfold chunk_full.
    rewrite (proj2 (lookup_ge_None _ _)); [reflexivity | lia].
  - intros b Hbp.
    assert (Hq : 0 <= b / 32 < groups (snd p))
      by (unfold groups in *; Z.div_mod_to_equations; lia).
    destruct (chunk_ok_cell _ _ _ Hok Hcc' Hq) as (w & Ew & Hww).
    unfold cell_bit. rewrite (Hcell _ w) by (lia || assumption). cbn [bind].
    pose proof (ck_pad _ _ Hok b Hbp) as Hpad. unfold chunk_used in Hpad.
    rewrite Ew in Hpad. rewrite Hpad. reflexivity.
Qed.

(** ** A pair of [alloc] and [release] in pools of at most 256 cells *)

Lemma word_ext x y :
  word x -> word y ->
  (forall i, 0 <= i < 32 -> Z.testbit x i = Z.testbit y i) -> x = y.
Proof.
  intros Hx Hy H. apply Z.bits_inj'. intros i Hi.
  destruct (Z.lt_ge_cases i 32) as [Hlt | Hge].
  - apply H. lia.
  - rewrite (word_high x i Hx Hge), (word_high y i Hy Hge). reflexivity.
Qed.

(** A chunk is determined by which cells are in use. *)
Lemma chunk_ext cc ch ch' :
  chunk_ok cc ch -> chunk_ok cc ch' -> 0 <= cc <= 992 ->
  (forall b, 0 <= b -> chunk_used ch b = chunk_used ch' b) ->
  ch = ch'.
Proof.
  intros H H' Hcc Hu. pose proof (groups_range _ Hcc) as Hgr.
  pose proof (ck_length _ _ H) as Hl. pose proof (ck_length _ _ H') as Hl'.
  assert (Hcell : forall g : nat, ch !! S g = ch' !! S g).
  { intros g. destruct (Z.lt_ge_cases (Z.of_nat g) (groups cc)) as [Hg | Hg].
    - destruct (chunk_ok_cell _ _ (Z.of_nat g) H Hcc ltac:(lia)) as (w & Ew & Hw).
      destruct (chunk_ok_cell _ _ (Z.of_nat g) H' Hcc ltac:(lia)) as (w' & Ew' & Hw').
      rewrite Nat2Z.id in Ew, Ew'. rewrite Ew, Ew'. f_equal.
      apply word_ext; [assumption | assumption |]. intros i Hi.
      specialize (Hu (Z.of_nat g * 32 + i) ltac:(lia)). unfold chunk_used in Hu.
      replace ((Z.of_nat g * 32 + i) / 32) with (Z.of_nat g) in Hu
        by (Z.div_mod_to_equations; lia).
      replace ((Z.of_nat g * 32 + i) mod 32) with i in Hu
        by (Z.div_mod_to_equations; lia).
      rewrite Nat2Z.id, Ew, Ew' in Hu. exact Hu.
    - rewrite !(proj2 (lookup_ge_None _ _)) by lia. reflexivity. }
  apply list_eq. intros [| g]; [| apply Hcell].
  destruct (chunk_ok_head _ _ H Hcc) as (gm & Egm & Hw).
  destruct (chunk_ok_head _ _ H' Hcc) as (gm' & Egm' & Hw').
  rewrite Egm, Egm'. f_equal.
  apply word_ext; [assumption | assumption |]. intros g Hg.
  pose proof (ck_group _ _ H g Hg) as E. pose proof (ck_group _ _ H' g Hg) as E'.
  rewrite Egm in E. rewrite Egm' in E'. simpl in E, E'. rewrite E, E'.
  unfold chunk_full. rewrite Hcell. reflexivity.
Qed.

Lemma chunk_give_take cc ch g0 b0 :
  chunk_ok cc ch -> 0 <= cc <= 992 -> 0 <= g0 * 32 + b0 < cc ->
  chunk_used ch (g0 * 32 + b0) = false ->
  chunk_ok cc (chunk_take ch g0 b0) ->
  (forall b, 0 <= b -> b <> g0 * 32 + b0 ->
     chunk_used (chunk_take ch g0 b0) b = chunk_used ch b) ->
  chunk_give (chunk_take ch g0 b0) (g0 * 32 + b0) = ch.
Proof.
  intros H Hcc Hj Hfree Hok Hother.
  destruct (chunk_give_spec cc (chunk_take ch g0 b0) (g0 * 32 + b0) Hok Hcc Hj)
    as (Hok' & Hgiven & Hrest).
  apply (chunk_ext cc); [assumption | assumption | assumption |].
  intros b Hb. destruct (Z.eq_dec b (g0 * 32 + b0)) as [-> | Hne].
  - rewrite Hgiven, Hfree. reflexivity.
  - rewrite Hrest, Hother by assumption. reflexivity.
Qed.

(** In pools of at most 256 cells [release] undoes [alloc]. *)
Lemma alloc_release_restores fuel : forall size base pools chunks p st',
  layout_ok base pools chunks -> Forall (fun q => snd q <= 256) pools ->
  0 <= size ->
  alloc fuel size (layout_state base pools (concat chunks)) = Ret (p, st') ->
  p <> nullptr ->
  release p st' = Ret (layout_state base pools (concat chunks)).
Proof.
  induction fuel as [| fuel IH]; intros size base pools chunks p st' Hlay Hsmall Hs Ha Hp;
    [discriminate |].
  pose proof Hlay as (Hb & Hn & Hv & Hck).
  pose proof (max_of_nonneg pools Hv) as Hmx.
  destruct (Z.lt_ge_cases (max_of (fst <$> pools)) size) as [Hbig | Hfit].
  { rewrite alloc_oversize in Ha by assumption. injection Ha as <- _. contradiction. }
  destruct (Z.eq_dec size 0) as [-> | Hnz].
  { rewrite alloc_zero in Ha by assumption. discriminate. }
  destruct (alloc_cases base pools chunks fuel size Hlay ltac:(lia))
    as (sg & q & ch & _ & Hq & Hch & _ & _ & Hcase).
  destruct Hcase as [(_ & q' & Hq' & E) | [(_ & _ & E) | (g0 & b0 & Hj & Hfree & _ & Hok & _ & Hother & E)]];
    rewrite E in Ha.
  - apply (IH (fst q')); try assumption.
    destruct (proj1 (proj1 (Forall_lookup _ _) Hv _ _ Hq')) as (u & Hu & ->). lia.
  - injection Ha as <- _. contradiction.
  - injection Ha as <- <-.
    pose proof (proj2 (proj1 (Forall_lookup _ _) Hv _ _ Hq)) as Hcc.
    pose proof (proj1 (Forall_lookup _ _) Hsmall _ _ Hq) as Hc256. cbn beta in Hc256.
    pose proof (Forall2_lookup_lr _ _ _ _ _ _ Hck Hq Hch) as Hch_ok.
    rewrite (release_cell base pools _ sg q (chunk_take ch g0 b0) (g0 * 32 + b0)).
    + rewrite wrap8_small by lia. rewrite list_insert_insert_eq.
      rewrite (chunk_give_take (snd q)) by (assumption || lia).
      rewrite list_insert_id by assumption. reflexivity.
    + eapply layout_ok_insert; eassumption.
    + assumption.
    + apply list_lookup_insert_eq. eapply lookup_lt_Some. eassumption.
    + assumption.
Qed.

(** ** A pool after [begin] is free *)

Lemma init_chunk_free cc b :
  1 <= cc <= 992 -> 0 <= b < cc -> chunk_used (init_chunk cc) b = false.
Proof.
  intros Hcc Hb. pose proof (groups_range cc ltac:(lia)) as Hg.
  assert (Hq : 0 <= b / 32 < groups cc)
    by (unfold groups in *; Z.div_mod_to_equations; lia).
  assert (Hm : 0 <= cc mod 32 < 32) by (apply Z.mod_pos_bound; lia).
  assert (Hbm : 0 <= b mod 32 < 32) by (apply Z.mod_pos_bound; lia).
  unfold chunk_used. rewrite init_chunk_lookup by lia.
  destruct (decide (S (Z.to_nat (b / 32)) = Z.to_nat (groups cc))) as [E | E].
  - destruct (init_mask_spec (cc mod 32) Hm) as [_ Hbits].
    rewrite Hbits by lia.
    destruct (Z.eqb_spec (cc mod 32) 0); [apply andb_false_r |].
    destruct (Z.leb_spec (cc mod 32) (b mod 32)); [| reflexivity].
    exfalso. unfold groups in *. Z.div_mod_to_equations. lia.
  - rewrite decide_False by lia. apply Z.bits_0.
Qed.

Lemma used_below_init cc : 1 <= cc <= 992 -> used_below cc 0 (init_chunk cc).
Proof.
  intros Hcc b Hb. rewrite init_chunk_free by assumption.
  destruct (Z.ltb_spec b 0); [lia | reflexivity].
Qed.

(** ** A single pool filled cell by cell *)

Lemma cell_addrs_lookup base sz n : forall k (j : nat),
  (j < n)%nat ->
  cell_addrs base sz k n !! j = Some (base + (k + Z.of_nat j) * sz).
Proof.
  induction n as [| n IH]; intros k j Hj; [lia |].
  destruct j as [| j]; simpl.
  - do 2 f_equal. lia.
  - rewrite IH by lia. do 2 f_equal. lia.
Qed.

Lemma length_cell_addrs base sz n : forall k, length (cell_addrs base sz k n) = n.
Proof. induction n as [| n IH]; intros k; simpl; [| rewrite IH]; reflexivity. Qed.

Section Single.
Variables (base sz cc : Z).
Hypothesis Hpool : pool_valid (sz, cc).
Hypothesis Hbase : 0 < base.

Lemma single_layout_ok ch :
  chunk_ok cc ch -> layout_ok base [(sz, cc)] [ch].
Proof.
  intros Hok. split; [assumption |]. split; [simpl; lia |].
  split; [constructor; [assumption | constructor] |].
  constructor; [assumption | constructor].
Qed.

Lemma single_max : max_of (fst <$> [(sz, cc)]) = sz.
Proof. reflexivity. Qed.

Lemma single_alloc_next fuel k ch :
  chunk_ok cc ch -> used_below cc k ch -> 0 <= k < cc ->
  exists ch',
    alloc (S fuel) sz (layout_state base [(sz, cc)] (concat [ch]))
    = Ret (base + k * sz, layout_state base [(sz, cc)] (concat [ch'])) /\
    chunk_ok cc ch' /\ used_below cc (k + 1) ch'.
Proof.
  intros Hok Hused Hk.
  destruct Hpool as [(u & Hu & Hsz) Hcc]. simpl in Hsz, Hcc.
  destruct (alloc_cases base [(sz, cc)] [ch] fuel sz (single_layout_ok ch Hok))
    as (sg & p & ch0 & _ & Hp & Hch & _ & _ & Hcase).
  { rewrite single_max. lia. }
  destruct sg as [| sg]; [| discriminate].
  injection Hp as <-. injection Hch as <-. simpl snd in *. simpl fst in *.
  destruct Hcase as [(_ & p' & Hp' & _) | [(Hex & _) | (g0 & b0 & Hm & Hfree & Hlow & Hok' & Hset & Hoth & E)]].
  - discriminate.
  - specialize (Hex k Hk). rewrite (Hused k Hk) in Hex.
    destruct (Z.ltb_spec k k); [lia | discriminate].
  - assert (Em : g0 * 32 + b0 = k).
    { rewrite (Hused _ Hm) in Hfree.
      destruct (Z.ltb_spec (g0 * 32 + b0) k); [discriminate |].
      destruct (Z.eq_dec (g0 * 32 + b0) k) as [| Hne]; [assumption |].
      specialize (Hlow k ltac:(lia)). rewrite (Hused k Hk) in Hlow.
      destruct (Z.ltb_spec k k); [lia | discriminate]. }
    rewrite Em in *. exists (chunk_take ch g0 b0).
    split; [| split; [assumption |]].
    + rewrite E. unfold seg_off. simpl. do 2 f_equal. lia.
    + intros b Hb. destruct (Z.eq_dec b k) as [-> | Hne].
      * rewrite Hset. destruct (Z.ltb_spec k (k + 1)); [reflexivity | lia].
      * rewrite Hoth by lia. rewrite (Hused b Hb).
        destruct (Z.ltb_spec b k), (Z.ltb_spec b (k + 1)); lia || reflexivity.
Qed.

Lemma single_alloc_full fuel ch :
  chunk_ok cc ch -> used_below cc cc ch ->
  alloc (S fuel) sz (layout_state base [(sz, cc)] (concat [ch]))
  = Ret (nullptr, layout_state base [(sz, cc)] (concat [ch])).
Proof.
  intros Hok Hused.
  destruct Hpool as [(u & Hu & Hsz) Hcc]. simpl in Hsz, Hcc.
  destruct (alloc_cases base [(sz, cc)] [ch] fuel sz (single_layout_ok ch Hok))
    as (sg & p & ch0 & _ & Hp & Hch & _ & _ & Hcase).
  { rewrite single_max. lia. }
  destruct sg as [| sg]; [| discriminate].
  injection Hp as <-. injection Hch as <-. simpl snd in *. simpl fst in *.
  destruct Hcase as [(_ & p' & Hp' & _) | [(_ & _ & E) | (g0 & b0 & Hm & Hfree & _)]].
  - discriminate.
  - assumption.
  - rewrite (Hused _ Hm) in Hfree.
    destruct (Z.ltb_spec (g0 * 32 + b0) cc); [discriminate | lia].
Qed.

Lemma single_alloc_run fuel n : forall k ch,
  chunk_ok cc ch -> used_below cc k ch -> 0 <= k -> k + Z.of_nat n <= cc ->
  exists ch',
    alloc_n n (S fuel) sz (layout_state base [(sz, cc)] (concat [ch]))
    = Ret (cell_addrs base sz k n,
           layout_state base [(sz, cc)] (concat [ch'])) /\
    chunk_ok cc ch' /\ used_below cc (k + Z.of_nat n) ch'.
Proof.
  induction n as [| n IH]; intros k ch Hok Hused Hk Hn.
  - exists ch. split; [reflexivity |]. split; [assumption |].
    rewrite Z.add_0_r. assumption.
  - destruct (single_alloc_next fuel k ch Hok Hused ltac:(lia))
      as (ch1 & E1 & Hok1 & Hused1).
    destruct (IH (k + 1) ch1 Hok1 Hused1 ltac:(lia) ltac:(lia))
      as (ch2 & E2 & Hok2 & Hused2).
    exists ch2. split; [| split; [assumption |]].
    + cbn [alloc_n]. rewrite E1. cbn [bind fst snd]. rewrite E2. reflexivity.
    + replace (k + Z.of_nat (S n)) with (k + 1 + Z.of_nat n) by lia. assumption.
Qed.
End Single.

Lemma place_single s :
  place 1 [s] 0 = [(wrap16 (segment.size s * SEGMENT_STEP), segment.count s)].
Proof.
  cbn [place]. unfold next_index. cbn [next_from].
  destruct ((segment.size s >? 0) && (segment.size s <? wrap16 (-1))); reflexivity.
Qed.

Lemma begin_single h u N :
  heap_ok h -> 1 <= u <= 16 -> 1 <= N <= 992 ->
  begin h [segment.mk N u] 1 new_mempool
  = Ret (true, layout_state (arena_addr h) [(4 * u, N)] (concat [init_chunk N])).
Proof.
  intros Hh Hu HN.
  rewrite begin_spec; try assumption; try lia; try reflexivity.
  - change (Z.to_nat 1) with 1%nat. rewrite place_single. cbn [segment.size segment.count].
    unfold SEGMENT_STEP. rewrite wrap16_small by lia.
    replace (u * 4) with (4 * u) by lia. reflexivity.
  - constructor; [| constructor]. split; simpl; lia.
Qed.

Lemma cell_addrs_inv base sz n (j : nat) p :
  cell_addrs base sz 0 n !! j = Some p ->
  (j < n)%nat /\ p = base + Z.of_nat j * sz.
Proof.
  intros H. pose proof (lookup_lt_Some _ _ _ H) as Hj.
  rewrite length_cell_addrs in Hj. split; [assumption |].
  rewrite cell_addrs_lookup in H by assumption. injection H as <-. f_equal.
Qed.

(** ** Escalation *)

Lemma group_mask_layout base pools chunks (sg : nat) p ch gm :
  layout_ok base pools chunks ->
  pools !! sg = Some p -> chunks !! sg = Some ch -> ch !! 0%nat = Some gm ->
  group_mask (layout_state base pools (concat chunks)) (Z.of_nat sg) = Ret gm.
Proof.
  intros (_ & _ & _ & Hck) Hp Hch Hgm. unfold group_mask. lay.
  rewrite (rd_pool_ptrs _ sg) by (try reflexivity; eapply lookup_lt_Some; eassumption).
  cbn [bind]. eapply rd_chunk_head; [apply chunks_fit | |]; eassumption.
Qed.

Lemma sizes_increasing_layout base pools pb :
  sizes_increasing (layout_state base pools pb) ->
  strictly_increasing (fst <$> pools).
Proof. intros (szs & E & H). revert E. lay. intros [= <-]. assumption. Qed.

Lemma gtb_true x y : y < x -> (x >? y) = true.
Proof. intros H. apply Z.gtb_lt. assumption. Qed.

Lemma gtb_false x y : x <= y -> (x >? y) = false.
Proof. intros H. rewrite Z.gtb_ltb. apply Z.ltb_ge. assumption. Qed.

Lemma ltb_true x y : x < y -> (x <? y) = true.
Proof. intros H. apply Z.ltb_lt. assumption. Qed.

Lemma ltb_false x y : y <= x -> (x <? y) = false.
Proof. intros H. apply Z.ltb_ge. assumption. Qed.

Ltac decide_cmp :=
  repeat (match goal with
          | |- context [?x >? ?y] =>
              (rewrite (gtb_true x y) by lia) || (rewrite (gtb_false x y) by lia)
          | |- context [?x <? ?y] =>
              (rewrite (ltb_true x y) by lia) || (rewrite (ltb_false x y) by lia)
          end; cbn [andb]; cbv iota).

Lemma place_pair a b :
  0 < segment.size a < segment.size b -> segment.size b < 65535 ->
  place 2 [a; b] 0
  = [(wrap16 (segment.size a * SEGMENT_STEP), segment.count a);
     (wrap16 (segment.size b * SEGMENT_STEP), segment.count b)] /\
  place 2 [b; a] 0
  = [(wrap16 (segment.size a * SEGMENT_STEP), segment.count a);
     (wrap16 (segment.size b * SEGMENT_STEP), segment.count b)].
Proof.
  intros H Hb.
  assert (E1 : next_index [a; b] 0 = 0).
  { unfold next_index, wrap16. change ((-1) mod 65536) with 65535.
    cbn [next_from]. decide_cmp. reflexivity. }
  assert (E2 : next_index [a; b] (segment.size a) = 1).
  { unfold next_index, wrap16. change ((-1) mod 65536) with 65535.
    cbn [next_from]. decide_cmp. reflexivity. }
  assert (E3 : next_index [b; a] 0 = 1).
  { unfold next_index, wrap16. change ((-1) mod 65536) with 65535.
    cbn [next_from]. decide_cmp. reflexivity. }
  assert (E4 : next_index [b; a] (segment.size a) = 0).
  { unfold next_index, wrap16. change ((-1) mod 65536) with 65535.
    cbn [next_from]. decide_cmp. reflexivity. }
  split; cbn [place].
  - rewrite E1. change (seg_at [a; b] 0) with a. rewrite E2. reflexivity.
  - rewrite E3. change (seg_at [b; a] 1) with a. rewrite E4. reflexivity.
Qed.

(** [alloc_cases] when the pool a size resolves to is known. *)
Lemma alloc_at base pools chunks fuel size (k : nat) p ch :
  layout_ok base pools chunks ->
  1 <= size <= max_of (fst <$> pools) ->
  pools !! k = Some p -> chunks !! k = Some ch -> size <= fst p ->
  (forall (j : nat) p', (j < k)%nat -> pools !! j = Some p' -> fst p' < size) ->
  (chunk_exhausted (snd p) ch /\
   exists p', pools !! S k = Some p' /\
     alloc (S fuel) size (layout_state base pools (concat chunks))
     = alloc fuel (fst p') (layout_state base pools (concat chunks)))
  \/ (chunk_exhausted (snd p) ch /\ S k = length pools /\
      alloc (S fuel) size (layout_state base pools (concat chunks))
      = Ret (nullptr, layout_state base pools (concat chunks)))
  \/ (exists g0 b0,
        0 <= g0 * 32 + b0 < snd p /\
        chunk_used ch (g0 * 32 + b0) = false /\
        (forall b, 0 <= b < g0 * 32 + b0 -> chunk_used ch b = true) /\
        chunk_ok (snd p) (chunk_take ch g0 b0) /\
        chunk_used (chunk_take ch g0 b0) (g0 * 32 + b0) = true /\
        (forall b, 0 <= b -> b <> g0 * 32 + b0 ->
           chunk_used (chunk_take ch g0 b0) b = chunk_used ch b) /\
        alloc (S fuel) size (layout_state base pools (concat chunks))
        = Ret (base + seg_off pools k + (g0 * 32 + b0) * fst p,
               layout_state base pools
                 (concat (<[k := chunk_take ch g0 b0]> chunks)))).
Proof.
  intros Hlay Hs Hp Hch Hle Hlow.
  destruct (alloc_cases base pools chunks fuel size Hlay Hs)
    as (sg & p0 & ch0 & _ & Hp0 & Hch0 & Hle0 & Hlow0 & Hcase).
  assert (sg = k) as ->.
  { destruct (Nat.lt_trichotomy sg k) as [Hlt | [E | Hgt]]; [| exact E |].
    - specialize (Hlow sg p0 Hlt Hp0). lia.
    - specialize (Hlow0 k p Hgt Hp). lia. }
  rewrite Hp in Hp0. injection Hp0 as <-.
  rewrite Hch in Hch0. injection Hch0 as <-.
  exact Hcase.
Qed.

Section Pair.
Variables (base u1 u2 : Z).
Hypothesis Hbase : 0 < base.
Hypothesis Hu : 1 <= u1 < u2 /\ u2 <= 16.

Let pools := [(4 * u1, 1); (4 * u2, 1)].

Lemma pair_layout_ok ch1 ch2 :
  chunk_ok 1 ch1 -> chunk_ok 1 ch2 -> layout_ok base pools [ch1; ch2].
Proof.
  intros H1 H2. split; [assumption |]. split; [simpl; lia |]. split.
  - constructor; [| constructor; [| constructor]].
    + split; [exists u1; split; [lia | reflexivity] | simpl; lia].
    + split; [exists u2; split; [lia | reflexivity] | simpl; lia].
  - constructor; [assumption |]. constructor; [assumption | constructor].
Qed.

Lemma pair_max : max_of (fst <$> pools) = 4 * u2.
Proof. reflexivity. Qed.

(** The first request that fits the small size takes the only small
    cell. *)
Lemma pair_first fuel size0 :
  1 <= size0 <= 4 * u1 ->
  exists ch1,
    alloc (S fuel) size0
      (layout_state base pools (concat [init_chunk 1; init_chunk 1]))
    = Ret (base, layout_state base pools (concat [ch1; init_chunk 1])) /\
    chunk_ok 1 ch1 /\ chunk_used ch1 0 = true.
Proof.
  intros Hs0.
  assert (Hlay : layout_ok base pools [init_chunk 1; init_chunk 1])
    by (apply pair_layout_ok; apply init_chunk_ok; lia).
  assert (Hs : 1 <= size0 <= max_of (fst <$> pools)) by (rewrite pair_max; lia).
  assert (Hlow : forall (j : nat) (p' : Z * Z),
             (j < 0)%nat -> pools !! j = Some p' -> fst p' < size0)
    by (intros j p' Hj; lia).
  destruct (alloc_at base pools [init_chunk 1; init_chunk 1] fuel size0
              0 (4 * u1, 1) (init_chunk 1) Hlay Hs eq_refl eq_refl
              ltac:(simpl; lia) Hlow)
    as [(Hex & _) | [(Hex & _) | (g0 & b0 & Hm & _ & _ & Hok & Hset & _ & E)]].
  - specialize (Hex 0 ltac:(simpl; lia)). rewrite init_chunk_free in Hex by lia. discriminate.
  - specialize (Hex 0 ltac:(simpl; lia)). rewrite init_chunk_free in Hex by lia. discriminate.
  - simpl snd in *. simpl fst in *.
    assert (E0 : g0 * 32 + b0 = 0) by lia. rewrite E0 in *.
    exists (chunk_take (init_chunk 1) g0 b0). split; [| split; assumption].
    rewrite E. unfold seg_off. simpl. do 2 f_equal. lia.
Qed.

(** With the small cell taken, a request that fits it is served from the
    large pool. *)
Lemma pair_second fuel size ch1 :
  chunk_ok 1 ch1 -> chunk_used ch1 0 = true -> 1 <= size <= 4 * u1 ->
  exists ch2,
    alloc (S (S fuel)) size
      (layout_state base pools (concat [ch1; init_chunk 1]))
    = Ret (base + 4 * u1, layout_state base pools (concat [ch1; ch2])).
Proof.
  intros Hok1 Hused1 Hs.
  pose proof (pair_layout_ok ch1 (init_chunk 1) Hok1 (init_chunk_ok 1 ltac:(lia))) as Hlay.
  assert (Hs1 : 1 <= size <= max_of (fst <$> pools)) by (rewrite pair_max; lia).
  assert (Hlow1 : forall (j : nat) (p' : Z * Z),
             (j < 0)%nat -> pools !! j = Some p' -> fst p' < size)
    by (intros j p' Hj; lia).
  destruct (alloc_at base pools [ch1; init_chunk 1] (S fuel) size
              0 (4 * u1, 1) ch1 Hlay Hs1 eq_refl eq_refl ltac:(simpl; lia) Hlow1)
    as [(_ & p' & Hp' & E) | [(_ & Hlast & _) | (g0 & b0 & Hm & Hfree & _)]].
  - injection Hp' as <-. rewrite E. simpl fst.
    assert (Hs2 : 1 <= 4 * u2 <= max_of (fst <$> pools)) by (rewrite pair_max; lia).
    assert (Hlow2 : forall (j : nat) (p' : Z * Z),
               (j < 1)%nat -> pools !! j = Some p' -> fst p' < 4 * u2).
    { intros [| j] p0 Hj Hp0; [| lia]. injection Hp0 as <-. simpl. lia. }
    destruct (alloc_at base pools [ch1; init_chunk 1] fuel (4 * u2)
                1 (4 * u2, 1) (init_chunk 1) Hlay Hs2 eq_refl eq_refl
                ltac:(simpl; lia) Hlow2)
      as [(_ & p'' & Hp'' & _) | [(Hex & _) | (g0 & b0 & Hm & _ & _ & _ & _ & _ & E2)]].
    + discriminate.
    + specialize (Hex 0 ltac:(simpl; lia)).
      rewrite init_chunk_free in Hex by lia. discriminate.
    + simpl snd in *. simpl fst in *.
      assert (E0 : g0 * 32 + b0 = 0) by lia. rewrite E0 in *.
      exists (chunk_take (init_chunk 1) g0 b0). rewrite E2.
      unfold seg_off, pool_bytes. simpl. do 2 f_equal. lia.
  - simpl in Hlast. lia.
  - simpl snd in *. assert (E0 : g0 * 32 + b0 = 0) by lia.
    rewrite E0 in *. congruence.
Qed.
End Pair.

(** ** The scenario state *)

Lemma scenario_heap_ok : heap_ok scenario_heap.
Proof. split; [reflexivity | simpl; lia]. Qed.

Lemma scenario_begin :
  begin scenario_heap scenario_segs 2 new_mempool = Ret (true, scenario_state).
Proof. vm_compute. reflexivity. Qed.

Lemma scenario_segs_valid : Forall segment_valid scenario_segs.
Proof.
  unfold scenario_segs.
  repeat constructor; apply Z.leb_le; reflexivity.
Qed.

Lemma scenario_reachable : reachable scenario_state.
Proof.
  apply (reach_begin scenario_heap scenario_segs 2).
  - exact scenario_heap_ok.
  - lia.
  - reflexivity.
  - exact scenario_segs_valid.
  - exact scenario_begin.
Qed.

Lemma scenario_sizes_increasing : sizes_increasing scenario_state.
Proof.
  exists [4; 16]. split; [reflexivity |].
  intros [| [| i]] [| [| j]] x y Hx Hy Hij; simpl in Hx, Hy;
    try discriminate; try lia.
  injection Hx as <-. injection Hy as <-. lia.
Qed.

(** ** Termination of [alloc] *)

Lemma increasing_le_max (szs : list Z) (k : nat) s :
  strictly_increasing szs -> szs !! k = Some s -> s <= max_of szs.
Proof.
  intros Hinc Hk.
  assert (Hne : szs <> []) by (intros ->; discriminate).
  pose proof (max_of_lookup szs Hne) as Hm.
  pose proof (lookup_lt_Some _ _ _ Hk) as Hlt.
  destruct (Nat.eq_dec k (Z.to_nat (Z.of_nat (length szs) - 1))) as [-> | Hn].
  - rewrite Hm in Hk. injection Hk as <-. lia.
  - assert (s < max_of szs); [| lia].
    apply (Hinc k (Z.to_nat (Z.of_nat (length szs) - 1))); [assumption .. | lia].
Qed.

Lemma alloc_returns_from base pools chunks :
  layout_ok base pools chunks -> strictly_increasing (fst <$> pools) ->
  forall fuel size (k : nat) p,
    1 <= size -> pools !! k = Some p -> size <= fst p ->
    (forall (j : nat) p', (j < k)%nat -> pools !! j = Some p' -> fst p' < size) ->
    (length pools - k <= fuel)%nat ->
    exists r, alloc fuel size (layout_state base pools (concat chunks)) = Ret r.
Proof.
  intros Hlay Hinc. pose proof Hlay as (Hb & Hn & Hv & Hck).
  induction fuel as [| fuel IH]; intros size k p Hs Hp Hle Hlow Hfuel.
  - pose proof (lookup_lt_Some _ _ _ Hp). lia.
  - destruct (Forall2_lookup_l _ _ _ _ _ Hck Hp) as (ch & Hch & _).
    assert (Hmax : 1 <= size <= max_of (fst <$> pools)).
    { split; [assumption |].
      pose proof (increasing_le_max (fst <$> pools) k (fst p) Hinc) as H.
      rewrite list_lookup_fmap, Hp in H. specialize (H eq_refl). lia. }
    destruct (alloc_at base pools chunks fuel size k p ch Hlay Hmax Hp Hch Hle Hlow)
      as [(_ & p' & Hp' & E) | [(_ & _ & E) | (g0 & b0 & _ & _ & _ & _ & _ & _ & E)]];
      rewrite E; [| eexists; reflexivity ..].
    pose proof (lookup_lt_Some _ _ _ Hp') as Hlt.
    apply (IH (fst p') (S k) p'); [| assumption | lia | | lia].
    + destruct (proj1 (proj1 (Forall_lookup _ _) Hv _ _ Hp')) as (u & Hu & ->). lia.
    + intros j q Hj Hq.
      apply (Hinc j (S k)); [| | lia]; rewrite list_lookup_fmap.
      * rewrite Hq. reflexivity.
      * rewrite Hp'. reflexivity.
Qed.

Lemma alloc_returns st size fuel :
  Inv st -> sizes_increasing st -> 1 <= size ->
  _segment_count st <= Z.of_nat fuel ->
  exists r, alloc fuel size st = Ret r.
Proof.
  intros (base & pools & chunks & -> & Hlay) Hinc Hs Hfuel.
  apply sizes_increasing_layout in Hinc.
  revert Hfuel. lay. intros Hfuel.
  pose proof Hlay as (Hb & Hn & Hv & Hck).
  destruct fuel as [| fuel]; [lia |].
  destruct (Z.lt_ge_cases (max_of (fst <$> pools)) size) as [Hbig | Hfit].
  { rewrite alloc_oversize by assumption. eexists. reflexivity. }
  assert (Hne : pools <> []) by (intros ->; simpl in Hn; lia).
  assert (Hpl : Forall pool_placed pools)
    by (eapply Forall_impl; [exact Hv | exact pool_valid_placed]).
  destruct (resolve_spec pools size Hne Hpl ltac:(lia)) as (k & p & _ & Hp & Hle & Hlow).
  apply (alloc_returns_from base pools chunks Hlay Hinc (S fuel) size k p);
    try assumption. lia.
Qed.

(** ** Descriptors the placement rejects *)

Lemma above_range c segs : 0 <= above c segs <= Z.of_nat (length segs).
Proof.
  induction segs as [| s segs IH]; simpl; [lia |].
  destruct (c <? segment.size s); lia.
Qed.

Lemma above_mono c c' segs : c <= c' -> above c' segs <= above c segs.
Proof.
  intros H. induction segs as [| s segs IH]; simpl; [lia |].
  destruct (Z.ltb_spec c' (segment.size s)), (Z.ltb_spec c (segment.size s)); lia.
Qed.

Lemma above_strict c c' segs s :
  s ∈ segs -> c < segment.size s <= c' -> above c' segs + 1 <= above c segs.
Proof.
  intros Hin Hs. induction segs as [| x segs IH]; [inversion Hin |].
  simpl. apply elem_of_cons in Hin as [<- | Hin].
  - pose proof (above_mono c c' segs ltac:(lia)).
    destruct (Z.ltb_spec c' (segment.size s)), (Z.ltb_spec c (segment.size s)); lia.
  - specialize (IH Hin).
    destruct (Z.ltb_spec c' (segment.size x)), (Z.ltb_spec c (segment.size x)); lia.
Qed.

Lemma above_pos c segs s :
  s ∈ segs -> c < segment.size s -> 1 <= above c segs.
Proof.
  intros Hin Hs. induction segs as [| x segs IH]; [inversion Hin |].
  simpl. pose proof (above_range c segs).
  apply elem_of_cons in Hin as [<- | Hin].
  - destruct (Z.ltb_spec c (segment.size s)); lia.
  - specialize (IH Hin). destruct (c <? segment.size x); lia.
Qed.

(** [_get_next_segment] returns a larger descriptor when there is one. *)
Lemma next_from_picks arr : forall pre current find ret,
  Forall segment_wf (pre ++ arr) ->
  (find = 65535 /\ ret = 0 /\ (forall s, s ∈ pre -> segment.size s <= current))
  \/ (0 <= ret < Z.of_nat (length pre) /\
      current < segment.size (seg_at (pre ++ arr) ret)) ->
  let r := next_from arr (Z.of_nat (length pre)) current find ret in
  (forall s, s ∈ pre ++ arr -> segment.size s <= current)
  \/ (0 <= r < Z.of_nat (length (pre ++ arr)) /\
      current < segment.size (seg_at (pre ++ arr) r)).
Proof.
  induction arr as [| s arr IH]; intros pre current find ret Hwf Hst r.
  - subst r. simpl. rewrite app_nil_r in *.
    destruct Hst as [(_ & _ & H) | H]; [left | right]; assumption.
  - subst r. cbn [next_from].
    replace (Z.of_nat (length pre) + 1) with (Z.of_nat (length (pre ++ [s])))
      by (rewrite length_app; simpl; lia).
    replace (pre ++ s :: arr) with ((pre ++ [s]) ++ arr) in *
      by (rewrite <- app_assoc; reflexivity).
    assert (Hs : 0 <= segment.size s < 256).
    { apply (proj1 (Forall_forall _ _) Hwf s). rewrite <- app_assoc.
      apply elem_of_app. right. left. }
    assert (Eat : seg_at ((pre ++ [s]) ++ arr) (Z.of_nat (length pre)) = s).
    { rewrite <- app_assoc. apply seg_at_app_r. }
    destruct ((segment.size s >? current) && (segment.size s <? find)) eqn:Ec.
    + apply IH; [assumption |]. right.
      apply andb_true_iff in Ec as [Ec _]. apply Z.gtb_lt in Ec.
      rewrite Eat. rewrite length_app. simpl. lia.
    + apply IH; [assumption |].
      destruct Hst as [(Hf & Hr & Hall) | [Hr Hc]].
      * left. split; [assumption |]. split; [assumption |].
        intros x Hx. apply elem_of_app in Hx as [Hx | Hx]; [apply Hall; assumption |].
        apply list_elem_of_singleton in Hx. subst x.
        apply andb_false_iff in Ec as [Ec | Ec].
        -- rewrite Z.gtb_ltb in Ec. apply Z.ltb_ge in Ec. assumption.
        -- apply Z.ltb_ge in Ec. lia.
      * right. split; [rewrite length_app; simpl; lia | assumption].
Qed.

Lemma next_index_picks segs current s :
  Forall segment_wf segs -> s ∈ segs -> current < segment.size s ->
  let sx := seg_at segs (next_index segs current) in
  sx ∈ segs /\ current < segment.size sx.
Proof.
  intros Hwf Hin Hs sx.
  destruct (next_from_picks segs [] current (wrap16 (-1)) 0 Hwf) as [Hall | [Hr Hc]].
  - left. split; [reflexivity |]. split; [reflexivity |]. intros x Hx. inversion Hx.
  - specialize (Hall s Hin). lia.
  - split; [| exact Hc]. apply seg_at_elem. exact Hr.
Qed.

Lemma place_passes_nonzero n : forall i segs current k,
  place_passes n i segs current = true -> i <= k < i + Z.of_nat n ->
  segment.size (seg_at segs k) <> 0.
Proof.
  induction n as [| n IH]; intros i segs current k Hp Hk; [lia |].
  cbn [place_passes] in Hp.
  apply andb_true_iff in Hp as [Hp Hrest]. apply andb_true_iff in Hp as [Hz _].
  destruct (Z.eq_dec k i) as [-> | Hne].
  - destruct (Z.eqb_spec (segment.size (seg_at segs i)) 0); [discriminate | assumption].
  - eapply IH; [exact Hrest | lia].
Qed.

Lemma place_passes_bound n : forall i segs current s,
  Forall segment_wf segs -> place_passes n i segs current = true ->
  0 <= current <= 16 -> s ∈ segs -> 16 < segment.size s ->
  Z.of_nat n + 1 <= above current segs.
Proof.
  induction n as [| n IH]; intros i segs current s Hwf Hp Hc Hin Hs.
  - pose proof (above_pos current segs s Hin ltac:(lia)). lia.
  - cbn [place_passes] in Hp.
    apply andb_true_iff in Hp as [Hp Hrest]. apply andb_true_iff in Hp as [_ Hsz].
    destruct (next_index_picks segs current s Hwf Hin ltac:(lia)) as [Hxin Hxc].
    set (sx := seg_at segs (next_index segs current)) in *.
    pose proof (proj1 (Forall_forall _ _) Hwf sx Hxin) as [_ Hxw].
    unfold SEGMENT_STEP in Hsz. rewrite wrap16_small in Hsz by lia.
    destruct (Z.gtb_spec (segment.size sx * 4) 64); [discriminate |].
    pose proof (IH (i + 1) segs (segment.size sx) s Hwf Hrest ltac:(lia) Hin Hs).
    pose proof (above_strict current (segment.size sx) segs sx Hxin ltac:(lia)).
    lia.
Qed.

Lemma place_rejects segs :
  Forall segment_wf segs ->
  Exists (fun s => segment.size s = 0 \/ 64 < segment.size s * SEGMENT_STEP) segs ->
  place_passes (length segs) 0 segs 0 = false.
Proof.
  intros Hwf Hex. apply not_true_is_false. intros Hp.
  apply Exists_exists in Hex as (s & Hin & Hs).
  destruct Hs as [Hz | Hbig].
  - apply list_elem_of_lookup in Hin as [k Hk].
    pose proof (lookup_lt_Some _ _ _ Hk) as Hlt.
    apply (place_passes_nonzero _ _ _ _ (Z.of_nat k) Hp); [lia |].
    unfold seg_at. rewrite Nat2Z.id, Hk. exact Hz.
  - unfold SEGMENT_STEP in Hbig.
    pose proof (place_passes_bound _ 0 segs 0 s Hwf Hp ltac:(lia) Hin ltac:(lia)).
    pose proof (above_range 0 segs). lia.
Qed.

(** ** [begin] up to the placement loop *)

Lemma begin_to_place h segs count :
  oom_at h = None -> count <= 64 ->
  begin h segs count new_mempool
  = (r <- begin_place (Z.to_nat count) 0 segs count 0
            (Mempool true Null 0 0 Null
               (Live (replicate (Z.to_nat count) 0))
               (Live (replicate (Z.to_nat count) 0)) 0
               (Live (replicate (Z.to_nat count) 0))
               (Live (replicate (Z.to_nat count) 0))
               (Live (replicate (Z.to_nat count) 0))
               (Live (replicate (Z.to_nat count) 0)) count Null 0) ;;
     if fst r then begin_finish h count (snd r) else Ret r).
Proof.
  intros Hoom Hc. unfold begin, new_mempool. st_red.
  destruct (Z.gtb_spec count 64); [lia |].
  rewrite !new_array_ok by assumption. st_red. reflexivity.
Qed.

Lemma begin_rejects h segs count :
  oom_at h = None -> 1 <= count <= 64 -> Z.of_nat (length segs) = count ->
  Forall segment_wf segs ->
  Exists (fun s => segment.size s = 0 \/ 64 < segment.size s * SEGMENT_STEP) segs ->
  exists st, begin h segs count new_mempool = Ret (false, st).
Proof.
  intros Hoom Hc Hlen Hwf Hex.
  rewrite begin_to_place by (assumption || lia).
  destruct (begin_place_spec segs count (Z.to_nat count) 0 0
              [] (replicate (Z.to_nat count) 0) [] (replicate (Z.to_nat count) 0)
              0 0 (replicate (Z.to_nat count) 0) (replicate (Z.to_nat count) 0) 0
              (replicate (Z.to_nat count) 0) (replicate (Z.to_nat count) 0) 0)
    as [_ Hf]; try (rewrite ?length_replicate; simpl; lia).
  rewrite app_nil_l in Hf.
  destruct Hf as (st' & E & _).
  { replace (Z.to_nat count) with (length segs) by lia.
    apply place_rejects; assumption. }
  rewrite E. cbn [bind fst]. exists st'. reflexivity.
Qed.

(** ** Descriptors of distinct sizes are stored in increasing order *)

(** [_get_next_segment] returns the smallest of the larger descriptors. *)
Lemma next_from_min arr : forall pre current find ret,
  Forall segment_wf (pre ++ arr) ->
  (find = 65535 /\ ret = 0 /\ (forall s, s ∈ pre -> segment.size s <= current))
  \/ (0 <= ret < Z.of_nat (length pre) /\
      segment.size (seg_at (pre ++ arr) ret) = find /\ current < find /\
      (forall s, s ∈ pre -> current < segment.size s -> find <= segment.size s)) ->
  let r := next_from arr (Z.of_nat (length pre)) current find ret in
  (forall s, s ∈ pre ++ arr -> segment.size s <= current)
  \/ (0 <= r < Z.of_nat (length (pre ++ arr)) /\
      current < segment.size (seg_at (pre ++ arr) r) /\
      (forall s, s ∈ pre ++ arr -> current < segment.size s ->
         segment.size (seg_at (pre ++ arr) r) <= segment.size s)).
Proof.
  induction arr as [| s arr IH]; intros pre current find ret Hwf Hst r.
  - subst r. simpl. rewrite app_nil_r in *.
    destruct Hst as [(_ & _ & H) | (Hr & Hf & Hc & Hmin)]; [left; assumption | right].
    split; [assumption |]. rewrite Hf. split; assumption.
  - subst r. cbn [next_from].
    replace (Z.of_nat (length pre) + 1) with (Z.of_nat (length (pre ++ [s])))
      by (rewrite length_app; simpl; lia).
    replace (pre ++ s :: arr) with ((pre ++ [s]) ++ arr) in *
      by (rewrite <- app_assoc; reflexivity).
    assert (Hs : 0 <= segment.size s < 256).
    { apply (proj1 (Forall_forall _ _) Hwf s). rewrite <- app_assoc.
      apply elem_of_app. right. left. }
    assert (Eat : seg_at ((pre ++ [s]) ++ arr) (Z.of_nat (length pre)) = s).
    { rewrite <- app_assoc. apply seg_at_app_r. }
    destruct (Z.gtb_spec (segment.size s) current) as [Hgt | Hle];
      destruct (Z.ltb_spec (segment.size s) find) as [Hlt | Hge]; cbn [andb];
      apply IH; try assumption.
    + right. rewrite Eat, length_app. simpl.
      split; [lia |]. split; [reflexivity |]. split; [assumption |].
      intros x Hx Hxc. apply elem_of_app in Hx as [Hx | Hx].
      * destruct Hst as [(_ & _ & Hall) | (_ & _ & _ & Hmin)].
        -- specialize (Hall x Hx). lia.
        -- specialize (Hmin x Hx Hxc). lia.
      * apply list_elem_of_singleton in Hx. subst x. lia.
    + destruct Hst as [(Hf & _ & _) | (Hr & Hf & Hc & Hmin)]; [lia |].
      right. rewrite length_app. simpl.
      split; [lia |]. split; [assumption |]. split; [assumption |].
      intros x Hx Hxc. apply elem_of_app in Hx as [Hx | Hx].
      * apply Hmin; assumption.
      * apply list_elem_of_singleton in Hx. subst x. lia.
    + destruct Hst as [(Hf & Hr & Hall) | (Hr & Hf & Hc & Hmin)].
      * left. split; [assumption |]. split; [assumption |].
        intros x Hx. apply elem_of_app in Hx as [Hx | Hx]; [apply Hall; assumption |].
        apply list_elem_of_singleton in Hx. subst x. lia.
      * right. rewrite length_app. simpl.
        split; [lia |]. split; [assumption |]. split; [assumption |].
        intros x Hx Hxc. apply elem_of_app in Hx as [Hx | Hx].
        -- apply Hmin; assumption.
        -- apply list_elem_of_singleton in Hx. subst x. lia.
    + destruct Hst as [(Hf & Hr & Hall) | (Hr & Hf & Hc & Hmin)].
      * left. split; [assumption |]. split; [assumption |].
        intros x Hx. apply elem_of_app in Hx as [Hx | Hx]; [apply Hall; assumption |].
        apply list_elem_of_singleton in Hx. subst x. lia.
      * right. rewrite length_app. simpl.
        split; [lia |]. split; [assumption |]. split; [assumption |].
        intros x Hx Hxc. apply elem_of_app in Hx as [Hx | Hx].
        -- apply Hmin; assumption.
        -- apply list_elem_of_singleton in Hx. subst x. lia.
Qed.

Lemma next_index_min segs current s :
  Forall segment_wf segs -> s ∈ segs -> current < segment.size s ->
  let sx := seg_at segs (next_index segs current) in
  sx ∈ segs /\ current < segment.size sx /\
  (forall x, x ∈ segs -> current < segment.size x ->
     segment.size sx <= segment.size x).
Proof.
  intros Hwf Hin Hs sx.
  destruct (next_from_min segs [] current (wrap16 (-1)) 0 Hwf)
    as [Hall | (Hr & Hc & Hmin)].
  - left. split; [reflexivity |]. split; [reflexivity |]. intros x Hx. inversion Hx.
  - specialize (Hall s Hin). lia.
  - split; [apply seg_at_elem; exact Hr |]. split; assumption.
Qed.

Lemma above_same c c' segs :
  (forall s, s ∈ segs -> c < segment.size s <-> c' < segment.size s) ->
  above c segs = above c' segs.
Proof.
  induction segs as [| x segs IH]; intros H; simpl; [reflexivity |].
  rewrite IH by (intros s Hs; apply H; right; assumption).
  pose proof (H x ltac:(left)) as Hx.
  destruct (Z.ltb_spec c (segment.size x)), (Z.ltb_spec c' (segment.size x)); lia.
Qed.

Lemma above_step c c' v segs :
  NoDup (segment.size <$> segs) -> c <= c' ->
  (forall s, s ∈ segs -> c < segment.size s -> segment.size s <= c' ->
     segment.size s = v) ->
  above c segs <= above c' segs + 1.
Proof.
  intros Hnd Hc. induction segs as [| x segs IH]; intros H; simpl; [lia |].
  rewrite fmap_cons in Hnd. apply NoDup_cons in Hnd as [Hx Hnd].
  destruct (Z.ltb_spec c (segment.size x)) as [H1 | H1];
    destruct (Z.ltb_spec c' (segment.size x)) as [H2 | H2]; try lia.
  - specialize (IH Hnd ltac:(intros s Hs; apply H; right; assumption)). lia.
  - pose proof (H x ltac:(left) H1 H2) as Hv.
    rewrite (above_same c c' segs); [lia |].
    intros s Hs. split; [| lia]. intros Hsc.
    destruct (Z.lt_ge_cases c' (segment.size s)) as [| Hle]; [assumption |].
    exfalso. apply Hx. rewrite Hv, <- (H s ltac:(right; assumption) Hsc ltac:(lia)).
    apply list_elem_of_fmap_2. assumption.
  - specialize (IH Hnd ltac:(intros s Hs; apply H; right; assumption)). lia.
Qed.

Lemma above_all segs :
  (forall s, s ∈ segs -> 0 < segment.size s) ->
  above 0 segs = Z.of_nat (length segs).
Proof.
  induction segs as [| x segs IH]; intros H; simpl; [reflexivity |].
  rewrite IH by (intros s Hs; apply H; right; assumption).
  pose proof (H x ltac:(left)).
  destruct (Z.ltb_spec 0 (segment.size x)); lia.
Qed.

Lemma above_exists c segs :
  1 <= above c segs -> exists s, s ∈ segs /\ c < segment.size s.
Proof.
  induction segs as [| x segs IH]; simpl; [lia |].
  destruct (Z.ltb_spec c (segment.size x)) as [Hx | Hx].
  - intros _. exists x. split; [left | assumption].
  - intros H. destruct (IH ltac:(lia)) as (s & Hs & Hc).
    exists s. split; [right |]; assumption.
Qed.

Lemma strictly_increasing_cons x l :
  Forall (fun y => x < y) l -> strictly_increasing l ->
  strictly_increasing (x :: l).
Proof.
  intros Hx Hl [| i] [| j] a b Ha Hb Hij; try lia.
  - simpl in Ha, Hb. injection Ha as <-.
    exact (proj1 (Forall_lookup _ _) Hx _ _ Hb).
  - simpl in Ha, Hb. apply (Hl i j); [assumption | assumption | lia].
Qed.

Lemma place_increasing n : forall segs current,
  Forall segment_wf segs -> NoDup (segment.size <$> segs) -> 0 <= current ->
  Z.of_nat n <= above current segs ->
  Forall (fun y => SEGMENT_STEP * current < y) (fst <$> place n segs current) /\
  strictly_increasing (fst <$> place n segs current).
Proof.
  induction n as [| n IH]; intros segs current Hwf Hnd Hc Hn; cbn [place].
  - split; [constructor |]. intros i j x y Hx. inversion Hx.
  - destruct (above_exists current segs ltac:(lia)) as (s & Hs & Hsc).
    destruct (next_index_min segs current s Hwf Hs Hsc) as (Hin & Hgt & Hmin).
    set (sx := seg_at segs (next_index segs current)) in *.
    pose proof (proj1 (Forall_forall _ _) Hwf sx Hin) as [_ Hw].
    assert (Hab : above current segs <= above (segment.size sx) segs + 1).
    { apply (above_step _ _ (segment.size sx)); [assumption | lia |].
      intros x Hx H1 H2. specialize (Hmin x Hx H1). lia. }
    destruct (IH segs (segment.size sx) Hwf Hnd ltac:(lia) ltac:(lia)) as [Hall Hinc].
    rewrite fmap_cons. cbn [fst]. unfold SEGMENT_STEP in *.
    rewrite wrap16_small by lia.
    split.
    + constructor; [lia |].
      eapply Forall_impl; [exact Hall |]. cbn beta. intros y Hy. lia.
    + apply strictly_increasing_cons; [| assumption].
      eapply Forall_impl; [exact Hall |]. cbn beta. intros y Hy. lia.
Qed.

(** With descriptors of distinct sizes [begin] stores the sizes in
    strictly increasing order. *)
Lemma begin_sizes_increasing h segs count :
  heap_ok h -> 1 <= count <= 64 -> Z.of_nat (length segs) = count ->
  Forall segment_ok segs -> NoDup (segment.size <$> segs) ->
  exists st, begin h segs count new_mempool = Ret (true, st) /\
             sizes_increasing st.
Proof.
  intros Hh Hc Hlen Hok Hnd.
  eexists. split; [apply begin_spec; assumption |].
  eexists. split; [reflexivity |].
  apply place_increasing; try assumption; try lia.
  - eapply Forall_impl; [exact Hok |]. intros s [H1 H2]. split; lia.
  - rewrite above_all; [lia |].
    intros s Hs. pose proof (proj1 (Forall_forall _ _) Hok s Hs) as [H1 _]. lia.
Qed.

(** ** What [alloc], [release] and the loops of [begin] leave alone *)

Lemma bind_Ret {A B : Type} (m : outcome A) (k : A -> outcome B) b :
  bind m k = Ret b -> exists a, m = Ret a /\ k a = Ret b.
Proof. destruct m as [a | |]; simpl; intros H; try discriminate; eauto. Qed.

Ltac inv_ret :=
  repeat match goal with
  | H : bind _ _ = Ret _ |- _ =>
      apply bind_Ret in H as (? & ? & H); cbv zeta in H
  | H : (if ?c then _ else _) = Ret _ |- _ => destruct c
  | H : match ?b with Null => _ | Live _ => _ | Dangling => _ end = Ret _ |- _ =>
      destruct b
  | H : Ret _ = Ret _ |- _ => injection H as H; subst
  | H : Undef = Ret _ |- _ => discriminate H
  | H : NoFuel = Ret _ |- _ => discriminate H
  end.

Lemma for_loop_frame {St T : Type} (f : St -> T) (body : Z -> St -> outcome St) :
  (forall i s s', body i s = Ret s' -> f s' = f s) ->
  forall n i s s', for_loop n i body s = Ret s' -> f s' = f s.
Proof.
  intros Hb. induction n as [| n IH]; intros i s s' H; simpl in H.
  - injection H as <-. reflexivity.
  - apply bind_Ret in H as (s1 & H1 & H). rewrite (IH _ _ _ H). eauto.
Qed.

Lemma wr_len {A : Type} (b b' : block (list A)) i v :
  wr b i v = Ret b' -> block_len b' = block_len b.
Proof.
  unfold wr. destruct b; try discriminate.
  destruct (_ && _); [| discriminate]. intros H. injection H as <-.
  simpl. rewrite length_insert. reflexivity.
Qed.

Lemma begin_pointers_frame i st st' :
  begin_pointers_body i st = Ret st' -> shape st' = shape st.
Proof.
  destruct st. unfold begin_pointers_body. intros H. inv_ret.
  unfold shape. cbn. f_equal. eapply wr_len. eassumption.
Qed.

Lemma begin_magic_frame i st st' :
  begin_magic_body i st = Ret st' -> shape st' = shape st.
Proof.
  destruct st. unfold begin_magic_body. intros H. inv_ret; reflexivity.
Qed.

Lemma begin_masks_frame i st st' :
  begin_masks_body i st = Ret st' -> shape st' = shape st.
Proof.
  destruct st. unfold begin_masks_body. intros H. inv_ret. reflexivity.
Qed.

Lemma alloc_frame fuel : forall size st p st',
  alloc fuel size st = Ret (p, st') -> shape st' = shape st.
Proof.
  induction fuel as [| fuel IH]; intros size st p st' H; [discriminate |].
  cbn [alloc] in H. destruct st. inv_ret; try reflexivity.
  match goal with H : alloc _ _ _ = Ret _ |- _ => apply IH in H; exact H end.
Qed.

Lemma release_frame ptr st st' :
  release ptr st = Ret st' -> shape st' = shape st.
Proof.
  destruct st. unfold release. intros H. inv_ret; reflexivity.
Qed.

(** ** The size members after [begin] *)

Lemma place_passes_sizes n : forall i segs current,
  Forall segment_wf segs -> segs <> [] ->
  (forall s, s ∈ segs -> segment.size s <> 0) ->
  place_passes n i segs current = true ->
  Forall cell_size (fst <$> place n segs current).
Proof.
  induction n as [| n IH]; intros i segs current Hwf Hne Hnz Hp;
    cbn [place]; [constructor |].
  cbn [place_passes] in Hp.
  apply andb_true_iff in Hp as [Hp Hrest]. apply andb_true_iff in Hp as [_ Hsz].
  pose proof (next_seg_elem segs current Hne) as Hin.
  set (sx := seg_at segs (next_index segs current)) in *.
  pose proof (proj1 (Forall_forall _ _) Hwf sx Hin) as [_ Hw].
  pose proof (Hnz sx Hin) as Hx.
  rewrite fmap_cons. constructor; [| eapply IH; eassumption].
  cbn [fst]. unfold SEGMENT_STEP in *. rewrite wrap16_small in * by lia.
  destruct (Z.gtb_spec (segment.size sx * 4) 64); [discriminate |].
  exists (segment.size sx). lia.
Qed.

Lemma max_of_cell_size szs :
  szs <> [] -> Forall cell_size szs -> cell_size (max_of szs).
Proof.
  intros Hne H. exact (proj1 (Forall_forall _ _) H _ (max_of_elem szs Hne)).
Qed.

Lemma begin_finish_sized h pools bs ps st :
  heap_ok h -> (1 <= length pools <= 64)%nat ->
  Forall cell_size (fst <$> pools) ->
  begin_finish h (Z.of_nat (length pools))
    (Mempool true Null bs ps Null
       (Live (replicate (length pools) 0)) (Live (replicate (length pools) 0)) 0
       (Live (fst <$> pools)) (Live (snd <$> pools))
       (Live (replicate (length pools) 0)) (Live (replicate (length pools) 0))
       (Z.of_nat (length pools)) Null 0)
  = Ret (true, st) ->
  Sized st.
Proof.
  intros [Hoom Hbase] Hn Hsz.
  assert (Hne : fst <$> pools <> [])
    by (destruct pools; [simpl in Hn; lia | discriminate]).
  destruct (max_of_cell_size _ Hne Hsz) as (u & Hu & Hmx).
  unfold begin_finish. st_red.
  rewrite (rd_Live_Z _ _ (max_of (fst <$> pools)))
    by (try lia; rewrite <- (length_fmap fst pools); apply max_of_lookup; assumption).
  st_red. rewrite new_arena_ok by assumption. st_red.
  rewrite new_array_ok by assumption. st_red.
  rewrite new_array_ok by assumption. st_red.
  pose proof (begin_lookup_loop (arena_addr h) bs ps (max_of (fst <$> pools))
                (max_of (fst <$> pools) / SEGMENT_STEP) pools
                (replicate (Z.to_nat ps) 0)
                (replicate (length pools) 0) (replicate (length pools) 0)
                (replicate (length pools) 0) (replicate (length pools) 0)) as L1.
  unfold fin_state in L1. rewrite L1; clear L1.
  2:{ rewrite Hmx. unfold SEGMENT_STEP. Z.div_mod_to_equations. lia. }
  2:{ rewrite Hmx. unfold SEGMENT_STEP. Z.div_mod_to_equations. lia. }
  st_red.
  rewrite wr_Live_Z by (rewrite length_replicate; lia). st_red.
  rewrite wr_Live_Z by (rewrite length_replicate; lia). st_red.
  intros H.
  apply bind_Ret in H as (s1 & H1 & H). apply bind_Ret in H as (s2 & H2 & H).
  apply bind_Ret in H as (s3 & H3 & H). injection H as <-.
  apply (for_loop_frame shape _ begin_pointers_frame) in H1.
  apply (for_loop_frame shape _ begin_magic_frame) in H2.
  apply (for_loop_frame shape _ begin_masks_frame) in H3.
  exists (fst <$> pools). rewrite length_fmap.
  split; [assumption |]. split; [lia |]. split; [assumption |].
  rewrite H3, H2, H1. unfold shape. cbn.
  rewrite length_insert, length_replicate. reflexivity.
Qed.

Lemma begin_Sized h segs count st :
  heap_ok h -> Z.of_nat (length segs) = count -> Forall segment_wf segs ->
  begin h segs count new_mempool = Ret (true, st) -> Sized st.
Proof.
  intros Hh Hlen Hwf H. pose proof Hh as [Hoom Hbase].
  assert (Hc : count <= 64).
  { destruct (Z.gtb_spec count 64) as [Hgt | ]; [| assumption].
    unfold begin in H. cbn [_initialized new_mempool] in H.
    destruct (Z.gtb_spec count 64); [discriminate | lia]. }
  rewrite begin_to_place in H by assumption.
  set (n := Z.to_nat count) in *.
  assert (Hn : n = length segs) by lia.
  destruct (begin_place_spec segs count n 0 0 [] (replicate n 0) [] (replicate n 0)
              0 0 (replicate n 0) (replicate n 0) 0 (replicate n 0)
              (replicate n 0) 0) as [Ht Hf];
    try (rewrite ?length_replicate; simpl; lia).
  rewrite !app_nil_l in Ht, Hf.
  destruct (place_passes n 0 segs 0) eqn:Hp.
  2:{ destruct (Hf eq_refl) as (st' & E & _). rewrite E in H. discriminate. }
  rewrite (Ht eq_refl) in H. cbn [bind fst snd] in H. rewrite !app_nil_l in H.
  destruct (Nat.eq_dec n 0%nat) as [Hz | Hnz].
  { exfalso. assert (Hc0 : count = 0) by lia. clearbody n. subst n.
    rewrite Hc0 in H. cbv in H. discriminate. }
  assert (Hne : segs <> []) by (intros ->; simpl in *; lia).
  pose proof (length_place n segs 0) as Hln.
  replace count with (Z.of_nat (length (place n segs 0))) in H by lia.
  replace (replicate n 0) with (replicate (length (place n segs 0)) 0) in H
    by (rewrite Hln; reflexivity).
  apply begin_finish_sized in H; [assumption | assumption | lia |].
  apply (place_passes_sizes n 0); try assumption.
  intros s Hin. apply list_elem_of_lookup in Hin as [k Hk].
  pose proof (lookup_lt_Some _ _ _ Hk) as Hlt.
  pose proof (place_passes_nonzero n 0 segs 0 (Z.of_nat k) Hp ltac:(lia)) as Hs.
  unfold seg_at in Hs. rewrite Nat2Z.id, Hk in Hs. exact Hs.
Qed.

Lemma Sized_frame st st' : shape st' = shape st -> Sized st -> Sized st'.
Proof. intros E (szs & H1 & H2 & H3 & H4). exists szs. rewrite E. auto. Qed.

Lemma initialized_Sized st : initialized st -> Sized st.
Proof.
  induction 1 as [h segs count st Hh Hlen Hwf Hb
                 | fuel size p st st' _ IH Ha
                 | ptr st st' _ IH Hr].
  - eapply begin_Sized; eassumption.
  - eapply Sized_frame; [eapply alloc_frame; eassumption | assumption].
  - eapply Sized_frame; [eapply release_frame; eassumption | assumption].
Qed.

Lemma segment_valid_wf s : segment_valid s -> segment_wf s.
Proof. intros [H1 H2]. split; lia. Qed.

Lemma reachable_initialized st : reachable st -> initialized st.
Proof.
  induction 1 as [h segs count st Hh Hc Hlen Hv Hb
                 | fuel size p st st' _ IH Hs Ha
                 | ptr st st' _ IH Hp Hr].
  - eapply init_begin; try eassumption.
    eapply Forall_impl; [exact Hv | exact segment_valid_wf].
  - eapply init_alloc; eassumption.
  - eapply init_release; eassumption.
Qed.

(** ** Resolving a size on the stored sizes *)

Lemma rd_lookup_sizes szs size :
  szs <> [] -> Forall cell_size szs -> 1 <= size <= max_of szs ->
  rd (Live (lookup_table szs)) (lookup_index size) = Ret (resolve szs size).
Proof.
  intros Hne Hsz Hs. destruct (max_of_cell_size _ Hne Hsz) as (u & Hu & Hmx).
  pose proof (lookup_index_range _ u size Hmx Hs) as Hi.
  apply rd_Live_Z; [lia |].
  rewrite lookup_lookup_table by lia. unfold resolve.
  rewrite Z2Nat.id by lia. reflexivity.
Qed.

Lemma resolve_sizes szs size :
  szs <> [] -> Forall cell_size szs -> 1 <= size <= max_of szs ->
  exists (sg : nat) s,
    resolve szs size = Z.of_nat sg /\ szs !! sg = Some s /\ size <= s /\
    (forall (j : nat) s', (j < sg)%nat -> szs !! j = Some s' -> s' < size).
Proof.
  intros Hne Hsz Hs. destruct (max_of_cell_size _ Hne Hsz) as (u & Hu & Hmx).
  pose proof (lookup_index_range _ u size Hmx Hs) as Hi.
  assert (Hr : size <= SEGMENT_STEP * (lookup_index size + 1) < size + 4).
  { unfold lookup_index, SEGMENT_STEP, SEGMENT_LOG2.
    rewrite Z.shiftr_div_pow2 by lia. change (2 ^ 2) with 4.
    Z.div_mod_to_equations. lia. }
  destruct (first_fit_found szs 0 (SEGMENT_STEP * (lookup_index size + 1)))
    as (k & s & E & Hk & Hle & Hlow).
  { exists (max_of szs). split; [apply max_of_elem; assumption |].
    rewrite Hmx in *. unfold lookup_index, SEGMENT_STEP, SEGMENT_LOG2 in *.
    rewrite Z.shiftr_div_pow2 in * by lia. change (2 ^ 2) with 4 in *.
    Z.div_mod_to_equations. lia. }
  exists k, s. unfold resolve. rewrite E. split; [lia |]. split; [assumption |].
  split; [lia |].
  intros j s' Hj Hs'. specialize (Hlow j s' Hj Hs').
  destruct (proj1 (Forall_lookup _ _) Hsz _ _ Hs') as (u' & Hu' & ->).
  unfold lookup_index, SEGMENT_STEP, SEGMENT_LOG2 in *.
  rewrite Z.shiftr_div_pow2 in * by lia. change (2 ^ 2) with 4 in *.
  Z.div_mod_to_equations. lia.
Qed.

(** ** Nested calls of [alloc] *)

Lemma bind_fuel {A B : Type} (m : outcome A) (k : A -> outcome B) :
  m <> NoFuel -> (forall a, m = Ret a -> k a <> NoFuel) -> bind m k <> NoFuel.
Proof. destruct m; simpl; intros H1 H2; [apply H2; reflexivity | discriminate | contradiction]. Qed.

Lemma rd_fuel {A : Type} (b : block (list A)) i : rd b i <> NoFuel.
Proof.
  unfold rd. destruct b; try discriminate.
  destruct (i <? 0); [discriminate |]. destruct (_ !! _); discriminate.
Qed.

Lemma wr_fuel {A : Type} (b : block (list A)) i v : wr b i v <> NoFuel.
Proof. unfold wr. destruct b; try discriminate. destruct (_ && _); discriminate. Qed.

Lemma ctz_fuel x : __builtin_ctz x <> NoFuel.
Proof.
  unfold __builtin_ctz. generalize 0. generalize 32%nat.
  intros n. induction n as [| n IH]; intros i; simpl; [discriminate |].
  destruct (Z.testbit x i); [discriminate | apply IH].
Qed.

Ltac no_fuel :=
  repeat match goal with
  | |- bind _ _ <> NoFuel => apply bind_fuel; [| intros ? _; cbv zeta]
  | |- (if ?c then _ else _) <> NoFuel => destruct c
  | |- Ret _ <> NoFuel => discriminate
  | |- Undef <> NoFuel => discriminate
  | |- rd _ _ <> NoFuel => apply rd_fuel
  | |- wr _ _ _ <> NoFuel => apply wr_fuel
  | |- __builtin_ctz _ <> NoFuel => apply ctz_fuel
  end.

Lemma alloc_fuel_from szs :
  szs <> [] -> (length szs <= 64)%nat -> Forall cell_size szs ->
  strictly_increasing szs ->
  forall fuel size st (k : nat) s,
    shape st
    = (Live szs, Z.of_nat (length szs), max_of szs,
       Live (lookup_table szs), max_of szs / SEGMENT_STEP,
       Some (length szs)) ->
    1 <= size -> szs !! k = Some s -> size <= s ->
    (forall (j : nat) s', (j < k)%nat -> szs !! j = Some s' -> s' < size) ->
    (length szs <= k + fuel)%nat ->
    alloc fuel size st <> NoFuel.
Proof.
  intros Hne Hlen Hsz Hinc.
  induction fuel as [| fuel IH]; intros size st k s Hf Hs Hk Hle Hlow Hfuel.
  - pose proof (lookup_lt_Some _ _ _ Hk). lia.
  - pose proof (lookup_lt_Some _ _ _ Hk) as Hlt.
    assert (Hmax : 1 <= size <= max_of szs).
    { split; [assumption |].
      pose proof (increasing_le_max szs k s Hinc Hk). lia. }
    assert (Hres : resolve szs size = Z.of_nat k).
    { destruct (resolve_sizes szs size Hne Hsz Hmax) as (sg & s0 & E & Hsg & Hle0 & Hlow0).
      rewrite E. f_equal.
      destruct (Nat.lt_trichotomy sg k) as [Hc | [Hc | Hc]]; [| assumption |].
      - specialize (Hlow sg s0 Hc Hsg). lia.
      - specialize (Hlow0 k s Hc Hk). lia. }
    pose proof (IH) as IH'. clear IH.
    destruct st as [i b bs ps pb pp sp mx ss cc mg sh sc lk lkc].
    unfold shape in Hf. cbn in Hf. injection Hf as -> -> -> -> -> Hsp.
    cbn [alloc]. st_red.
    destruct (Z.gtb_spec size (max_of szs)); [discriminate |].
    rewrite rd_lookup_sizes by assumption. cbn [bind]. rewrite Hres.
    rewrite wrap8_small by lia.
    destruct (Z.geb_spec (Z.of_nat k) (Z.of_nat (length szs))); [lia |].
    apply bind_fuel; [apply rd_fuel | intros p _].
    apply bind_fuel; [apply rd_fuel | intros q _].
    apply bind_fuel; [apply rd_fuel | intros gm _].
    destruct (gm =? ALL_ONES).
    + destruct (Z.ltb_spec (Z.of_nat k) (Z.of_nat (length szs) - 1)); [| discriminate].
      destruct (lookup_lt_is_Some_2 szs (S k) ltac:(lia)) as [s' Hs'].
      rewrite (rd_Live_Z _ (Z.of_nat k + 1) s')
        by (try lia; replace (Z.to_nat (Z.of_nat k + 1)) with (S k) by lia; assumption).
      cbn [bind].
      destruct (proj1 (Forall_lookup _ _) Hsz _ _ Hs') as (u' & Hu' & ->).
      apply (IH' _ _ (S k) (4 * u')); try assumption; try lia;
        [unfold shape; cbn; rewrite Hsp; reflexivity |].
      intros j s0 Hj Hs0. apply (Hinc j (S k)); [assumption | assumption | lia].
    + no_fuel.
Qed.

Lemma alloc_low fuel size st :
  size <= 0 -> 0 <= _max_segment_size st -> alloc (S fuel) size st = Undef.
Proof.
  intros Hs Hm. cbn [alloc].
  destruct (Z.gtb_spec size (_max_segment_size st)); [lia |].
  assert (Hi : lookup_index size < 0).
  { unfold lookup_index, SEGMENT_STEP, SEGMENT_LOG2.
    rewrite Z.shiftr_div_pow2 by lia. change (2 ^ 2) with 4.
    Z.div_mod_to_equations. lia. }
  unfold rd. destruct (_segment_lookup st); try reflexivity.
  destruct (Z.ltb_spec (lookup_index size) 0); [reflexivity | lia].
Qed.

Lemma alloc_fuel st size fuel :
  Sized st -> sizes_increasing st -> _segment_count st <= Z.of_nat fuel ->
  alloc fuel size st <> NoFuel.
Proof.
  intros (szs & Hne & Hlen & Hsz & Hf) (szs' & E & Hinc) Hfuel.
  pose proof Hf as Hf'. unfold shape in Hf'.
  injection Hf' as Hss Hsc Hmx Hlk Hlkc _.
  rewrite Hss in E. injection E as <-. rewrite Hsc in Hfuel.
  destruct (max_of_cell_size _ Hne Hsz) as (u & Hu & Hmax).
  destruct fuel as [| fuel]; [destruct szs; [contradiction | simpl in Hfuel; lia] |].
  destruct (Z.le_gt_cases size 0) as [Hlow | Hpos].
  { rewrite alloc_low by (rewrite ?Hmx; lia). discriminate. }
  destruct (Z.lt_ge_cases (max_of szs) size) as [Hbig | Hfit].
  { cbn [alloc]. rewrite Hmx.
    destruct (Z.gtb_spec size (max_of szs)); [discriminate | lia]. }
  destruct (resolve_sizes szs size Hne Hsz ltac:(lia)) as (k & s & _ & Hk & Hle & Hlow).
  apply (alloc_fuel_from szs Hne Hlen Hsz Hinc (S fuel) size st k s);
    try assumption; lia.
Qed.

(** ** What [alloc] does when the pool it resolves to is exhausted *)

Lemma alloc_escalates st size fuel :
  Sized st -> sizes_increasing st -> 1 <= size <= _max_segment_size st ->
  exists sg cur,
    rd (_segment_lookup st) (lookup_index size) = Ret sg /\
    0 <= sg < _segment_count st /\
    rd (_segment_sizes st) sg = Ret cur /\ size <= cur /\
    (group_mask st sg = Ret ALL_ONES ->
     (sg < _segment_count st - 1 ->
      exists next,
        rd (_segment_sizes st) (sg + 1) = Ret next /\ cur < next /\
        alloc (S fuel) size st = alloc fuel next st) /\
     (sg = _segment_count st - 1 ->
      (forall j s, rd (_segment_sizes st) j = Ret s -> s <= cur) /\
      alloc (S fuel) size st = Ret (nullptr, st))).
Proof.
  intros (szs & Hne & Hlen & Hsz & Hf) (szs' & E & Hinc) Hs.
  destruct st as [i b bs ps pb pp sp mx ss cc mg sh sc lk lkc].
  unfold shape in Hf. cbn in Hf, E, Hs. injection Hf as -> -> -> -> -> Hsp.
  injection E as <-.
  destruct (resolve_sizes szs size Hne Hsz Hs) as (k & s & Eres & Hk & Hle & Hlow).
  pose proof (lookup_lt_Some _ _ _ Hk) as Hlt.
  destruct sp as [| l |]; cbn in Hsp; try discriminate. injection Hsp as Hl.
  destruct (lookup_lt_is_Some_2 l k ltac:(lia)) as [p Hp].
  exists (Z.of_nat k), s. st_red.
  split; [rewrite rd_lookup_sizes, Eres by assumption; reflexivity |].
  split; [lia |].
  split; [apply rd_Live; assumption |].
  split; [assumption |].
  unfold group_mask. st_red. intros Hgm.
  apply bind_Ret in Hgm as (q & Hq & Hg).
  set (st := Mempool i b bs ps pb pp (Live l) (max_of szs) (Live szs) cc mg sh
               (Z.of_nat (length szs)) (Live (lookup_table szs))
               (max_of szs / SEGMENT_STEP)).
  assert (Ea : alloc (S fuel) size st
               = (if Z.of_nat k <? Z.of_nat (length szs) - 1
                  then next <- rd (Live szs) (Z.of_nat k + 1) ;; alloc fuel next st
                  else Ret (nullptr, st))).
  { unfold st. cbn [alloc]. st_red.
    destruct (Z.gtb_spec size (max_of szs)); [lia |].
    rewrite rd_lookup_sizes, Eres by assumption. cbn [bind].
    rewrite wrap8_small by lia.
    destruct (Z.geb_spec (Z.of_nat k) (Z.of_nat (length szs))); [lia |].
    rewrite (rd_Live _ k p Hp). cbn [bind]. rewrite Hq. cbn [bind].
    rewrite Hg. cbn [bind]. rewrite Z.eqb_refl. reflexivity. }
  rewrite Ea. clear Ea.
  split.
  - intros Hnext.
    destruct (lookup_lt_is_Some_2 szs (S k) ltac:(lia)) as [s' Hs'].
    assert (Er : rd (Live szs) (Z.of_nat k + 1) = Ret s').
    { apply rd_Live_Z; [lia |].
      replace (Z.to_nat (Z.of_nat k + 1)) with (S k) by lia. assumption. }
    exists s'. split; [exact Er |].
    split; [apply (Hinc k (S k)); [assumption | assumption | lia] |].
    destruct (Z.ltb_spec (Z.of_nat k) (Z.of_nat (length szs) - 1)); [| lia].
    rewrite Er. reflexivity.
  - intros Hlast. split.
    + intros j s0 Hj. apply rd_Live_inv in Hj as [Hj0 Hj].
      pose proof (lookup_lt_Some _ _ _ Hj) as Hjl.
      destruct (Nat.eq_dec (Z.to_nat j) k) as [Ej | Nj].
      * rewrite Ej, Hk in Hj. injection Hj as <-. lia.
      * assert (s0 < s); [| lia].
        apply (Hinc (Z.to_nat j) k); [assumption | assumption | lia].
    + destruct (Z.ltb_spec (Z.of_nat k) (Z.of_nat (length szs) - 1)); [lia |].
      reflexivity.
Qed.

(** A stored size resolves to its own segment. *)
Lemma resolve_stored st j s :
  Sized st -> sizes_increasing st ->
  rd (_segment_sizes st) j = Ret s ->
  rd (_segment_lookup st) (lookup_index s) = Ret j.
Proof.
  intros (szs & Hne & Hlen & Hsz & Hf) (szs' & E & Hinc) Hj.
  unfold shape in Hf. injection Hf as Hss Hsc Hmx Hlk Hlkc _.
  rewrite Hss in E. injection E as <-. rewrite Hss in Hj. rewrite Hlk.
  apply rd_Live_inv in Hj as [Hj0 Hj].
  destruct (proj1 (Forall_lookup _ _) Hsz _ _ Hj) as (u & Hu & ->).
  pose proof (increasing_le_max szs _ _ Hinc Hj) as Hle.
  rewrite rd_lookup_sizes by (assumption || lia).
  destruct (resolve_sizes szs (4 * u) Hne Hsz ltac:(lia))
    as (sg & s0 & Eres & Hsg & Hle0 & Hlow0).
  rewrite Eres. f_equal.
  destruct (Nat.lt_trichotomy sg (Z.to_nat j)) as [Hc | [Hc | Hc]]; [| lia |].
  - pose proof (Hinc sg (Z.to_nat j) _ _ Hsg Hj Hc). lia.
  - specialize (Hlow0 _ _ Hc Hj). lia.
Qed.

(** * The properties claimed by the specification *)

(** ** The [_initialized] flag *)

Lemma begin_initialized h segs count st :
  _initialized st = true -> begin h segs count st = Ret (false, st).
Proof. intros H. unfold begin. rewrite H. reflexivity. Qed.

Ltac run_all :=
  repeat (split; [vm_compute; reflexivity |]); vm_compute; reflexivity.

Lemma clean_initialized st st' :
  clean st = Ret st' -> _initialized st' = _initialized st.
Proof.
  destruct st as [i b bs ps pb pp sp mx ss cc mg sh sc lk lkc].
  unfold clean. intros H.
  repeat (apply bind_Ret in H as (? & _ & H); cbv zeta in H).
  injection H as <-. reflexivity.
Qed.

(** C1: a [begin] that fails on a descriptor of size 0, on a descriptor
    of more than 64 bytes, or on a failing [new], leaves [_initialized]
    set, and so does [clean] after a successful [begin]; the next [begin]
    with valid arguments returns false.  The arrays deleted by the failed
    [begin] are deleted again by the next [clean]. *)
Theorem begin_after_failure :
  (exists st, begin scenario_heap [mk_segment 1 0] 1 new_mempool = Ret (false, st) /\
     _initialized st = true /\
     begin scenario_heap scenario_segs 2 st = Ret (false, st) /\
     clean st = Undef) /\
  (exists st, begin scenario_heap [mk_segment 1 17] 1 new_mempool = Ret (false, st) /\
     _initialized st = true /\
     begin scenario_heap scenario_segs 2 st = Ret (false, st)) /\
  (exists st, begin (Heap (Some 6%nat) 1000) scenario_segs 2 new_mempool
              = Ret (false, st) /\
     _initialized st = true /\
     begin scenario_heap scenario_segs 2 st = Ret (false, st)) /\
  (exists st0 st,
     begin scenario_heap scenario_segs 2 new_mempool = Ret (true, st0) /\
     clean st0 = Ret st /\
     _initialized st = true /\
     begin scenario_heap scenario_segs 2 st = Ret (false, st)).
Proof.
  split; [eexists; run_all |].
  split; [eexists; run_all |].
  split; [eexists; run_all |].
  do 2 eexists; run_all.
Qed.

(** ** The cell index of [release] *)

(** C2: in a pool of 300 cells the offset of cell 256 is recovered as
    cell 0, on the shift path (cells of 4 bytes) and on the magic-number
    path (cells of 12 bytes). *)
Theorem cell_index_truncated :
  (exists st, begin scenario_heap [mk_segment 300 1] 1 new_mempool = Ret (true, st) /\
     rd (_cell_count st) 0 = Ret 300 /\
     rd (_segment_sizes st) 0 = Ret 4 /\
     release_cell_index st 0 (256 * 4) = Ret 0) /\
  (exists st, begin scenario_heap [mk_segment 300 3] 1 new_mempool = Ret (true, st) /\
     rd (_cell_count st) 0 = Ret 300 /\
     rd (_segment_sizes st) 0 = Ret 12 /\
     release_cell_index st 0 (256 * 12) = Ret 0).
Proof.
  split; eexists; run_all.
Qed.

(** ** Duplicate sizes *)

(** C3: with two descriptors of one size [begin] succeeds and stores the
    size twice; with sizes 1, 2, 2 it stores 4, 8, 4.  In the first case,
    once the first cell is taken [alloc(4)] calls itself with the same
    size without end. *)
Theorem duplicate_sizes_stored :
  (exists st st1,
     begin scenario_heap [mk_segment 1 1; mk_segment 1 1] 2 new_mempool
     = Ret (true, st) /\
     _segment_sizes st = Live [4; 4] /\ ~ sizes_increasing st /\
     alloc 1 4 st = Ret (1000, st1) /\
     forall fuel, alloc fuel 4 st1 = NoFuel) /\
  (exists st, begin scenario_heap [mk_segment 1 1; mk_segment 1 2; mk_segment 1 2] 3
                new_mempool = Ret (true, st) /\
     _segment_sizes st = Live [4; 8; 4] /\ ~ sizes_increasing st).
Proof.
  split.
  - eexists _, _. split; [vm_compute; reflexivity |]. split; [reflexivity |].
    split.
    { intros (szs & E & Hinc). cbn in E. injection E as <-.
      specialize (Hinc 0%nat 1%nat 4 4 eq_refl eq_refl ltac:(lia)). lia. }
    split; [vm_compute; reflexivity |].
    intros fuel. induction fuel as [| fuel IH]; [reflexivity |].
    etransitivity; [| exact IH]. cbn [alloc]. cbv -[alloc]. reflexivity.
  - eexists. split; [vm_compute; reflexivity |]. split; [reflexivity |].
    intros (szs & E & Hinc). cbn in E. injection E as <-.
    specialize (Hinc 1%nat 2%nat 8 4 eq_refl eq_refl ltac:(lia)). lia.
Qed.

(** ** The contract of [begin] *)

(** C4 (amended): on a fresh object, with every [new] succeeding, [begin]
    returns failure when [count > 64], and for [1 <= count <= 64] when
    some descriptor has size 0 or a resolved size above 64 bytes; it
    succeeds when [1 <= count <= 64] and every descriptor has a size from
    1 to 16 units and at most 992 cells, a cell count of 0 included. *)
Theorem begin_contract h segs count :
  heap_ok h -> Z.of_nat (length segs) = count -> Forall segment_wf segs ->
  (64 < count -> exists st, begin h segs count new_mempool = Ret (false, st)) /\
  (1 <= count <= 64 ->
   Exists (fun s => segment.size s = 0 \/ 64 < segment.size s * SEGMENT_STEP) segs ->
   exists st, begin h segs count new_mempool = Ret (false, st)) /\
  (1 <= count <= 64 -> Forall segment_ok segs ->
   exists st, begin h segs count new_mempool = Ret (true, st)).
Proof.
  intros Hh Hlen Hwf. split; [| split].
  - intros Hc. exists new_mempool. unfold begin. cbn [_initialized new_mempool].
    destruct (Z.gtb_spec count 64); [reflexivity | lia].
  - intros Hc Hex. apply begin_rejects; (assumption || exact (proj1 Hh)).
  - intros Hc Hok. eexists. apply begin_spec; assumption.
Qed.

Lemma scenario_segs_wf : Forall segment_wf scenario_segs.
Proof. repeat constructor; (apply Z.leb_le || apply Z.ltb_lt); reflexivity. Qed.

Lemma scenario_segs_ok : Forall segment_ok scenario_segs.
Proof. repeat constructor; apply Z.leb_le; reflexivity. Qed.

Lemma mk_segment_wf c s : segment_wf (mk_segment c s).
Proof.
  split; simpl; [apply (Z.mod_pos_bound c 65536) | apply (Z.mod_pos_bound s 256)]; lia.
Qed.

Lemma begin_contract_witness :
  heap_ok scenario_heap /\
  (64 < 65 /\
   exists st, begin scenario_heap (replicate 65 (mk_segment 1 1)) 65 new_mempool
              = Ret (false, st)) /\
  (1 <= 2 <= 64 /\
   exists st, begin scenario_heap [mk_segment 4 1; mk_segment 2 17] 2 new_mempool
              = Ret (false, st)) /\
  (1 <= 2 <= 64 /\ Forall segment_ok scenario_segs /\
   exists st, begin scenario_heap scenario_segs 2 new_mempool = Ret (true, st)).
Proof.
  split; [exact scenario_heap_ok |].
  split; [| split].
  - split; [lia |].
    apply (proj1 (begin_contract scenario_heap (replicate 65 (mk_segment 1 1)) 65
                    scenario_heap_ok eq_refl
                    (Forall_replicate _ _ _ (mk_segment_wf 1 1)))).
    lia.
  - split; [lia |].
    apply (proj1 (proj2 (begin_contract scenario_heap
                           [mk_segment 4 1; mk_segment 2 17] 2
                           scenario_heap_ok eq_refl
                           (Forall_cons_2 _ _ _ (mk_segment_wf 4 1)
                              (Forall_cons_2 _ _ _ (mk_segment_wf 2 17)
                                 (Forall_nil_2 _)))))); [lia |].
    right. left. right. reflexivity.
  - split; [lia |]. split; [exact scenario_segs_ok |].
    apply (proj2 (proj2 (begin_contract scenario_heap scenario_segs 2
                           scenario_heap_ok eq_refl scenario_segs_wf)));
      [lia | exact scenario_segs_ok].
Defined.

(** C4, as stated, fails: a descriptor with cell count 0 is accepted. *)
Lemma begin_accepts_empty_pool :
  exists st, begin scenario_heap [mk_segment 0 1] 1 new_mempool = Ret (true, st).
Proof. eexists. vm_compute. reflexivity. Qed.

(** With [count = 0] the read of [_segment_sizes[count - 1]] is outside
    the array. *)
Lemma begin_no_segments : begin scenario_heap [] 0 new_mempool = Undef.
Proof. reflexivity. Qed.

(** ** The bitmaps *)

(** C5 (amended): after [begin] with cell counts from 1 to 992 and after
    every later [alloc] and [release] of a cell pointer, in every pool
    group bit [g] is the AND of the 32 bits of cell-mask word [g], the
    group bits past the last group are 1 and the cell bits past the last
    cell are 1. *)
Theorem bitmaps_invariant st : reachable st -> bitmaps_ok st.
Proof. intros H. apply Inv_bitmaps_ok, reachable_Inv. exact H. Qed.

Lemma bitmaps_invariant_witness :
  reachable scenario_state /\ bitmaps_ok scenario_state.
Proof.
  split; [exact scenario_reachable |].
  exact (bitmaps_invariant scenario_state scenario_reachable).
Defined.

(** C5, as stated, fails for a pool of 8193 cells: [begin] succeeds and
    leaves group bit 1 set while cell-mask word 1 is 0. *)
Lemma bitmaps_large_pool :
  exists st,
    begin scenario_heap [mk_segment 8193 1] 1 new_mempool = Ret (true, st) /\
    ~ bitmaps_ok st.
Proof.
  eexists. split; [vm_compute; reflexivity |].
  intros H. specialize (H 0 ltac:(simpl; lia)).
  destruct H as (cc & gm & Hcc & Hgm & Hand & _).
  vm_compute in Hcc. injection Hcc as <-.
  vm_compute in Hgm. injection Hgm as <-.
  change (groups 8193) with 257 in Hand.
  destruct (Hand 1) as (w & Hw & Hbit); [lia | lia |].
  vm_compute in Hw. injection Hw as <-.
  vm_compute in Hbit. discriminate.
Qed.

(** ** Exhaustive allocation *)

(** C6 (amended): a single segment of [N] cells, 1 <= N <= 992, of
    resolved size [S = 4 * u]: [begin] succeeds, [N] consecutive
    [alloc(S)] calls return [N] pointers, none of them null, whose cells
    do not overlap pairwise and lie inside the arena, and one more
    [alloc(S)] returns null. *)
Theorem exhaustive_allocation h u N fuel :
  heap_ok h -> 1 <= u <= 16 -> 1 <= N <= 992 -> (1 <= fuel)%nat ->
  exists st0 ptrs stN,
    begin h [segment.mk N u] 1 new_mempool = Ret (true, st0) /\
    alloc_n (Z.to_nat N) fuel (SEGMENT_STEP * u) st0 = Ret (ptrs, stN) /\
    Z.of_nat (length ptrs) = N /\
    Forall (fun p => p <> nullptr) ptrs /\
    (forall (i j : nat) p q, i <> j ->
       ptrs !! i = Some p -> ptrs !! j = Some q ->
       p + SEGMENT_STEP * u <= q \/ q + SEGMENT_STEP * u <= p) /\
    Forall (fun p => arena_addr h <= p /\
                     p + SEGMENT_STEP * u <= arena_addr h + _buffer_size st0) ptrs /\
    alloc fuel (SEGMENT_STEP * u) stN = Ret (nullptr, stN).
Proof.
  intros Hh Hu HN Hfuel. unfold SEGMENT_STEP.
  destruct fuel as [| fuel]; [lia |].
  assert (Hpool : pool_valid (4 * u, N)).
  { split; [exists u; split; [assumption | reflexivity] | assumption]. }
  pose proof (proj2 Hh) as Hbase.
  destruct (single_alloc_run (arena_addr h) (4 * u) N Hpool Hbase fuel (Z.to_nat N)
              0 (init_chunk N) (init_chunk_ok N HN) (used_below_init N HN))
    as (ch & Erun & Hok & Hused); [lia | lia |].
  rewrite Z.add_0_l, Z2Nat.id in Hused by lia.
  eexists _, _, _. split; [apply begin_single; assumption |].
  split; [exact Erun |].
  split; [rewrite length_cell_addrs; lia |].
  split; [| split; [| split]].
  - apply Forall_lookup. intros j p Hp.
    apply cell_addrs_inv in Hp as [Hj ->]. unfold nullptr. nia.
  - intros i j p q Hij Hp Hq.
    apply cell_addrs_inv in Hp as [Hi ->]. apply cell_addrs_inv in Hq as [Hj ->].
    nia.
  - apply Forall_lookup. intros j p Hp.
    apply cell_addrs_inv in Hp as [Hj ->]. rewrite layout_buffer_size.
    simpl. unfold pool_bytes. simpl. nia.
  - apply single_alloc_full; assumption.
Qed.

Lemma exhaustive_allocation_witness :
  heap_ok (Heap None 1000) /\
  exists st0 ptrs stN,
    begin (Heap None 1000) [segment.mk 3 1] 1 new_mempool = Ret (true, st0) /\
    alloc_n (Z.to_nat 3) 1 (SEGMENT_STEP * 1) st0 = Ret (ptrs, stN) /\
    Z.of_nat (length ptrs) = 3 /\
    Forall (fun p => p <> nullptr) ptrs /\
    (forall (i j : nat) p q, i <> j ->
       ptrs !! i = Some p -> ptrs !! j = Some q ->
       p + SEGMENT_STEP * 1 <= q \/ q + SEGMENT_STEP * 1 <= p) /\
    Forall (fun p => arena_addr (Heap None 1000) <= p /\
                     p + SEGMENT_STEP * 1
                     <= arena_addr (Heap None 1000) + _buffer_size st0) ptrs /\
    alloc 1 (SEGMENT_STEP * 1) stN = Ret (nullptr, stN).
Proof.
  assert (H : heap_ok (Heap None 1000)) by (split; [reflexivity | simpl; lia]).
  split; [exact H |].
  apply (exhaustive_allocation (Heap None 1000) 1 3 1 H); lia.
Defined.

(** C6, as stated, fails for a large pool: of the 8193 cells of a single
    segment only 32 can be allocated, the 33rd call returns null. *)
Lemma exhaustive_allocation_large_pool :
  exists st0 ptrs st33,
    begin (Heap None 1000) [mk_segment 8193 1] 1 new_mempool = Ret (true, st0) /\
    alloc_n 33 1 4 st0 = Ret (ptrs, st33) /\
    ptrs !! 32%nat = Some nullptr.
Proof.
  eexists _, _, _. split; [vm_compute; reflexivity |].
  split; [vm_compute; reflexivity | reflexivity].
Qed.

(** ** Escalation to the next segment *)

(** The rule on stored sizes that increase strictly: on such an
    initialized allocator, when the pool a request resolves to has a group
    mask of all ones, [alloc] calls itself with the stored size of the
    next segment, which is larger, when there is one, and returns null
    when there is none.  With two segments of sizes [S1 < S2] and one cell
    each, in either order of the descriptors, the first request of at most
    [S1] bytes returns the [S1] cell and the next one returns the cell of
    the [S2] pool. *)
Theorem escalation :
  (forall st size fuel,
     initialized st -> sizes_increasing st ->
     1 <= size <= _max_segment_size st ->
     exists sg cur,
       rd (_segment_lookup st) (lookup_index size) = Ret sg /\
       0 <= sg < _segment_count st /\
       rd (_segment_sizes st) sg = Ret cur /\ size <= cur /\
       (group_mask st sg = Ret ALL_ONES ->
        (sg < _segment_count st - 1 ->
         exists next,
           rd (_segment_sizes st) (sg + 1) = Ret next /\ cur < next /\
           alloc (S fuel) size st = alloc fuel next st) /\
        (sg = _segment_count st - 1 ->
         (forall j s, rd (_segment_sizes st) j = Ret s -> s <= cur) /\
         alloc (S fuel) size st = Ret (nullptr, st)))) /\
  (forall h u1 u2 size0 size fuel segs,
     heap_ok h -> 1 <= u1 < u2 -> u2 <= 16 ->
     1 <= size0 <= SEGMENT_STEP * u1 ->
     1 <= size <= SEGMENT_STEP * u1 -> (2 <= fuel)%nat ->
     segs = [segment.mk 1 u1; segment.mk 1 u2]
     \/ segs = [segment.mk 1 u2; segment.mk 1 u1] ->
     exists st0 st1 st2,
       begin h segs 2 new_mempool = Ret (true, st0) /\
       rd (_segment_ptr st0) 0 = Ret (arena_addr h) /\
       rd (_segment_ptr st0) 1 = Ret (arena_addr h + SEGMENT_STEP * u1) /\
       alloc fuel size0 st0 = Ret (arena_addr h, st1) /\
       alloc fuel size st1 = Ret (arena_addr h + SEGMENT_STEP * u1, st2)).
Proof.
  split.
  - intros st size fuel Hr Hinc Hs.
    apply alloc_escalates; [apply initialized_Sized | |]; assumption.
  - intros h u1 u2 size0 size fuel segs Hh Hu1 Hu2 Hs0 Hs Hfuel Hsegs.
    unfold SEGMENT_STEP in *.
    destruct fuel as [| [| fuel]]; try lia.
    assert (Hb : begin h segs 2 new_mempool
                 = Ret (true, layout_state (arena_addr h) [(4 * u1, 1); (4 * u2, 1)]
                                (concat [init_chunk 1; init_chunk 1]))).
    { destruct (place_pair (segment.mk 1 u1) (segment.mk 1 u2)) as [P1 P2];
        [simpl; lia | simpl; lia |].
      cbn [segment.size segment.count] in P1, P2. unfold SEGMENT_STEP in P1, P2.
      rewrite !wrap16_small in P1, P2 by lia.
      replace (u1 * 4) with (4 * u1) in P1, P2 by lia.
      replace (u2 * 4) with (4 * u2) in P1, P2 by lia.
      destruct Hsegs as [-> | ->];
        (rewrite begin_spec; try assumption; try lia; try reflexivity;
         [change (Z.to_nat 2) with 2%nat; rewrite ?P1, ?P2; reflexivity
         | repeat constructor; simpl; lia]). }
    destruct (pair_first (arena_addr h) u1 u2 (proj2 Hh) ltac:(lia) (S fuel) size0 Hs0)
      as (ch1 & E1 & Hok1 & Hused1).
    destruct (pair_second (arena_addr h) u1 u2 (proj2 Hh) ltac:(lia) fuel size ch1
                Hok1 Hused1 Hs) as (ch2 & E2).
    eexists _, _, _. split; [exact Hb |].
    split; [lay; rewrite (rd_seg_ptrs _ _ 0%nat) by (simpl; lia || reflexivity);
            rewrite seg_off_0; f_equal; lia |].
    split; [lay; rewrite (rd_seg_ptrs _ _ 1%nat) by (simpl; lia || reflexivity);
            unfold seg_off, pool_bytes; simpl; f_equal; lia |].
    split; [exact E1 | exact E2].
Qed.

Lemma alloc_n_initialized n : forall fuel size st ptrs st',
  initialized st -> alloc_n n fuel size st = Ret (ptrs, st') -> initialized st'.
Proof.
  induction n as [| n IH]; intros fuel size st ptrs st' Hi H; simpl in H.
  - injection H as _ <-. assumption.
  - apply bind_Ret in H as ([p s1] & H1 & H).
    apply bind_Ret in H as ([ps s2] & H2 & H). injection H as _ <-.
    eapply IH; [| exact H2]. eapply init_alloc; eassumption.
Qed.

Lemma scenario_initialized : initialized scenario_state.
Proof. exact (reachable_initialized _ scenario_reachable). Qed.

Lemma scenario_full_initialized : initialized scenario_full.
Proof.
  apply (alloc_n_initialized 4 1 4 scenario_state [1000; 1004; 1008; 1012]);
    [exact scenario_initialized | vm_compute; reflexivity].
Qed.

Lemma scenario_full_increasing : sizes_increasing scenario_full.
Proof. exact scenario_sizes_increasing. Qed.

Lemma escalation_witness :
  (initialized scenario_full /\ sizes_increasing scenario_full /\
   group_mask scenario_full 0 = Ret ALL_ONES /\
   exists next,
     rd (_segment_sizes scenario_full) (0 + 1) = Ret next /\ 4 < next /\
     alloc 2 3 scenario_full = alloc 1 next scenario_full) /\
  (heap_ok scenario_heap /\
   exists st0 st1 st2,
     begin scenario_heap [segment.mk 1 1; segment.mk 1 4] 2 new_mempool
     = Ret (true, st0) /\
     rd (_segment_ptr st0) 0 = Ret (arena_addr scenario_heap) /\
     rd (_segment_ptr st0) 1 = Ret (arena_addr scenario_heap + SEGMENT_STEP * 1) /\
     alloc 2 4 st0 = Ret (arena_addr scenario_heap, st1) /\
     alloc 2 3 st1 = Ret (arena_addr scenario_heap + SEGMENT_STEP * 1, st2)).
Proof.
  split.
  - split; [exact scenario_full_initialized |].
    split; [exact scenario_full_increasing |].
    split; [reflexivity |].
    destruct (proj1 escalation scenario_full 3 1%nat scenario_full_initialized
                scenario_full_increasing)
      as (sg & cur & Hsg & _ & Hcur & _ & Hesc);
      [vm_compute; split; discriminate |].
    assert (E : sg = 0) by (vm_compute in Hsg; congruence). subst sg.
    assert (Ec : cur = 4) by (vm_compute in Hcur; congruence). subst cur.
    exact (proj1 (Hesc eq_refl) eq_refl).
  - split; [exact scenario_heap_ok |].
    apply (proj2 escalation scenario_heap 1 4 4 3 2%nat
             [segment.mk 1 1; segment.mk 1 4] scenario_heap_ok);
      try (unfold SEGMENT_STEP; lia).
    left. reflexivity.
Defined.

(** C7: with two descriptors of one size and one cell each, after the
    first [alloc(4)] a request of 4 bytes resolves to segment 0, whose
    group mask is all ones; no stored size is larger than 4 and the cell
    of segment 1 is free.  [alloc(4)] then calls itself with the stored
    size of segment 1, which is 4 again, and so on without end: it
    returns neither null nor the free cell. *)
Theorem escalation_duplicate_sizes :
  exists st0 st1,
    begin scenario_heap [mk_segment 1 1; mk_segment 1 1] 2 new_mempool
    = Ret (true, st0) /\
    alloc 1 4 st0 = Ret (1000, st1) /\
    initialized st1 /\
    rd (_segment_lookup st1) (lookup_index 4) = Ret 0 /\
    group_mask st1 0 = Ret ALL_ONES /\
    (forall j s, rd (_segment_sizes st1) j = Ret s -> s <= 4) /\
    rd (_segment_sizes st1) (0 + 1) = Ret 4 /\
    cell_bit st1 1 0 = Ret false /\
    (forall fuel, alloc (S fuel) 4 st1 = alloc fuel 4 st1) /\
    (forall fuel, alloc fuel 4 st1 = NoFuel).
Proof.
  eexists _, _. split; [vm_compute; reflexivity |].
  split; [vm_compute; reflexivity |].
  split.
  { eapply (init_alloc 1 4 1000);
      [eapply (init_begin scenario_heap [mk_segment 1 1; mk_segment 1 1] 2);
       [exact scenario_heap_ok | reflexivity
        | repeat constructor; apply mk_segment_wf | vm_compute; reflexivity]
      | vm_compute; reflexivity]. }
  split; [vm_compute; reflexivity |].
  split; [vm_compute; reflexivity |].
  split.
  { intros j s H. cbn in H. apply rd_Live_inv in H as [_ H].
    destruct (Z.to_nat j) as [| [| n]]; simpl in H; try discriminate;
      injection H as <-; lia. }
  split; [vm_compute; reflexivity |].
  split; [vm_compute; reflexivity |].
  assert (Hstep : forall fuel,
            alloc (S fuel) 4
              (Mempool true (Live 1000) 8 4
                 (Live [ALL_ONES; ALL_ONES; 4294967294; 4294967294])
                 (Live [0; 2]) (Live [1000; 1004]) 4 (Live [4; 4])
                 (Live [1; 1]) (Live [1; 1]) (Live [2; 2]) 2 (Live [0]) 1)
            = alloc fuel 4
                (Mempool true (Live 1000) 8 4
                   (Live [ALL_ONES; ALL_ONES; 4294967294; 4294967294])
                   (Live [0; 2]) (Live [1000; 1004]) 4 (Live [4; 4])
                   (Live [1; 1]) (Live [1; 1]) (Live [2; 2]) 2 (Live [0]) 1)).
  { intros fuel. cbn [alloc]. cbv -[alloc]. reflexivity. }
  split; [exact Hstep |].
  intros fuel. induction fuel as [| fuel IH]; [reflexivity |].
  etransitivity; [apply Hstep | exact IH].
Qed.

(** ** A pair of [alloc] and [release] in a pool of more than 256 cells *)

(** C8: in a pool of 300 cells of 4 bytes with cells 0 to 255 in use,
    [alloc(4)] returns cell 256 and its [release] frees cell 0: the free
    cells change from 256..299 to 0, 257..299, and the next [alloc(4)]
    returns the address of cell 0, which is still in use, not the address
    released. *)
Theorem round_trip_large_pool :
  exists st0 ptrs st1 st2 st3 st4,
    begin scenario_heap [mk_segment 300 1] 1 new_mempool = Ret (true, st0) /\
    alloc_n 256 1 4 st0 = Ret (ptrs, st1) /\
    ptrs = cell_addrs 1000 4 0 256 /\
    free_cells st1 0 = Ret (range 256 44) /\
    alloc 1 4 st1 = Ret (1000 + 256 * 4, st2) /\
    release (1000 + 256 * 4) st2 = Ret st3 /\
    free_cells st3 0 = Ret (0 :: range 257 43) /\
    alloc 1 4 st3 = Ret (1000, st4).
Proof.
  do 6 eexists. run_all.
Qed.

(** ** The lookup table *)

(** C9: on an initialized allocator the index [alloc] computes for a
    size from 1 to the largest cell size is inside the lookup table; for
    size 0 it is -1, and the read is outside the table. *)
Theorem lookup_index_in_bounds st :
  initialized st ->
  exists table,
    _segment_lookup st = Live table /\
    Z.of_nat (length table) = _segment_lookup_count st /\
    (forall size, 1 <= size <= _max_segment_size st ->
       0 <= lookup_index size < Z.of_nat (length table)) /\
    lookup_index 0 = -1 /\
    rd (_segment_lookup st) (lookup_index 0) = Undef.
Proof.
  intros Hi. destruct (initialized_Sized _ Hi) as (szs & Hne & Hlen & Hsz & Hf).
  unfold shape in Hf. injection Hf as Hss Hsc Hmx Hlk Hlkc _.
  destruct (max_of_cell_size _ Hne Hsz) as (u & Hu & Hmax).
  exists (lookup_table szs). rewrite Hlk, Hlkc, Hmx, length_lookup_table.
  split; [reflexivity |].
  split; [rewrite Hmax; unfold SEGMENT_STEP; Z.div_mod_to_equations; lia |].
  split; [| split; reflexivity].
  intros size Hs.
  pose proof (lookup_index_range _ u size Hmax Hs) as H.
  rewrite Hmax in *. unfold SEGMENT_STEP in *. Z.div_mod_to_equations. lia.
Qed.

Lemma lookup_index_in_bounds_witness :
  initialized scenario_state /\
  exists table,
    _segment_lookup scenario_state = Live table /\
    Z.of_nat (length table) = _segment_lookup_count scenario_state /\
    (forall size, 1 <= size <= _max_segment_size scenario_state ->
       0 <= lookup_index size < Z.of_nat (length table)) /\
    lookup_index 0 = -1 /\
    rd (_segment_lookup scenario_state) (lookup_index 0) = Undef.
Proof.
  split; [exact scenario_initialized |].
  exact (lookup_index_in_bounds scenario_state scenario_initialized).
Defined.

(** ** The depth of the nested calls *)

(** C10: on an initialized allocator whose stored sizes increase
    strictly, [alloc] with fuel for as many nested calls as there are
    segments never runs out of fuel, whatever the size asked for, and the
    stored size of a segment resolves to that segment, so that a nested
    call starts at the next index; when the allocator was set up with 1
    to 992 cells in every pool and only cell pointers were released,
    [alloc] returns for every size from 1 on. *)
Theorem alloc_terminates st size fuel :
  initialized st -> sizes_increasing st ->
  _segment_count st <= Z.of_nat fuel ->
  alloc fuel size st <> NoFuel /\
  (forall j s, rd (_segment_sizes st) j = Ret s ->
     rd (_segment_lookup st) (lookup_index s) = Ret j) /\
  (reachable st -> 1 <= size ->
   exists p st', alloc fuel size st = Ret (p, st')).
Proof.
  intros Hi Hinc Hfuel. pose proof (initialized_Sized _ Hi) as Hsz.
  split; [apply alloc_fuel; assumption |].
  split; [intros j s Hj; apply resolve_stored; assumption |].
  intros Hr Hs.
  destruct (alloc_returns st size fuel (reachable_Inv _ Hr) Hinc Hs Hfuel)
    as ([p st'] & E).
  exists p, st'. exact E.
Qed.

Lemma alloc_terminates_witness :
  initialized scenario_state /\ sizes_increasing scenario_state /\
  reachable scenario_state /\
  _segment_count scenario_state <= Z.of_nat 2 /\
  alloc 2 4 scenario_state <> NoFuel /\
  rd (_segment_lookup scenario_state) (lookup_index 16) = Ret 1 /\
  exists p st', alloc 2 4 scenario_state = Ret (p, st').
Proof.
  split; [exact scenario_initialized |].
  split; [exact scenario_sizes_increasing |].
  split; [exact scenario_reachable |].
  assert (Hfuel : _segment_count scenario_state <= Z.of_nat 2) by (simpl; lia).
  split; [exact Hfuel |].
  destruct (alloc_terminates scenario_state 4 2 scenario_initialized
              scenario_sizes_increasing Hfuel) as (H1 & H2 & H3).
  split; [exact H1 |].
  split; [exact (H2 1 16 eq_refl) |].
  apply H3; [exact scenario_reachable | lia].
Defined.

(** * Further properties of the allocator *)

(** ** Cells of a layout *)

Lemma cell_at_layout base pools pb sg i sz ptr :
  cell_at (layout_state base pools pb) sg i sz ptr ->
  exists (k : nat) q,
    sg = Z.of_nat k /\ pools !! k = Some q /\ sz = fst q /\
    0 <= i < snd q /\ ptr = base + seg_off pools k + i * fst q.
Proof.
  intros (Hsg & b & cc & Hb & Hsz & Hcc & Hi & ->).
  revert Hsg Hb Hsz Hcc. lay. intros Hsg Hb Hsz Hcc.
  destruct (lookup_lt_is_Some_2 pools (Z.to_nat sg) ltac:(lia)) as [q Hq].
  rewrite (rd_seg_ptrs _ _ (Z.to_nat sg)) in Hb by lia.
  rewrite (rd_fmap fst pools (Z.to_nat sg) q) in Hsz by (assumption || lia).
  rewrite (rd_fmap snd pools (Z.to_nat sg) q) in Hcc by (assumption || lia).
  injection Hb as <-. injection Hsz as <-. injection Hcc as <-.
  exists (Z.to_nat sg), q. repeat split; try assumption; lia.
Qed.

Lemma layout_cell_at base pools pb (k : nat) q i :
  pools !! k = Some q -> 0 <= i < snd q ->
  cell_at (layout_state base pools pb) (Z.of_nat k) i (fst q)
    (base + seg_off pools k + i * fst q).
Proof.
  intros Hq Hi. pose proof (lookup_lt_Some _ _ _ Hq) as Hk.
  split; [lay; lia |].
  exists (base + seg_off pools k), (snd q). lay.
  split; [apply rd_seg_ptrs; [assumption | reflexivity] |].
  split; [apply (rd_fmap fst pools k q); [assumption | reflexivity] |].
  split; [apply (rd_fmap snd pools k q); [assumption | reflexivity] |].
  split; [assumption | reflexivity].
Qed.

(** The bit of a cell of a layout is the bit of its chunk. *)
Lemma cell_bit_layout base pools chunks (k : nat) q ch b :
  layout_ok base pools chunks ->
  pools !! k = Some q -> chunks !! k = Some ch -> 0 <= b < snd q ->
  cell_bit (layout_state base pools (concat chunks)) (Z.of_nat k) b
  = Ret (chunk_used ch b).
Proof.
  intros (Hb & Hn & Hv & Hck) Hq Hch Hbq.
  pose proof (chunks_fit _ _ Hck) as Hfit.
  pose proof (Forall2_lookup_lr _ _ _ _ _ _ Hck Hq Hch) as Hok.
  pose proof (proj2 (proj1 (Forall_lookup _ _) Hv _ _ Hq)) as Hcc.
  assert (Hcc' : 0 <= snd q <= 992) by lia.
  pose proof (lookup_lt_Some _ _ _ Hq) as Hk.
  assert (Hg : 0 <= b / 32 < groups (snd q))
    by (unfold groups in *; Z.div_mod_to_equations; lia).
  destruct (chunk_ok_cell _ _ _ Hok Hcc' Hg) as (w & Ew & Hww).
  unfold cell_bit, cell_mask. lay.
  rewrite (rd_pool_ptrs _ k) by (assumption || reflexivity). cbn [bind].
  rewrite (rd_chunk _ _ _ ch _ w Hfit Hch)
    by (try lia; replace (Z.to_nat (b / 32 + 1)) with (S (Z.to_nat (b / 32))) by lia;
        assumption).
  cbn [bind]. unfold chunk_used. rewrite Ew. reflexivity.
Qed.

(** ** Cells of the scenario *)

Lemma cell_at_intro st sg i sz ptr base cc :
  0 <= sg < _segment_count st ->
  rd (_segment_ptr st) sg = Ret base -> rd (_segment_sizes st) sg = Ret sz ->
  rd (_cell_count st) sg = Ret cc -> 0 <= i < cc -> ptr = base + i * sz ->
  cell_at st sg i sz ptr.
Proof.
  intros H1 H2 H3 H4 H5 H6.
  exact (conj H1 (ex_intro _ base (ex_intro _ cc
           (conj H2 (conj H3 (conj H4 (conj H5 H6))))))).
Qed.

Ltac in_range := split; [apply Z.leb_le | apply Z.ltb_lt]; vm_compute; reflexivity.

Ltac scenario_cell base cc :=
  apply (cell_at_intro _ _ _ _ _ base cc);
  [in_range | vm_compute; reflexivity | vm_compute; reflexivity
   | vm_compute; reflexivity | in_range | vm_compute; reflexivity].

Lemma scenario_cell_0_0 : cell_at scenario_state 0 0 4 1000.
Proof. scenario_cell 1000 4. Qed.

Lemma scenario_cell_1_1 : cell_at scenario_state 1 1 16 1032.
Proof. scenario_cell 1016 2. Qed.

Lemma scenario_small_pools : small_pools scenario_state.
Proof.
  intros sg cc H. change (_cell_count scenario_state) with (Live [4; 2]) in H.
  apply rd_Live_inv in H as [_ H].
  destruct (Z.to_nat sg) as [| [| n]]; simpl in H; [| | discriminate];
    injection H as <-; lia.
Qed.

(** ** What a call of [alloc] does *)

Lemma alloc_layout fuel : forall size base pools chunks p st',
  layout_ok base pools chunks -> 0 <= size ->
  alloc fuel size (layout_state base pools (concat chunks)) = Ret (p, st') ->
  (p = nullptr /\ st' = layout_state base pools (concat chunks))
  \/ (exists (sg : nat) q ch g0 b0,
        pools !! sg = Some q /\ chunks !! sg = Some ch /\
        0 <= g0 * 32 + b0 < snd q /\
        chunk_used ch (g0 * 32 + b0) = false /\
        (forall b, 0 <= b < g0 * 32 + b0 -> chunk_used ch b = true) /\
        chunk_ok (snd q) (chunk_take ch g0 b0) /\
        chunk_used (chunk_take ch g0 b0) (g0 * 32 + b0) = true /\
        (forall b, 0 <= b -> b <> g0 * 32 + b0 ->
           chunk_used (chunk_take ch g0 b0) b = chunk_used ch b) /\
        p = base + seg_off pools sg + (g0 * 32 + b0) * fst q /\
        p <> nullptr /\
        st' = layout_state base pools
                (concat (<[sg := chunk_take ch g0 b0]> chunks)) /\
        (strictly_increasing (fst <$> pools) -> size <= fst q)).
Proof.
  induction fuel as [| fuel IH]; intros size base pools chunks p st' Hlay Hs Ha;
    [discriminate |].
  pose proof Hlay as (Hb & Hn & Hv & Hck).
  pose proof (max_of_nonneg pools Hv) as Hmx.
  destruct (Z.lt_ge_cases (max_of (fst <$> pools)) size) as [Hbig | Hfit].
  { rewrite alloc_oversize in Ha by assumption. injection Ha as <- <-.
    left. split; reflexivity. }
  destruct (Z.eq_dec size 0) as [-> | Hnz].
  { rewrite alloc_zero in Ha by assumption. discriminate. }
  destruct (alloc_cases base pools chunks fuel size Hlay ltac:(lia))
    as (sg & q & ch & _ & Hq & Hch & Hle & _ & Hcase).
  destruct Hcase as [(_ & q' & Hq' & E) | [(_ & _ & E) | (g0 & b0 & Hj & Hfree & Hlowest & Hok & Hset & Hother & E)]];
    rewrite E in Ha.
  - destruct (proj1 (proj1 (Forall_lookup _ _) Hv _ _ Hq')) as (u & Hu & Hfq).
    destruct (IH (fst q') base pools chunks p st' Hlay ltac:(lia) Ha)
      as [Hnull | (sg2 & q2 & ch2 & g2 & b2 & H1 & H2 & H3 & H4 & H5 & H6 & H7 & H8 & H9 & H10 & H11 & H12)];
      [left; assumption | right].
    exists sg2, q2, ch2, g2, b2. repeat (split; [assumption |]).
    intros Hinc. specialize (H12 Hinc).
    assert (fst q < fst q'); [| lia].
    apply (Hinc sg (S sg)); [| | lia]; rewrite list_lookup_fmap.
    + rewrite Hq. reflexivity.
    + rewrite Hq'. reflexivity.
  - injection Ha as <- <-. left. split; reflexivity.
  - injection Ha as <- <-. right.
    exists sg, q, ch, g0, b0. repeat (split; [assumption |]).
    split; [reflexivity |].
    split.
    { pose proof (proj2 (proj1 (Forall_lookup _ _) Hv _ _ Hq)) as Hcc.
      destruct (cell_offset_range pools sg q (g0 * 32 + b0) Hv Hq Hj)
        as (Ho1 & _ & Ho3 & _).
      unfold nullptr. lia. }
    split; [reflexivity |]. intros _. assumption.
Qed.

(** X1: on an allocator in use whose stored sizes increase strictly, a
    call of [alloc] that returns a pointer returns the first byte of a
    cell that is at least as large as the request, was free, is the lowest
    free cell of its pool and is in use afterwards; the bit of every other
    cell is as before. *)
Theorem alloc_takes_free_cell st size fuel p st' :
  reachable st -> sizes_increasing st -> 0 <= size ->
  alloc fuel size st = Ret (p, st') -> p <> nullptr ->
  exists sg i sz,
    cell_at st sg i sz p /\ size <= sz /\
    cell_bit st sg i = Ret false /\
    (forall i', 0 <= i' < i -> cell_bit st sg i' = Ret true) /\
    cell_bit st' sg i = Ret true /\
    (forall sg' i' sz' q,
       cell_at st sg' i' sz' q -> (sg', i') <> (sg, i) ->
       cell_bit st' sg' i' = cell_bit st sg' i').
Proof.
  intros Hr Hinc Hs Ha Hp.
  destruct (reachable_Inv _ Hr) as (base & pools & chunks & -> & Hlay).
  apply sizes_increasing_layout in Hinc.
  destruct (alloc_layout fuel size base pools chunks p st' Hlay Hs Ha)
    as [[Hnull _] | (sg & q & ch & g0 & b0 & Hq & Hch & Hj & Hfree & Hlowest & Hok
                     & Hset & Hother & -> & _ & -> & Hle)];
    [contradiction |].
  pose proof (lookup_lt_Some _ _ _ Hch) as Hsg.
  assert (Hlay' : layout_ok base pools (<[sg := chunk_take ch g0 b0]> chunks))
    by (eapply layout_ok_insert; eassumption).
  assert (Hch' : <[sg := chunk_take ch g0 b0]> chunks !! sg = Some (chunk_take ch g0 b0))
    by (apply list_lookup_insert_eq; assumption).
  exists (Z.of_nat sg), (g0 * 32 + b0), (fst q).
  split; [apply layout_cell_at; assumption |].
  split; [apply Hle; assumption |].
  split; [rewrite (cell_bit_layout _ _ _ sg q ch) by assumption; rewrite Hfree; reflexivity |].
  split.
  { intros i' Hi'.
    rewrite (cell_bit_layout _ _ _ sg q ch) by (assumption || lia).
    rewrite Hlowest by assumption. reflexivity. }
  split.
  { rewrite (cell_bit_layout _ _ _ sg q (chunk_take ch g0 b0)) by assumption.
    rewrite Hset. reflexivity. }
  intros sg' i' sz' ptr' Hcell Hne.
  destruct (cell_at_layout _ _ _ _ _ _ _ Hcell) as (k & q' & -> & Hq' & _ & Hi' & _).
  destruct (Nat.eq_dec k sg) as [-> | Hk].
  - rewrite Hq in Hq'. injection Hq' as <-.
    rewrite (cell_bit_layout _ _ _ sg q (chunk_take ch g0 b0)) by assumption.
    rewrite (cell_bit_layout _ _ _ sg q ch) by assumption.
    rewrite Hother; [reflexivity | lia | congruence].
  - pose proof Hlay as (_ & _ & _ & Hck).
    destruct (Forall2_lookup_l _ _ _ _ _ Hck Hq') as (ch' & Hch2 & _).
    rewrite (cell_bit_layout _ _ _ k q' ch')
      by (try assumption; rewrite list_lookup_insert_ne by congruence; assumption).
    rewrite (cell_bit_layout _ _ _ k q' ch') by assumption.
    reflexivity.
Qed.

Lemma alloc_takes_free_cell_witness :
  reachable scenario_state /\ sizes_increasing scenario_state /\ 0 <= 4 /\
  1000 <> nullptr /\
  exists st',
    alloc 2 4 scenario_state = Ret (1000, st') /\
    exists sg i sz,
      cell_at scenario_state sg i sz 1000 /\ 4 <= sz /\
      cell_bit scenario_state sg i = Ret false /\
      (forall i', 0 <= i' < i -> cell_bit scenario_state sg i' = Ret true) /\
      cell_bit st' sg i = Ret true /\
      (forall sg' i' sz' q,
         cell_at scenario_state sg' i' sz' q -> (sg', i') <> (sg, i) ->
         cell_bit st' sg' i' = cell_bit scenario_state sg' i').
Proof.
  split; [exact scenario_reachable |].
  split; [exact scenario_sizes_increasing |].
  split; [lia |].
  split; [discriminate |].
  eexists. split; [vm_compute; reflexivity |].
  apply (alloc_takes_free_cell scenario_state 4 2 1000 _ scenario_reachable
           scenario_sizes_increasing);
    [lia | vm_compute; reflexivity | discriminate].
Defined.

(** X2: on an allocator in use a call of [alloc] that returns null leaves
    every member as it was. *)
Theorem alloc_null_unchanged st size fuel st' :
  reachable st -> 0 <= size ->
  alloc fuel size st = Ret (nullptr, st') -> st' = st.
Proof.
  intros Hr Hs Ha.
  destruct (reachable_Inv _ Hr) as (base & pools & chunks & -> & Hlay).
  destruct (alloc_layout fuel size base pools chunks nullptr st' Hlay Hs Ha)
    as [[_ E] | (sg & q & ch & g0 & b0 & _ & _ & _ & _ & _ & _ & _ & _ & _ & Hne & _)];
    [assumption | contradiction].
Qed.

Lemma alloc_null_unchanged_witness :
  reachable scenario_state /\ 0 <= 17 /\
  exists st',
    alloc 2 17 scenario_state = Ret (nullptr, st') /\ st' = scenario_state.
Proof.
  split; [exact scenario_reachable |].
  split; [lia |].
  eexists. split; [vm_compute; reflexivity |].
  apply (alloc_null_unchanged scenario_state 17 2 _ scenario_reachable);
    [lia | vm_compute; reflexivity].
Defined.

Lemma alloc_finds_from base pools chunks :
  layout_ok base pools chunks -> strictly_increasing (fst <$> pools) ->
  forall fuel size (k : nat) q,
    1 <= size -> pools !! k = Some q -> size <= fst q ->
    (forall (j : nat) p', (j < k)%nat -> pools !! j = Some p' -> fst p' < size) ->
    (exists (sg : nat) q' ch' b,
       (k <= sg)%nat /\ pools !! sg = Some q' /\ chunks !! sg = Some ch' /\
       0 <= b < snd q' /\ chunk_used ch' b = false) ->
    (length pools <= k + fuel)%nat ->
    exists p st',
      alloc fuel size (layout_state base pools (concat chunks)) = Ret (p, st') /\
      p <> nullptr.
Proof.
  intros Hlay Hinc. pose proof Hlay as (Hb & Hn & Hv & Hck).
  induction fuel as [| fuel IH]; intros size k q Hs Hq Hle Hlow Hfree Hfuel.
  - pose proof (lookup_lt_Some _ _ _ Hq). lia.
  - destruct (Forall2_lookup_l _ _ _ _ _ Hck Hq) as (ch & Hch & _).
    assert (Hmax : 1 <= size <= max_of (fst <$> pools)).
    { split; [assumption |].
      pose proof (increasing_le_max (fst <$> pools) k (fst q) Hinc) as H.
      rewrite list_lookup_fmap, Hq in H. specialize (H eq_refl). lia. }
    destruct Hfree as (sg & q' & ch' & b & Hsg & Hq' & Hch' & Hbq & Hfb).
    assert (Hnot : chunk_exhausted (snd q) ch -> (S k <= sg)%nat).
    { intros Hex. destruct (Nat.eq_dec sg k) as [-> | Hne]; [| lia].
      rewrite Hq in Hq'. injection Hq' as <-. rewrite Hch in Hch'. injection Hch' as <-.
      rewrite (Hex b Hbq) in Hfb. discriminate. }
    destruct (alloc_at base pools chunks fuel size k q ch Hlay Hmax Hq Hch Hle Hlow)
      as [(Hex & p' & Hp' & E) | [(Hex & Hlast & _) | (g0 & b0 & Hj & _ & _ & _ & _ & _ & E)]].
    + rewrite E. specialize (Hnot Hex).
      apply (IH (fst p') (S k) p'); [| assumption | lia | | | lia].
      * destruct (proj1 (proj1 (Forall_lookup _ _) Hv _ _ Hp')) as (u & Hu & ->). lia.
      * intros j p0 Hj Hp0.
        apply (Hinc j (S k)); [| | lia]; rewrite list_lookup_fmap.
        -- rewrite Hp0. reflexivity.
        -- rewrite Hp'. reflexivity.
      * exists sg, q', ch', b. repeat (split; [assumption |]). assumption.
    + specialize (Hnot Hex). pose proof (lookup_lt_Some _ _ _ Hq'). lia.
    + rewrite E. eexists _, _. split; [reflexivity |].
      destruct (cell_offset_range pools k q (g0 * 32 + b0) Hv Hq Hj)
        as (Ho1 & _ & Ho3 & _).
      unfold nullptr. lia.
Qed.

(** X3: on an allocator in use whose stored sizes increase strictly,
    [alloc] returns a pointer whenever some cell at least as large as the
    request is free, given fuel for as many nested calls as there are
    segments. *)
Theorem alloc_succeeds st size fuel sg i sz ptr :
  reachable st -> sizes_increasing st -> 1 <= size ->
  cell_at st sg i sz ptr -> size <= sz -> cell_bit st sg i = Ret false ->
  _segment_count st <= Z.of_nat fuel ->
  exists p st', alloc fuel size st = Ret (p, st') /\ p <> nullptr.
Proof.
  intros Hr Hinc Hs Hcell Hle Hbit Hfuel.
  destruct (reachable_Inv _ Hr) as (base & pools & chunks & -> & Hlay).
  apply sizes_increasing_layout in Hinc.
  pose proof Hlay as (Hb & Hn & Hv & Hck).
  destruct (cell_at_layout _ _ _ _ _ _ _ Hcell) as (k0 & q0 & -> & Hq0 & -> & Hi & _).
  destruct (Forall2_lookup_l _ _ _ _ _ Hck Hq0) as (ch0 & Hch0 & _).
  rewrite (cell_bit_layout _ _ _ k0 q0 ch0) in Hbit by assumption.
  injection Hbit as Hbit.
  assert (Hne : pools <> []) by (intros ->; simpl in Hn; lia).
  assert (Hpl : Forall pool_placed pools)
    by (eapply Forall_impl; [exact Hv | exact pool_valid_placed]).
  assert (Hmax : 1 <= size <= max_of (fst <$> pools)).
  { split; [assumption |].
    pose proof (increasing_le_max (fst <$> pools) k0 (fst q0) Hinc) as H.
    rewrite list_lookup_fmap, Hq0 in H. specialize (H eq_refl). lia. }
  destruct (resolve_spec pools size Hne Hpl Hmax) as (k & q & _ & Hq & Hleq & Hlow).
  revert Hfuel. lay. intros Hfuel.
  apply (alloc_finds_from base pools chunks Hlay Hinc fuel size k q);
    try assumption; [| lia].
  exists k0, q0, ch0, i. repeat (split; [try assumption |]); [| assumption].
  destruct (Nat.le_gt_cases k k0) as [| Hlt]; [assumption |].
  specialize (Hlow k0 q0 Hlt Hq0). lia.
Qed.

Lemma alloc_succeeds_witness :
  reachable scenario_state /\ sizes_increasing scenario_state /\ 1 <= 9 /\
  cell_at scenario_state 1 1 16 1032 /\ 9 <= 16 /\
  cell_bit scenario_state 1 1 = Ret false /\
  _segment_count scenario_state <= Z.of_nat 2 /\
  exists p st', alloc 2 9 scenario_state = Ret (p, st') /\ p <> nullptr.
Proof.
  assert (Hfuel : _segment_count scenario_state <= Z.of_nat 2) by (simpl; lia).
  assert (Hbit : cell_bit scenario_state 1 1 = Ret false)
    by (vm_compute; reflexivity).
  split; [exact scenario_reachable |].
  split; [exact scenario_sizes_increasing |].
  split; [lia |].
  split; [exact scenario_cell_1_1 |].
  split; [lia |].
  split; [exact Hbit |].
  split; [exact Hfuel |].
  apply (alloc_succeeds scenario_state 9 2 1 1 16 1032 scenario_reachable
           scenario_sizes_increasing);
    [lia | exact scenario_cell_1_1 | lia | exact Hbit | exact Hfuel].
Defined.

(** ** What a call of [release] does *)

(** X4: on an allocator in use, [release] of the pointer of a cell with
    an index below 256 returns, clears the bit of that cell and leaves the
    bit of every other cell as it was. *)
Theorem release_frees_cell st sg i sz ptr :
  reachable st -> cell_at st sg i sz ptr -> i < 256 ->
  exists st',
    release ptr st = Ret st' /\
    cell_bit st' sg i = Ret false /\
    (forall sg' i' sz' q,
       cell_at st sg' i' sz' q -> (sg', i') <> (sg, i) ->
       cell_bit st' sg' i' = cell_bit st sg' i').
Proof.
  intros Hr Hcell H256.
  destruct (reachable_Inv _ Hr) as (base & pools & chunks & -> & Hlay).
  pose proof Hlay as (Hb & Hn & Hv & Hck).
  destruct (cell_at_layout _ _ _ _ _ _ _ Hcell) as (k & q & -> & Hq & -> & Hi & ->).
  destruct (Forall2_lookup_l _ _ _ _ _ Hck Hq) as (ch & Hch & Hok).
  pose proof (proj2 (proj1 (Forall_lookup _ _) Hv _ _ Hq)) as Hcc.
  pose proof (lookup_lt_Some _ _ _ Hch) as Hk.
  destruct (chunk_give_spec (snd q) ch i Hok ltac:(lia) Hi) as (Hok' & Hclr & Hother).
  rewrite (release_cell _ _ _ _ _ _ _ Hlay Hq Hch Hi), wrap8_small by lia.
  eexists. split; [reflexivity |].
  assert (Hlay' : layout_ok base pools (<[k := chunk_give ch i]> chunks))
    by (eapply layout_ok_insert; eassumption).
  assert (Hch' : <[k := chunk_give ch i]> chunks !! k = Some (chunk_give ch i))
    by (apply list_lookup_insert_eq; assumption).
  split.
  { rewrite (cell_bit_layout _ _ _ k q (chunk_give ch i)) by assumption.
    rewrite Hclr. reflexivity. }
  intros sg' i' sz' ptr' Hcell' Hne.
  destruct (cell_at_layout _ _ _ _ _ _ _ Hcell') as (k' & q' & -> & Hq' & _ & Hi' & _).
  destruct (Nat.eq_dec k' k) as [-> | Hkk].
  - rewrite Hq in Hq'. injection Hq' as <-.
    rewrite (cell_bit_layout _ _ _ k q (chunk_give ch i)) by assumption.
    rewrite (cell_bit_layout _ _ _ k q ch) by assumption.
    rewrite Hother; [reflexivity | lia | congruence].
  - destruct (Forall2_lookup_l _ _ _ _ _ Hck Hq') as (ch' & Hch2 & _).
    rewrite (cell_bit_layout _ _ _ k' q' ch')
      by (try assumption; rewrite list_lookup_insert_ne by congruence; assumption).
    rewrite (cell_bit_layout _ _ _ k' q' ch') by assumption.
    reflexivity.
Qed.

Lemma release_frees_cell_witness :
  exists st,
    alloc 2 4 scenario_state = Ret (1000, st) /\
    reachable st /\ cell_at st 0 0 4 1000 /\ 0 < 256 /\
    cell_bit st 0 0 = Ret true /\
    exists st',
      release 1000 st = Ret st' /\
      cell_bit st' 0 0 = Ret false /\
      (forall sg' i' sz' q,
         cell_at st sg' i' sz' q -> (sg', i') <> (0, 0) ->
         cell_bit st' sg' i' = cell_bit st sg' i').
Proof.
  eexists. split; [vm_compute; reflexivity |].
  match goal with
  | |- reachable ?s /\ _ =>
      assert (Hr : reachable s)
        by (apply (reach_alloc 2 4 1000 scenario_state);
            [exact scenario_reachable | lia | vm_compute; reflexivity]);
      assert (Hc : cell_at s 0 0 4 1000) by (scenario_cell 1000 4)
  end.
  split; [exact Hr |]. split; [exact Hc |]. split; [lia |].
  split; [vm_compute; reflexivity |].
  apply (release_frees_cell _ 0 0 4 1000 Hr Hc). lia.
Defined.

Lemma chunk_give_free cc ch j :
  chunk_ok cc ch -> 0 <= cc <= 992 -> 0 <= j < cc ->
  chunk_used ch j = false -> chunk_give ch j = ch.
Proof.
  intros Hok Hcc Hj Hfree.
  destruct (chunk_give_spec cc ch j Hok Hcc Hj) as (Hok' & Hclr & Hother).
  apply (chunk_ext cc); [assumption | assumption | assumption |].
  intros b Hb. destruct (Z.eq_dec b j) as [-> | Hne].
  - rewrite Hclr, Hfree. reflexivity.
  - apply Hother; assumption.
Qed.

(** X5: on an allocator in use, [release] of the pointer of a cell that
    is free, with an index below 256, changes nothing: releasing a pointer
    twice is the same as releasing it once. *)
Theorem release_free_cell_unchanged st sg i sz ptr :
  reachable st -> cell_at st sg i sz ptr -> i < 256 ->
  cell_bit st sg i = Ret false ->
  release ptr st = Ret st.
Proof.
  intros Hr Hcell H256 Hbit.
  destruct (reachable_Inv _ Hr) as (base & pools & chunks & -> & Hlay).
  pose proof Hlay as (Hb & Hn & Hv & Hck).
  destruct (cell_at_layout _ _ _ _ _ _ _ Hcell) as (k & q & -> & Hq & -> & Hi & ->).
  destruct (Forall2_lookup_l _ _ _ _ _ Hck Hq) as (ch & Hch & Hok).
  pose proof (proj2 (proj1 (Forall_lookup _ _) Hv _ _ Hq)) as Hcc.
  rewrite (cell_bit_layout _ _ _ k q ch) in Hbit by assumption.
  injection Hbit as Hbit.
  rewrite (release_cell _ _ _ _ _ _ _ Hlay Hq Hch Hi), wrap8_small by lia.
  rewrite (chunk_give_free (snd q)) by (assumption || lia).
  rewrite list_insert_id by assumption. reflexivity.
Qed.

Lemma release_free_cell_unchanged_witness :
  reachable scenario_state /\ cell_at scenario_state 0 0 4 1000 /\ 0 < 256 /\
  cell_bit scenario_state 0 0 = Ret false /\
  release 1000 scenario_state = Ret scenario_state.
Proof.
  assert (Hbit : cell_bit scenario_state 0 0 = Ret false)
    by (vm_compute; reflexivity).
  split; [exact scenario_reachable |].
  split; [exact scenario_cell_0_0 |].
  split; [lia |].
  split; [exact Hbit |].
  apply (release_free_cell_unchanged scenario_state 0 0 4 1000
           scenario_reachable scenario_cell_0_0);
    [lia | exact Hbit].
Defined.

Lemma small_pools_layout base pools pb :
  small_pools (layout_state base pools pb) ->
  Forall (fun q => snd q <= 256) pools.
Proof.
  intros H. apply Forall_lookup. intros k q Hq. cbn beta.
  apply (H (Z.of_nat k)). lay.
  apply (rd_fmap snd pools k q); [assumption | reflexivity].
Qed.

(** X6: on an allocator in use in which no pool has more than 256 cells,
    [release] of the pointer [alloc] returned puts every member back as
    it was before the [alloc]. *)
Theorem alloc_release_round_trip st size fuel p st' :
  reachable st -> small_pools st -> 0 <= size ->
  alloc fuel size st = Ret (p, st') -> p <> nullptr ->
  release p st' = Ret st.
Proof.
  intros Hr Hsmall Hs Ha Hp.
  destruct (reachable_Inv _ Hr) as (base & pools & chunks & -> & Hlay).
  eapply alloc_release_restores; try eassumption.
  eapply small_pools_layout. eassumption.
Qed.

Lemma alloc_release_round_trip_witness :
  reachable scenario_state /\ small_pools scenario_state /\ 0 <= 4 /\
  1000 <> nullptr /\
  exists st',
    alloc 2 4 scenario_state = Ret (1000, st') /\
    release 1000 st' = Ret scenario_state.
Proof.
  split; [exact scenario_reachable |].
  split; [exact scenario_small_pools |].
  split; [lia |].
  split; [discriminate |].
  eexists. split; [vm_compute; reflexivity |].
  apply (alloc_release_round_trip scenario_state 4 2 1000 _ scenario_reachable
           scenario_small_pools);
    [lia | vm_compute; reflexivity | discriminate].
Defined.

(** X7: [release] returns without a change when the object is not
    initialized, when the pointer is null and when the pointer is outside
    the arena; the template form [release<T>] does the same as
    [release]. *)
Theorem release_ignores st ptr :
  (_initialized st = false -> release ptr st = Ret st) /\
  release nullptr st = Ret st /\
  (forall b, _buffer st = Live b ->
     ptr < b \/ b + _buffer_size st <= ptr -> release ptr st = Ret st) /\
  release_T ptr st = release ptr st.
Proof.
  unfold release_T, release.
  split; [intros ->; reflexivity |].
  split; [destruct (_initialized st); reflexivity |].
  split.
  - intros b Hb Hout. rewrite Hb.
    destruct (_initialized st); [| reflexivity]. cbn [negb].
    destruct (ptr =? nullptr); [reflexivity |]. cbn [bind].
    destruct (Z.ltb_spec ptr b); [reflexivity |].
    destruct (Z.geb_spec ptr (b + _buffer_size st)); [reflexivity | lia].
  - destruct (_initialized st); [| reflexivity]. cbn [negb orb].
    destruct (ptr =? nullptr); reflexivity.
Qed.

(** ** The cells in the arena *)

Lemma cells_apart pools (k k' : nat) q q' i i' :
  Forall pool_valid pools -> pools !! k = Some q -> pools !! k' = Some q' ->
  0 <= i < snd q -> 0 <= i' < snd q' -> (k < k')%nat ->
  seg_off pools k + i * fst q + fst q <= seg_off pools k' + i' * fst q'.
Proof.
  intros Hv Hq Hq' Hi Hi' Hlt.
  pose proof (seg_off_mono pools (S k) k' Hv ltac:(lia)) as Hm.
  rewrite (seg_off_S _ _ _ Hq) in Hm.
  destruct (proj1 (Forall_lookup _ _) Hv _ _ Hq) as [(u & Hu & Hf) Hc].
  destruct (proj1 (Forall_lookup _ _) Hv _ _ Hq') as [(u' & Hu' & Hf') Hc'].
  unfold pool_bytes in Hm. rewrite Hf, Hf' in *. nia.
Qed.

(** X8: on an allocator in use every cell lies inside the arena, and two
    different cells do not overlap. *)
Theorem cells_disjoint st sg i sz p :
  reachable st -> cell_at st sg i sz p ->
  exists b,
    _buffer st = Live b /\
    b <= p /\ 0 < sz /\ p + sz <= b + _buffer_size st /\
    forall sg' i' sz' p',
      cell_at st sg' i' sz' p' -> (sg, i) <> (sg', i') ->
      p + sz <= p' \/ p' + sz' <= p.
Proof.
  intros Hr Hc.
  destruct (reachable_Inv _ Hr) as (base & pools & chunks & -> & Hlay).
  pose proof Hlay as (Hb & Hn & Hv & Hck).
  destruct (cell_at_layout _ _ _ _ _ _ _ Hc) as (k & q & -> & Hq & -> & Hi & ->).
  destruct (cell_offset_range pools k q i Hv Hq Hi) as (Ho1 & _ & Ho3 & Ho4).
  destruct (proj1 (Forall_lookup _ _) Hv _ _ Hq) as [(u & Hu & Hf) Hcc].
  exists base. lay. split; [reflexivity |].
  split; [lia |].
  split; [lia |].
  split; [unfold pool_bytes in *; rewrite Hf in *; nia |].
  intros sg' i' sz' p' Hc' Hne.
  destruct (cell_at_layout _ _ _ _ _ _ _ Hc') as (k' & q' & -> & Hq' & -> & Hi' & ->).
  destruct (Nat.lt_trichotomy k k') as [Hlt | [-> | Hgt]].
  - left. pose proof (cells_apart pools k k' q q' i i' Hv Hq Hq' Hi Hi' Hlt). lia.
  - rewrite Hq in Hq'. injection Hq' as <-.
    assert (i <> i') by congruence. rewrite Hf. nia.
  - right. pose proof (cells_apart pools k' k q' q i' i Hv Hq' Hq Hi' Hi Hgt). lia.
Qed.

Lemma cells_disjoint_witness :
  reachable scenario_state /\ cell_at scenario_state 1 1 16 1032 /\
  exists b,
    _buffer scenario_state = Live b /\
    b <= 1032 /\ 0 < 16 /\ 1032 + 16 <= b + _buffer_size scenario_state /\
    forall sg' i' sz' p',
      cell_at scenario_state sg' i' sz' p' -> (1, 1) <> (sg', i') ->
      1032 + 16 <= p' \/ p' + sz' <= 1032.
Proof.
  split; [exact scenario_reachable |].
  split; [exact scenario_cell_1_1 |].
  apply (cells_disjoint scenario_state 1 1 16 1032 scenario_reachable
           scenario_cell_1_1).
Defined.

(** ** What [begin] stores *)

Lemma place_chosen n : forall segs current,
  segs <> [] ->
  exists l,
    place n segs current
    = (fun s => (wrap16 (segment.size s * SEGMENT_STEP), segment.count s)) <$> l /\
    length l = n /\ (forall x, x ∈ l -> x ∈ segs).
Proof.
  induction n as [| n IH]; intros segs current Hne.
  - exists []. split; [reflexivity |]. split; [reflexivity |]. intros x Hx. inversion Hx.
  - destruct (IH segs (segment.size (seg_at segs (next_index segs current))) Hne)
      as (l & El & Hl & Hin).
    exists (seg_at segs (next_index segs current) :: l).
    split; [cbn [place]; rewrite El; reflexivity |].
    split; [simpl; lia |].
    intros x Hx. apply elem_of_cons in Hx as [-> | Hx];
      [apply next_seg_elem; assumption | apply Hin; assumption].
Qed.

Lemma strictly_increasing_NoDup l : strictly_increasing l -> NoDup l.
Proof.
  intros H. apply NoDup_alt. intros i j x Hi Hj.
  destruct (Nat.lt_trichotomy i j) as [Hlt | [E | Hgt]]; [| exact E |].
  - pose proof (H i j x x Hi Hj Hlt). lia.
  - pose proof (H j i x x Hj Hi Hgt). lia.
Qed.

Lemma sumZ_Permutation l k : l ≡ₚ k -> sumZ l = sumZ k.
Proof.
  induction 1 as [| x l k _ IH | x y l | l k m _ IH1 _ IH2];
    rewrite ?sumZ_cons; lia.
Qed.

(** The pools [begin] stores for descriptors of distinct sizes. *)
Lemma place_Permutation segs :
  Forall segment_ok segs -> NoDup (segment.size <$> segs) -> segs <> [] ->
  place (length segs) segs 0
  ≡ₚ (fun s => (SEGMENT_STEP * segment.size s, segment.count s)) <$> segs /\
  strictly_increasing (fst <$> place (length segs) segs 0).
Proof.
  intros Hok Hnd Hne.
  assert (Hwf : Forall segment_wf segs)
    by (eapply Forall_impl; [exact Hok |]; intros s [H1 H2]; split; lia).
  destruct (place_increasing (length segs) segs 0 Hwf Hnd ltac:(lia)) as [_ Hinc].
  { rewrite above_all; [lia |].
    intros s Hs. pose proof (proj1 (Forall_forall _ _) Hok s Hs) as [H1 _]. lia. }
  split; [| assumption].
  destruct (place_chosen (length segs) segs 0 Hne) as (l & El & Hl & Hin).
  rewrite El in *.
  assert (Hndl : NoDup l).
  { apply strictly_increasing_NoDup in Hinc.
    rewrite <- list_fmap_compose in Hinc. eapply NoDup_fmap_1. exact Hinc. }
  assert (Hperm : l ≡ₚ segs).
  { apply submseteq_length_Permutation; [| lia].
    apply NoDup_submseteq; assumption. }
  rewrite <- Hperm.
  replace ((fun s => (wrap16 (segment.size s * SEGMENT_STEP), segment.count s)) <$> l)
    with ((fun s => (SEGMENT_STEP * segment.size s, segment.count s)) <$> l);
    [reflexivity |].
  apply list_fmap_ext. intros k s Hs.
  pose proof (proj1 (Forall_forall _ _) Hok s
                (Hin s (list_elem_of_lookup_2 _ _ _ Hs))) as [H1 _].
  unfold SEGMENT_STEP. rewrite wrap16_small by lia. f_equal. lia.
Qed.

(** X9: with 1 to 64 descriptors of pairwise distinct sizes, each of 1 to
    16 units and at most 992 cells, [begin] returns true and stores the
    descriptors sorted by size: the stored pairs of cell size and cell
    count are a permutation of the descriptors, the sizes increase
    strictly, [_buffer_size] is the sum of the pool sizes and
    [_max_segment_size] is the largest size. *)
Theorem begin_sorts h segs count :
  heap_ok h -> 1 <= count <= 64 -> Z.of_nat (length segs) = count ->
  Forall segment_ok segs -> NoDup (segment.size <$> segs) ->
  exists st pools,
    begin h segs count new_mempool = Ret (true, st) /\
    _segment_sizes st = Live (fst <$> pools) /\
    _cell_count st = Live (snd <$> pools) /\
    pools ≡ₚ (fun s => (SEGMENT_STEP * segment.size s, segment.count s)) <$> segs /\
    strictly_increasing (fst <$> pools) /\
    _buffer_size st
    = sumZ ((fun s => SEGMENT_STEP * segment.size s * segment.count s) <$> segs) /\
    (forall s, s ∈ segs -> SEGMENT_STEP * segment.size s <= _max_segment_size st).
Proof.
  intros Hh Hc Hlen Hok Hnd.
  assert (Hne : segs <> []) by (intros ->; simpl in *; lia).
  destruct (place_Permutation segs Hok Hnd Hne) as [Hperm Hinc].
  eexists _, (place (length segs) segs 0).
  split; [rewrite begin_spec by assumption;
          replace (Z.to_nat count) with (length segs) by lia; reflexivity |].
  lay. split; [reflexivity |]. split; [reflexivity |].
  split; [assumption |]. split; [assumption |].
  split.
  - rewrite (sumZ_Permutation _ _ (fmap_Permutation pool_bytes _ _ Hperm)).
    rewrite <- list_fmap_compose. reflexivity.
  - intros s Hs.
    assert (Hin : (SEGMENT_STEP * segment.size s, segment.count s)
                  ∈ place (length segs) segs 0).
    { rewrite Hperm.
      exact (list_elem_of_fmap_2
               (fun s => (SEGMENT_STEP * segment.size s, segment.count s)) _ _ Hs). }
    apply list_elem_of_lookup in Hin as [k Hk].
    apply (increasing_le_max _ k _ Hinc).
    rewrite list_lookup_fmap, Hk. reflexivity.
Qed.

Lemma begin_sorts_witness :
  heap_ok scenario_heap /\ 1 <= 2 <= 64 /\
  Z.of_nat (length [mk_segment 2 4; mk_segment 4 1]) = 2 /\
  Forall segment_ok [mk_segment 2 4; mk_segment 4 1] /\
  NoDup (segment.size <$> [mk_segment 2 4; mk_segment 4 1]) /\
  exists st pools,
    begin scenario_heap [mk_segment 2 4; mk_segment 4 1] 2 new_mempool
    = Ret (true, st) /\
    _segment_sizes st = Live (fst <$> pools) /\
    _cell_count st = Live (snd <$> pools) /\
    pools ≡ₚ (fun s => (SEGMENT_STEP * segment.size s, segment.count s))
               <$> [mk_segment 2 4; mk_segment 4 1] /\
    strictly_increasing (fst <$> pools) /\
    _buffer_size st
    = sumZ ((fun s => SEGMENT_STEP * segment.size s * segment.count s)
              <$> [mk_segment 2 4; mk_segment 4 1]) /\
    (forall s, s ∈ [mk_segment 2 4; mk_segment 4 1] ->
       SEGMENT_STEP * segment.size s <= _max_segment_size st).
Proof.
  assert (Hok : Forall segment_ok [mk_segment 2 4; mk_segment 4 1])
    by (repeat constructor; apply Z.leb_le; reflexivity).
  assert (Hnd : NoDup (segment.size <$> [mk_segment 2 4; mk_segment 4 1])).
  { apply NoDup_cons. split; [| apply NoDup_singleton].
    intros H. apply list_elem_of_singleton in H. discriminate. }
  split; [exact scenario_heap_ok |].
  split; [lia |].
  split; [reflexivity |].
  split; [exact Hok |].
  split; [exact Hnd |].
  apply (begin_sorts scenario_heap [mk_segment 2 4; mk_segment 4 1] 2
           scenario_heap_ok);
    [lia | reflexivity | exact Hok | exact Hnd].
Defined.

(** X10: after a [begin] with valid descriptors every cell of every pool
    is free. *)
Theorem begin_all_free h segs count st sg i sz p :
  heap_ok h -> 1 <= count <= 64 -> Z.of_nat (length segs) = count ->
  Forall segment_valid segs ->
  begin h segs count new_mempool = Ret (true, st) ->
  cell_at st sg i sz p -> cell_bit st sg i = Ret false.
Proof.
  intros Hh Hc Hlen Hval Hb Hcell.
  assert (Hne : segs <> []) by (intros ->; simpl in *; lia).
  rewrite begin_spec in Hb;
    [| assumption | assumption | assumption
     | eapply Forall_impl; [exact Hval | exact segment_valid_ok]].
  injection Hb as <-.
  set (pools := place (Z.to_nat count) segs 0) in *.
  pose proof (place_valid (Z.to_nat count) segs 0 Hne Hval) as Hv. fold pools in Hv.
  assert (Hlay : layout_ok (arena_addr h) pools (init_chunk <$> (snd <$> pools))).
  { split; [exact (proj2 Hh) |].
    split; [unfold pools; rewrite length_place; lia |].
    split; [assumption | apply init_chunks_ok; assumption]. }
  destruct (cell_at_layout _ _ _ _ _ _ _ Hcell) as (k & q & -> & Hq & -> & Hi & ->).
  pose proof (proj2 (proj1 (Forall_lookup _ _) Hv _ _ Hq)) as Hcc.
  rewrite (cell_bit_layout _ _ _ k q (init_chunk (snd q)))
    by (try assumption; rewrite !list_lookup_fmap, Hq; reflexivity).
  rewrite init_chunk_free by lia. reflexivity.
Qed.

Lemma begin_all_free_witness :
  heap_ok scenario_heap /\ 1 <= 2 <= 64 /\
  Z.of_nat (length scenario_segs) = 2 /\
  Forall segment_valid scenario_segs /\
  begin scenario_heap scenario_segs 2 new_mempool = Ret (true, scenario_state) /\
  cell_at scenario_state 1 1 16 1032 /\
  cell_bit scenario_state 1 1 = Ret false.
Proof.
  split; [exact scenario_heap_ok |].
  split; [lia |].
  split; [reflexivity |].
  split; [exact scenario_segs_valid |].
  split; [exact scenario_begin |].
  split; [exact scenario_cell_1_1 |].
  apply (begin_all_free scenario_heap scenario_segs 2 scenario_state 1 1 16 1032
           scenario_heap_ok);
    [lia | reflexivity | exact scenario_segs_valid | exact scenario_begin
     | exact scenario_cell_1_1].
Defined.

(** ** [begin] when a [new] fails *)

Lemma new_array_fail h k n : oom_at h = Some k -> new_array h k n = Null.
Proof. intros H. unfold new_array, new_fails. rewrite H, Nat.eqb_refl. reflexivity. Qed.

Lemma new_array_other h k j n :
  oom_at h = Some k -> k <> j ->
  new_array h j n = Live (replicate (Z.to_nat n) 0).
Proof.
  intros H Hne. unfold new_array, new_fails. rewrite H.
  destruct (Nat.eqb_spec k j); [contradiction | reflexivity].
Qed.

Lemma new_arena_fail h k : oom_at h = Some k -> new_arena h k = Null.
Proof. intros H. unfold new_arena, new_fails. rewrite H, Nat.eqb_refl. reflexivity. Qed.

Lemma new_arena_other h k j :
  oom_at h = Some k -> k <> j -> new_arena h j = Live (arena_addr h).
Proof.
  intros H Hne. unfold new_arena, new_fails. rewrite H.
  destruct (Nat.eqb_spec k j); [contradiction | reflexivity].
Qed.

Ltac oom_rewrite Hoom :=
  rewrite ?(new_array_fail _ _ _ Hoom), ?(new_arena_fail _ _ Hoom);
  rewrite ?(new_array_other _ _ _ _ Hoom) by (intros ?; discriminate);
  rewrite ?(new_arena_other _ _ _ Hoom) by (intros ?; discriminate).

Lemma begin_finish_oom h k pools bs ps (pp sp mg sh : list Z) :
  oom_at h = Some k -> (6 <= k < 9)%nat -> pools <> [] ->
  exists st,
    begin_finish h (Z.of_nat (length pools))
      (Mempool true Null bs ps Null (Live pp) (Live sp) 0
         (Live (fst <$> pools)) (Live (snd <$> pools)) (Live mg) (Live sh)
         (Z.of_nat (length pools)) Null 0)
    = Ret (false, st) /\ _initialized st = true.
Proof.
  intros Hoom Hk Hne.
  assert (Hne' : fst <$> pools <> []) by (destruct pools; [contradiction | discriminate]).
  assert (Hn : (1 <= length pools)%nat) by (destruct pools; [contradiction | simpl; lia]).
  unfold begin_finish. st_red.
  rewrite (rd_Live_Z _ _ (max_of (fst <$> pools)))
    by (try lia; rewrite <- (length_fmap fst pools); apply max_of_lookup; assumption).
  st_red.
  destruct k as [| [| [| [| [| [| [| [| [| k]]]]]]]]]; try lia;
    oom_rewrite Hoom; st_red; unfold fail, clean; st_red; cbn;
    eexists; split; reflexivity.
Qed.

(** X11: when one of the nine [new] expressions of [begin] returns null,
    [begin] with valid descriptors returns false; when it is one of the
    first six the object is still uninitialized. *)
Theorem begin_out_of_memory h segs count k :
  oom_at h = Some k -> (k < 9)%nat ->
  1 <= count <= 64 -> Z.of_nat (length segs) = count ->
  Forall segment_ok segs ->
  exists st,
    begin h segs count new_mempool = Ret (false, st) /\
    ((k < 6)%nat -> _initialized st = false).
Proof.
  intros Hoom Hk Hc Hlen Hok.
  assert (Hne : segs <> []) by (intros ->; simpl in *; lia).
  destruct (Nat.lt_ge_cases k 6) as [Hlt | Hge].
  - unfold begin, new_mempool. st_red.
    destruct (Z.gtb_spec count 64); [lia |].
    destruct k as [| [| [| [| [| [| k]]]]]]; try lia;
      oom_rewrite Hoom; st_red; unfold fail, clean; st_red; cbn;
      eexists; split; reflexivity.
  - unfold begin, new_mempool. st_red.
    destruct (Z.gtb_spec count 64); [lia |].
    rewrite !(new_array_other _ _ _ _ Hoom) by lia. st_red.
    set (n := Z.to_nat count).
    destruct (begin_place_spec segs count n 0 0 [] (replicate n 0) [] (replicate n 0)
                0 0 (replicate n 0) (replicate n 0) 0 (replicate n 0)
                (replicate n 0) 0) as [Ht _];
      try (rewrite ?length_replicate; simpl; lia).
    rewrite !app_nil_l in Ht.
    rewrite Ht by (apply place_passes_ok; [assumption | lia | lia]).
    cbn [bind fst snd]. rewrite ?app_nil_l.
    pose proof (length_place n segs 0) as Hln.
    replace count with (Z.of_nat (length (place n segs 0))) by lia.
    destruct (begin_finish_oom h k (place n segs 0)
                (acc_bytes 0 (place n segs 0)) (acc_words 0 (place n segs 0))
                (replicate n 0) (replicate n 0) (replicate n 0) (replicate n 0)
                Hoom ltac:(lia)) as (st & E & _).
    { intros E0. rewrite E0 in Hln. simpl in Hln. lia. }
    exists st. split; [exact E | lia].
Qed.

Lemma begin_out_of_memory_witness :
  oom_at (Heap (Some 2%nat) 1000) = Some 2%nat /\ (2 < 9)%nat /\
  1 <= 2 <= 64 /\ Z.of_nat (length scenario_segs) = 2 /\
  Forall segment_ok scenario_segs /\
  exists st,
    begin (Heap (Some 2%nat) 1000) scenario_segs 2 new_mempool
    = Ret (false, st) /\
    ((2 < 6)%nat -> _initialized st = false).
Proof.
  split; [reflexivity |].
  split; [lia |].
  split; [lia |].
  split; [reflexivity |].
  split; [exact scenario_segs_ok |].
  apply (begin_out_of_memory (Heap (Some 2%nat) 1000) scenario_segs 2 2);
    [reflexivity | lia | lia | reflexivity | exact scenario_segs_ok].
Defined.

(** ** What [alloc] and [release] never touch *)

(** X12: in every state, a call of [alloc] or [release] that returns has
    changed no member but [_pool_buffer]. *)
Theorem only_bitmap_changes st :
  (forall fuel size p st',
     alloc fuel size st = Ret (p, st') ->
     st' = with_pool_buffer (_pool_buffer st') st) /\
  (forall ptr st',
     release ptr st = Ret st' ->
     st' = with_pool_buffer (_pool_buffer st') st).
Proof.
  split.
  - intros fuel. revert st.
    induction fuel as [| fuel IH]; intros st size p st' H; [discriminate |].
    cbn [alloc] in H. destruct st. inv_ret; try reflexivity.
    match goal with H : alloc _ _ _ = Ret _ |- _ => apply IH in H; exact H end.
  - intros ptr st' H. destruct st. unfold release in H. inv_ret; reflexivity.
Qed.

(** ** The life of an object *)

(** X13: on an allocator in use [begin] returns false and changes
    nothing, whatever its arguments. *)
Theorem begin_twice st h segs count :
  reachable st -> begin h segs count st = Ret (false, st).
Proof.
  intros Hr. destruct (reachable_Inv _ Hr) as (base & pools & chunks & -> & _).
  apply begin_initialized. reflexivity.
Qed.

Lemma begin_twice_witness :
  reachable scenario_state /\
  begin scenario_heap scenario_segs 2 scenario_state
  = Ret (false, scenario_state).
Proof.
  split; [exact scenario_reachable |].
  apply (begin_twice scenario_state scenario_heap scenario_segs 2).
  exact scenario_reachable.
Defined.

(** X14: [clean] on an allocator in use returns with the flag still set,
    every array deleted but its pointer kept, and the sizes and counts
    that are no arrays as they were: the destructor then deletes the
    arrays again, [alloc] of a size from 1 to the largest cell size reads
    the deleted lookup table and [print_pool] reads the deleted bitmap,
    which are all undefined. *)
Theorem clean_leaves_dangling st :
  reachable st ->
  exists st',
    clean st = Ret st' /\
    _segment_sizes st' = Dangling /\ _cell_count st' = Dangling /\
    _magic_number st' = Dangling /\ _segment_shift st' = Dangling /\
    _buffer st' = Dangling /\ _pool_buffer st' = Dangling /\
    _segment_lookup st' = Dangling /\ _segment_ptr st' = Dangling /\
    _pool_ptr st' = Dangling /\
    _initialized st' = true /\
    _max_segment_size st' = _max_segment_size st /\
    _segment_count st' = _segment_count st /\
    _segment_lookup_count st' = _segment_lookup_count st /\
    _buffer_size st' = _buffer_size st /\
    _pool_size st' = _pool_size st /\
    destroy st' = Undef /\
    (forall fuel size, 1 <= size <= _max_segment_size st ->
       alloc (S fuel) size st' = Undef) /\
    (forall f, print_pool true f st' = Undef).
Proof.
  intros Hr. destruct (reachable_Inv _ Hr) as (base & pools & chunks & -> & Hlay).
  pose proof Hlay as (Hb & Hn & Hv & Hck).
  eexists. split; [reflexivity |]. cbn.
  do 16 (split; [reflexivity |]).
  split.
  - intros fuel size Hs. cbn.
    destruct (Z.gtb_spec size (max_of (fst <$> pools))); [lia | reflexivity].
  - intros f. unfold print_pool. cbn.
    assert (Hw : 1 <= sumZ (pool_words <$> pools)).
    { destruct pools as [| q pools]; [simpl in Hn; lia |].
      rewrite fmap_cons, sumZ_cons.
      inversion Hv as [| ? ? Hq Hrest]; subst.
      pose proof (sumZ_nonneg (pool_words <$> pools)) as Hnn.
      assert (1 <= pool_words q).
      { apply pool_words_pos. apply pool_valid_placed. assumption. }
      assert (0 <= sumZ (pool_words <$> pools)); [| lia].
      apply Hnn. apply Forall_fmap. eapply Forall_impl; [exact Hrest |].
      intros x Hx. cbn. pose proof (pool_words_pos x (pool_valid_placed x Hx)). lia. }
    destruct (Z.to_nat (sumZ (pool_words <$> pools))) as [| n] eqn:En; [lia |].
    reflexivity.
Qed.

Lemma clean_leaves_dangling_witness :
  reachable scenario_state /\
  exists st',
    clean scenario_state = Ret st' /\
    _segment_sizes st' = Dangling /\ _cell_count st' = Dangling /\
    _magic_number st' = Dangling /\ _segment_shift st' = Dangling /\
    _buffer st' = Dangling /\ _pool_buffer st' = Dangling /\
    _segment_lookup st' = Dangling /\ _segment_ptr st' = Dangling /\
    _pool_ptr st' = Dangling /\
    _initialized st' = true /\
    _max_segment_size st' = _max_segment_size scenario_state /\
    _segment_count st' = _segment_count scenario_state /\
    _segment_lookup_count st' = _segment_lookup_count scenario_state /\
    _buffer_size st' = _buffer_size scenario_state /\
    _pool_size st' = _pool_size scenario_state /\
    destroy st' = Undef /\
    (forall fuel size, 1 <= size <= _max_segment_size scenario_state ->
       alloc (S fuel) size st' = Undef) /\
    (forall f, print_pool true f st' = Undef).
Proof.
  split; [exact scenario_reachable |].
  apply (clean_leaves_dangling scenario_state). exact scenario_reachable.
Defined.

(** X15: on a fresh object [alloc] returns null for every size from 1
    on, [release] and [clean] return without a change, the destructor is
    defined and the printing functions print an empty line; [alloc(0)]
    reads the null lookup table. *)
Theorem fresh_object :
  (forall fuel size, 1 <= size ->
     alloc (S fuel) size new_mempool = Ret (nullptr, new_mempool)) /\
  (forall fuel, alloc (S fuel) 0 new_mempool = Undef) /\
  (forall ptr, release ptr new_mempool = Ret new_mempool) /\
  clean new_mempool = Ret new_mempool /\
  destroy new_mempool = Ret new_mempool /\
  (forall f, print_pool true f new_mempool = Ret [PrintLn]) /\
  (forall f, print_segment_lookup true f new_mempool = Ret [PrintLn]).
Proof.
  split.
  { intros fuel size Hs. cbn [alloc]. cbn [_max_segment_size new_mempool].
    destruct (Z.gtb_spec size 0); [reflexivity | lia]. }
  repeat split; reflexivity.
Qed.

(** ** The private helpers *)

(** X16: for a count from 1 to 31 [_prepare_mask] returns the 32-bit word
    whose bits below the count are 0 and whose other bits are 1; for the
    count 0 it returns 0; from 32 on the shift is undefined. *)
Theorem prepare_mask_bits c :
  0 <= c < 256 ->
  match _prepare_mask c with
  | Ret m =>
      c < 32 /\ word m /\
      (forall i, 0 <= i < 32 ->
         Z.testbit m i = if c =? 0 then false else c <=? i)
  | Undef => 32 <= c
  | NoFuel => False
  end.
Proof.
  intros Hc. destruct (Z.lt_ge_cases c 32) as [Hlt | Hge].
  - destruct (prepare_mask_spec c ltac:(lia)) as (m & -> & Hw & Hbits).
    split; [assumption |]. split; [assumption |].
    intros i Hi. rewrite (Hbits i Hi).
    destruct (c =? 0); [apply andb_false_r | apply andb_true_r].
  - unfold _prepare_mask.
    destruct (Z.eqb_spec c 0); [lia |].
    destruct (Z.leb_spec 32 c); [assumption | lia].
Qed.

Lemma prepare_mask_bits_witness :
  0 <= 3 < 256 /\
  match _prepare_mask 3 with
  | Ret m =>
      3 < 32 /\ word m /\
      (forall i, 0 <= i < 32 ->
         Z.testbit m i = if 3 =? 0 then false else 3 <=? i)
  | Undef => 32 <= 3
  | NoFuel => False
  end.
Proof.
  split; [lia |]. apply (prepare_mask_bits 3). lia.
Defined.

Lemma next_from_none arr : forall i current find ret,
  (forall s, s ∈ arr -> segment.size s <= current) ->
  next_from arr i current find ret = ret.
Proof.
  induction arr as [| s arr IH]; intros i current find ret H; [reflexivity |].
  cbn [next_from]. pose proof (H s ltac:(left)) as Hs.
  destruct (Z.gtb_spec (segment.size s) current); [lia |]. cbn [andb].
  apply IH. intros x Hx. apply H. right. assumption.
Qed.

(** X17: on an array of [count] descriptors [_get_next_segment] returns
    an index inside the array; when some descriptor is larger than
    [current] it is the index of a descriptor of the smallest size above
    [current], and when none is it is 0. *)
Theorem get_next_segment_spec arr count current :
  Forall segment_wf arr -> Z.of_nat (length arr) = count -> 1 <= count ->
  exists r,
    _get_next_segment arr count current = Ret r /\
    0 <= r < count /\
    ((forall s, s ∈ arr -> segment.size s <= current) -> r = 0) /\
    (forall s, s ∈ arr -> current < segment.size s ->
       current < segment.size (seg_at arr r) /\
       segment.size (seg_at arr r) <= segment.size s).
Proof.
  intros Hwf Hlen Hc.
  assert (Hne : arr <> []) by (intros ->; simpl in *; lia).
  exists (next_index arr current).
  split; [apply get_next_segment_pure; assumption |].
  split; [rewrite <- Hlen; apply next_index_range; assumption |].
  split; [intros Hall; apply next_from_none; assumption |].
  intros s Hs Hgt.
  destruct (next_index_min arr current s Hwf Hs Hgt) as (_ & H1 & H2).
  split; [assumption | apply H2; assumption].
Qed.

Lemma get_next_segment_spec_witness :
  Forall segment_wf [mk_segment 2 4; mk_segment 4 1] /\
  Z.of_nat (length [mk_segment 2 4; mk_segment 4 1]) = 2 /\ 1 <= 2 /\
  exists r,
    _get_next_segment [mk_segment 2 4; mk_segment 4 1] 2 0 = Ret r /\
    0 <= r < 2 /\
    ((forall s, s ∈ [mk_segment 2 4; mk_segment 4 1] -> segment.size s <= 0) ->
     r = 0) /\
    (forall s, s ∈ [mk_segment 2 4; mk_segment 4 1] -> 0 < segment.size s ->
       0 < segment.size (seg_at [mk_segment 2 4; mk_segment 4 1] r) /\
       segment.size (seg_at [mk_segment 2 4; mk_segment 4 1] r)
       <= segment.size s).
Proof.
  assert (Hwf : Forall segment_wf [mk_segment 2 4; mk_segment 4 1])
    by (repeat constructor; apply mk_segment_wf).
  split; [exact Hwf |].
  split; [reflexivity |].
  split; [lia |].
  apply (get_next_segment_spec [mk_segment 2 4; mk_segment 4 1] 2 0 Hwf);
    [reflexivity | lia].
Defined.

(** X18: [_lookup_segment] returns the first index whose stored size is
    at least the size asked for, and -1 when every stored size is
    smaller. *)
Theorem lookup_segment_spec st szs size :
  _segment_sizes st = Live szs ->
  _segment_count st = Z.of_nat (length szs) ->
  exists r,
    _lookup_segment st size = Ret r /\
    ((r = -1 /\ forall s, s ∈ szs -> s < size)
     \/ (exists s, 0 <= r /\ szs !! Z.to_nat r = Some s /\ size <= s /\
           forall (j : nat) s', (j < Z.to_nat r)%nat -> szs !! j = Some s' ->
             s' < size)).
Proof.
  intros Hs Hc. unfold _lookup_segment. rewrite Hs, Hc, Nat2Z.id.
  exists (first_fit szs 0 size).
  split; [exact (lookup_loop_pure szs [] size) |].
  destruct (decide (Exists (fun s => size <= s) szs)) as [Hex | Hno].
  - right. apply Exists_exists in Hex.
    destruct (first_fit_found szs 0 size Hex) as (k & s & E & Hk & Hle & Hlow).
    rewrite E. exists s. split; [lia |].
    replace (Z.to_nat (0 + Z.of_nat k)) with k by lia.
    split; [assumption |]. split; assumption.
  - left. assert (Hall : forall s, s ∈ szs -> s < size).
    { intros s Hin. destruct (Z.lt_ge_cases s size) as [| Hge]; [assumption |].
      exfalso. apply Hno. apply Exists_exists. exists s. split; [assumption | lia]. }
    split; [apply first_fit_none; assumption | assumption].
Qed.

Lemma lookup_segment_spec_witness :
  _segment_sizes scenario_state = Live [4; 16] /\
  _segment_count scenario_state = Z.of_nat (length [4; 16]) /\
  exists r,
    _lookup_segment scenario_state 5 = Ret r /\
    ((r = -1 /\ forall s, s ∈ [4; 16] -> s < 5)
     \/ (exists s, 0 <= r /\ [4; 16] !! Z.to_nat r = Some s /\ 5 <= s /\
           forall (j : nat) s', (j < Z.to_nat r)%nat -> [4; 16] !! j = Some s' ->
             s' < 5)).
Proof.
  split; [reflexivity |].
  split; [reflexivity |].
  apply (lookup_segment_spec scenario_state [4; 16] 5); reflexivity.
Defined.

(** X19: on an initialized allocator entry [j] of the lookup table is the
    index of the first segment whose cell size is at least [4 * (j + 1)]:
    no entry is -1. *)
Theorem lookup_table_entries st j v :
  initialized st -> rd (_segment_lookup st) j = Ret v ->
  0 <= v < _segment_count st /\
  exists s,
    rd (_segment_sizes st) v = Ret s /\ SEGMENT_STEP * (j + 1) <= s /\
    forall k s', 0 <= k < v -> rd (_segment_sizes st) k = Ret s' ->
      s' < SEGMENT_STEP * (j + 1).
Proof.
  intros Hi Hj. destruct (initialized_Sized _ Hi) as (szs & Hne & Hlen & Hsz & Hf).
  unfold shape in Hf. injection Hf as Hss Hsc Hmx Hlk Hlkc _.
  rewrite Hlk in Hj. rewrite Hss, Hsc.
  apply rd_Live_inv in Hj as [Hj0 Hj].
  pose proof (lookup_lt_Some _ _ _ Hj) as Hjl. rewrite length_lookup_table in Hjl.
  rewrite lookup_lookup_table in Hj by assumption. injection Hj as <-.
  rewrite Z2Nat.id by lia.
  destruct (max_of_cell_size _ Hne Hsz) as (u & Hu & Hmax).
  destruct (first_fit_found szs 0 (SEGMENT_STEP * (j + 1)))
    as (k & s & E & Hk & Hle & Hlow).
  { exists (max_of szs). split; [apply max_of_elem; assumption |].
    rewrite Hmax in *. unfold SEGMENT_STEP in *. Z.div_mod_to_equations. lia. }
  pose proof (lookup_lt_Some _ _ _ Hk) as Hkl.
  rewrite E. split; [lia |]. exists s.
  split; [apply rd_Live_Z; [lia |];
          replace (Z.to_nat (0 + Z.of_nat k)) with k by lia; assumption |].
  split; [assumption |].
  intros k' s' Hk' Hs'. apply rd_Live_inv in Hs' as [_ Hs'].
  apply (Hlow (Z.to_nat k')); [lia | assumption].
Qed.

Lemma lookup_table_entries_witness :
  initialized scenario_state /\
  rd (_segment_lookup scenario_state) 1 = Ret 1 /\
  0 <= 1 < _segment_count scenario_state /\
  exists s,
    rd (_segment_sizes scenario_state) 1 = Ret s /\
    SEGMENT_STEP * (1 + 1) <= s /\
    forall k s', 0 <= k < 1 -> rd (_segment_sizes scenario_state) k = Ret s' ->
      s' < SEGMENT_STEP * (1 + 1).
Proof.
  assert (Hrd : rd (_segment_lookup scenario_state) 1 = Ret 1)
    by (vm_compute; reflexivity).
  split; [exact scenario_initialized |].
  split; [exact Hrd |].
  apply (lookup_table_entries scenario_state 1 1 scenario_initialized Hrd).
Defined.

(** ** Recovering a cell from its address *)

(** X20: for a cell of an allocator in use the offset [release] computes
    from the address fits 16 bits, and the index it recovers from the
    offset, by the shift or by the magic number, is the index of the cell
    cut to 8 bits: the index itself for the first 256 cells of a pool. *)
Theorem release_recovers_index st sg i sz p :
  reachable st -> cell_at st sg i sz p ->
  exists base,
    rd (_segment_ptr st) sg = Ret base /\
    wrap16 (p - base) = i * sz /\
    release_cell_index st sg (wrap16 (p - base)) = Ret (wrap8 i) /\
    (i < 256 -> release_cell_index st sg (wrap16 (p - base)) = Ret i).
Proof.
  intros Hr Hcell.
  destruct (reachable_Inv _ Hr) as (b & pools & chunks & -> & Hlay).
  pose proof Hcell as (_ & base & _ & Hbase & _).
  destruct (cell_at_layout _ _ _ _ _ _ _ Hcell) as (k & q & -> & Hq & -> & Hi & ->).
  pose proof Hlay as (_ & _ & Hv & _).
  pose proof (lookup_lt_Some _ _ _ Hq) as Hk.
  exists base. split; [assumption |].
  revert Hbase. lay. rewrite (rd_seg_ptrs _ _ k) by (assumption || lia).
  intros [= <-].
  destruct (cell_offset_range pools k q i Hv Hq Hi) as (Ho1 & Ho2 & _).
  assert (E : wrap16 (b + seg_off pools k + i * fst q - (b + seg_off pools k))
              = i * fst q).
  { unfold wrap16. rewrite Z.mod_small; lia. }
  split; [exact E |]. rewrite E.
  split; [apply (release_cell_index_layout _ _ _ _ q); assumption |].
  intros Hlt. apply (release_cell_index_exact _ _ _ _ q); assumption.
Qed.

Lemma release_recovers_index_witness :
  reachable scenario_state /\ cell_at scenario_state 1 1 16 1032 /\
  exists base,
    rd (_segment_ptr scenario_state) 1 = Ret base /\
    wrap16 (1032 - base) = 1 * 16 /\
    release_cell_index scenario_state 1 (wrap16 (1032 - base)) = Ret (wrap8 1) /\
    (1 < 256 ->
     release_cell_index scenario_state 1 (wrap16 (1032 - base)) = Ret 1).
Proof.
  split; [exact scenario_reachable |].
  split; [exact scenario_cell_1_1 |].
  apply (release_recovers_index scenario_state 1 1 16 1032 scenario_reachable
           scenario_cell_1_1).
Defined.

(** ** The typed entry points *)

(** X21: [alloc<T>] asks [alloc] for the product of the element size and
    the count cut to 16 bits.  On an allocator in use whose stored sizes
    increase strictly, a pointer it returns is a cell that was free, is in
    use afterwards and holds at least the cut product: the whole array
    when the product is below 65536. *)
Theorem alloc_T_cell st sizeof_T count fuel p st' :
  reachable st -> sizes_increasing st ->
  alloc_T sizeof_T fuel count st = Ret (p, st') -> p <> nullptr ->
  exists sg i sz,
    cell_at st sg i sz p /\
    (sizeof_T * count) mod 65536 <= sz /\
    (0 <= sizeof_T * count < 65536 -> sizeof_T * count <= sz) /\
    cell_bit st sg i = Ret false /\
    cell_bit st' sg i = Ret true.
Proof.
  intros Hr Hinc Ha Hp. unfold alloc_T in Ha.
  destruct (reachable_Inv _ Hr) as (base & pools & chunks & -> & Hlay).
  apply sizes_increasing_layout in Hinc.
  assert (Hs : 0 <= wrap16 (sizeof_T * count))
    by (unfold wrap16; apply Z.mod_pos_bound; lia).
  destruct (alloc_layout fuel _ base pools chunks p st' Hlay Hs Ha)
    as [[Hnull _] | (sg & q & ch & g0 & b0 & Hq & Hch & Hj & Hfree & _ & Hok
                     & Hset & _ & -> & _ & -> & Hle)];
    [contradiction |].
  pose proof (lookup_lt_Some _ _ _ Hch) as Hsg.
  assert (Hlay' : layout_ok base pools (<[sg := chunk_take ch g0 b0]> chunks))
    by (eapply layout_ok_insert; eassumption).
  assert (Hch' : <[sg := chunk_take ch g0 b0]> chunks !! sg = Some (chunk_take ch g0 b0))
    by (apply list_lookup_insert_eq; assumption).
  specialize (Hle Hinc). unfold wrap16 in Hle.
  exists (Z.of_nat sg), (g0 * 32 + b0), (fst q).
  split; [apply layout_cell_at; assumption |].
  split; [assumption |].
  split; [intros Hsm; rewrite Z.mod_small in Hle; assumption |].
  split; [rewrite (cell_bit_layout _ _ _ sg q ch) by assumption; rewrite Hfree; reflexivity |].
  rewrite (cell_bit_layout _ _ _ sg q (chunk_take ch g0 b0)) by assumption.
  rewrite Hset. reflexivity.
Qed.

Lemma alloc_T_cell_witness :
  reachable scenario_state /\ sizes_increasing scenario_state /\
  1016 <> nullptr /\
  exists st',
    alloc_T 2 2 3 scenario_state = Ret (1016, st') /\
    exists sg i sz,
      cell_at scenario_state sg i sz 1016 /\
      (2 * 3) mod 65536 <= sz /\
      (0 <= 2 * 3 < 65536 -> 2 * 3 <= sz) /\
      cell_bit scenario_state sg i = Ret false /\
      cell_bit st' sg i = Ret true.
Proof.
  split; [exact scenario_reachable |].
  split; [exact scenario_sizes_increasing |].
  split; [discriminate |].
  eexists. split; [vm_compute; reflexivity |].
  apply (alloc_T_cell scenario_state 2 3 2 1016 _ scenario_reachable
           scenario_sizes_increasing);
    [vm_compute; reflexivity | discriminate].
Defined.

(** ** The printing functions *)

Lemma print_loop l f : forall n i out,
  0 <= i -> (Z.to_nat i + n <= length l)%nat ->
  for_loop n i (print_body (Live l) f) out
  = Ret (out ++ concat ((fun v => [PrintNum v f; PrintSpace])
                          <$> take n (drop (Z.to_nat i) l))).
Proof.
  induction n as [| n IH]; intros i out Hi Hn.
  - cbn [for_loop]. rewrite take_0, fmap_nil. cbn [concat].
    rewrite app_nil_r. reflexivity.
  - cbn [for_loop]. unfold print_body at 1.
    destruct (lookup_lt_is_Some_2 l (Z.to_nat i) ltac:(lia)) as [v Hv].
    rewrite (rd_Live_Z l i v Hi Hv). cbn [bind].
    rewrite IH by lia.
    rewrite (drop_S l v (Z.to_nat i) Hv).
    replace (Z.to_nat (i + 1)) with (S (Z.to_nat i)) by lia.
    cbn [take fmap list_fmap concat]. rewrite <- app_assoc. reflexivity.
Qed.

Lemma print_array l f n :
  n = length l ->
  (out <- for_loop n 0 (print_body (Live l) f) [] ;; Ret (out ++ [PrintLn]))
  = Ret (printed l f).
Proof.
  intros ->. rewrite print_loop by (simpl; lia).
  cbn [bind]. change (Z.to_nat 0) with 0%nat. rewrite drop_0, firstn_all.
  reflexivity.
Qed.

(** X22: on an allocator in use [print_pool] reads every word of the
    bitmap array once, in order and none outside it, and prints each in
    the given format followed by a space, then ends the line; without a
    serial port it prints nothing. *)
Theorem print_pool_words st f :
  reachable st ->
  exists pb,
    _pool_buffer st = Live pb /\
    Z.of_nat (length pb) = _pool_size st /\
    print_pool true f st = Ret (printed pb f) /\
    print_pool false f st = Ret [].
Proof.
  intros Hr.
  destruct (reachable_Inv _ Hr) as (base & pools & chunks & -> & Hlay).
  pose proof Hlay as (_ & _ & _ & Hck).
  pose proof (chunks_fit _ _ Hck) as Hfit.
  assert (Hlen : Z.of_nat (length (concat chunks)) = sumZ (pool_words <$> pools)).
  { rewrite <- pool_off_all, <- (chunk_at_pool_off pools chunks _ Hfit).
    unfold chunk_at. rewrite (Forall2_length _ _ _ Hfit), firstn_all. reflexivity. }
  exists (concat chunks). lay.
  change (_pool_size (layout_state base pools (concat chunks)))
    with (sumZ (pool_words <$> pools)).
  split; [reflexivity |]. split; [assumption |].
  split; [| reflexivity].
  unfold print_pool. cbn [negb]. lay.
  change (_pool_size (layout_state base pools (concat chunks)))
    with (sumZ (pool_words <$> pools)).
  apply print_array. lia.
Qed.

Lemma print_pool_words_witness :
  reachable scenario_state /\
  exists pb,
    _pool_buffer scenario_state = Live pb /\
    Z.of_nat (length pb) = _pool_size scenario_state /\
    print_pool true 16 scenario_state = Ret (printed pb 16) /\
    print_pool false 16 scenario_state = Ret [].
Proof.
  split; [exact scenario_reachable |].
  apply (print_pool_words scenario_state 16). exact scenario_reachable.
Defined.

(** X23: on an initialized allocator [print_segment_lookup] prints the
    whole lookup table, one entry for each multiple of 4 bytes up to the
    largest cell size, reading no element outside it. *)
Theorem print_segment_lookup_table st f :
  initialized st ->
  exists lk,
    _segment_lookup st = Live lk /\
    Z.of_nat (length lk) = _max_segment_size st / SEGMENT_STEP /\
    print_segment_lookup true f st = Ret (printed lk f) /\
    print_segment_lookup false f st = Ret [].
Proof.
  intros Hi. destruct (initialized_Sized _ Hi) as (szs & Hne & Hlen & Hsz & Hf).
  unfold shape in Hf. injection Hf as Hss Hsc Hmx Hlk Hlkc _.
  destruct (max_of_cell_size _ Hne Hsz) as (u & Hu & Hmax).
  assert (H0 : 0 <= max_of szs / SEGMENT_STEP)
    by (rewrite Hmax; unfold SEGMENT_STEP; Z.div_mod_to_equations; lia).
  exists (lookup_table szs).
  split; [assumption |].
  split; [rewrite length_lookup_table, Hmx; lia |].
  split; [| reflexivity].
  unfold print_segment_lookup. cbn [negb]. rewrite Hlk, Hlkc.
  apply print_array. rewrite length_lookup_table. reflexivity.
Qed.

Lemma print_segment_lookup_table_witness :
  initialized scenario_state /\
  exists lk,
    _segment_lookup scenario_state = Live lk /\
    Z.of_nat (length lk) = _max_segment_size scenario_state / SEGMENT_STEP /\
    print_segment_lookup true 10 scenario_state = Ret (printed lk 10) /\
    print_segment_lookup false 10 scenario_state = Ret [].
Proof.
  split; [exact scenario_initialized |].
  apply (print_segment_lookup_table scenario_state 10).
  exact scenario_initialized.
Defined.

(** ** The order of the descriptors *)

Lemma increasing_Permutation_eq (l1 : list (Z * Z)) : forall l2,
  strictly_increasing (fst <$> l1) -> strictly_increasing (fst <$> l2) ->
  l1 ≡ₚ l2 -> l1 = l2.
Proof.
  induction l1 as [| a l1 IH]; intros l2 H1 H2 Hp.
  - apply Permutation_nil_l in Hp. assumption.
  - destruct l2 as [| b l2];
      [apply Permutation_nil_r in Hp; discriminate |].
    assert (Hab : a = b).
    { destruct (decide (a = b)) as [| Hne]; [assumption | exfalso].
      assert (Ha : a ∈ b :: l2) by (rewrite <- Hp; left).
      assert (Hb : b ∈ a :: l1) by (rewrite Hp; left).
      apply elem_of_cons in Ha as [| Ha]; [contradiction |].
      apply elem_of_cons in Hb as [| Hb]; [congruence |].
      apply list_elem_of_lookup in Ha as [i Hi].
      apply list_elem_of_lookup in Hb as [j Hj].
      assert (Hia : (fst <$> b :: l2) !! S i = Some (fst a))
        by (change ((fst <$> l2) !! i = Some (fst a));
            rewrite list_lookup_fmap, Hi; reflexivity).
      assert (Hjb : (fst <$> a :: l1) !! S j = Some (fst b))
        by (change ((fst <$> l1) !! j = Some (fst b));
            rewrite list_lookup_fmap, Hj; reflexivity).
      pose proof (H2 0%nat (S i) (fst b) (fst a) eq_refl Hia ltac:(lia)).
      pose proof (H1 0%nat (S j) (fst a) (fst b) eq_refl Hjb ltac:(lia)).
      lia. }
    subst b. f_equal. apply IH.
    + intros i j x y Hx Hy Hij. apply (H1 (S i) (S j)); [assumption .. | lia].
    + intros i j x y Hx Hy Hij. apply (H2 (S i) (S j)); [assumption .. | lia].
    + apply (Permutation_cons_inv Hp).
Qed.

(** X24: with descriptors of pairwise distinct sizes the allocator that
    [begin] builds does not depend on the order in which the descriptors
    are given. *)
Theorem begin_order_independent h segs segs' count :
  heap_ok h -> 1 <= count <= 64 -> Z.of_nat (length segs) = count ->
  Forall segment_ok segs -> NoDup (segment.size <$> segs) ->
  segs' ≡ₚ segs ->
  begin h segs' count new_mempool = begin h segs count new_mempool.
Proof.
  intros Hh Hc Hlen Hok Hnd Hp.
  assert (Hlen' : Z.of_nat (length segs') = count)
    by (rewrite (Permutation_length Hp); assumption).
  assert (Hok' : Forall segment_ok segs') by (rewrite Hp; assumption).
  assert (Hnd' : NoDup (segment.size <$> segs')) by (rewrite Hp; assumption).
  assert (Hne : segs <> []) by (intros ->; simpl in *; lia).
  assert (Hne' : segs' <> []) by (intros ->; simpl in *; lia).
  destruct (place_Permutation segs Hok Hnd Hne) as [Hperm Hinc].
  destruct (place_Permutation segs' Hok' Hnd' Hne') as [Hperm' Hinc'].
  rewrite !begin_spec by assumption.
  replace (Z.to_nat count) with (length segs) at 3 4 by lia.
  replace (Z.to_nat count) with (length segs') by lia.
  rewrite (increasing_Permutation_eq _ (place (length segs) segs 0) Hinc' Hinc);
    [reflexivity |].
  rewrite Hperm', Hperm, Hp. reflexivity.
Qed.

Lemma begin_order_independent_witness :
  heap_ok scenario_heap /\ 1 <= 2 <= 64 /\
  Z.of_nat (length scenario_segs) = 2 /\
  Forall segment_ok scenario_segs /\
  NoDup (segment.size <$> scenario_segs) /\
  [mk_segment 2 4; mk_segment 4 1] ≡ₚ scenario_segs /\
  begin scenario_heap [mk_segment 2 4; mk_segment 4 1] 2 new_mempool
  = begin scenario_heap scenario_segs 2 new_mempool.
Proof.
  assert (Hnd : NoDup (segment.size <$> scenario_segs)).
  { apply NoDup_cons. split; [| apply NoDup_singleton].
    intros H. apply list_elem_of_singleton in H. discriminate. }
  assert (Hp : [mk_segment 2 4; mk_segment 4 1] ≡ₚ scenario_segs)
    by apply Permutation_swap.
  split; [exact scenario_heap_ok |].
  split; [lia |].
  split; [reflexivity |].
  split; [exact scenario_segs_ok |].
  split; [exact Hnd |].
  split; [exact Hp |].
  apply (begin_order_independent scenario_heap scenario_segs
           [mk_segment 2 4; mk_segment 4 1] 2 scenario_heap_ok);
    [lia | reflexivity | exact scenario_segs_ok | exact Hnd | exact Hp].
Defined.
